(** * pontospell: string-edit alignment, tabular and enumerating engines

    A shallow embedding of [chart.py], [levenshtein.py] and [xducer.py].

    Conventions of the embedding.
    - Costs are integers ([Z]): the cost functions are taken to return
      Python [int]s, as the default ones do.  [chart.py] and [xducer.py]
      start from the integer [0] and so compute with Python's integers,
      which are exact.  [levenshtein.py] starts from the float [0.0]: its
      cells are binary64 floats, and they are the integers of the model
      while the magnitudes stay within 2^53 ([float_exact]).  With cost
      functions that return floats every sum is rounded; [chart.py] adds
      the costs of a path from its start and [xducer.py] from its end, and
      the two sums can differ in the last bit.  No theorem here speaks of
      such costs.
    - A Python exception ([KeyError], [IndexError], [ValueError],
      [TypeError]) is the [None] of an [option] result, and so is, in
      [xducer.relate], a nesting of calls deeper than the fuel;
      [xducer_calls] tells the two apart.
    - Python's [None] marks an absent element, so a sequence element is a
      value of a type [E] and an optional element is an [option E].
    - Positions are naturals.  Every subtraction of the source is applied
      to a position that is at least one at its call sites.
    - A dict is a [gmap]; a dict object that outlives a call is threaded
      through the functions as explicit state.
    - A string is the list of its characters, over a type of characters
      that the functions take with [str], the test for a mark and the
      characters of the literals of the source. *)

From stdpp Require Import base option list gmap.
From Stdlib Require Import ZArith Lia Ascii.

Local Open Scope Z_scope.

(** ** Python control structure *)

(** [for x in l: body], where the body may raise. *)
Fixpoint for_each {A St : Type} (l : list A) (body : A → St → option St)
    (st : St) : option St :=
  match l with
  | [] => Some st
  | x :: l' => st' ← body x st; for_each l' body st'
  end.

(** [max(iterable)]: raises [ValueError] on an empty iterable. *)
Definition py_max (l : list nat) : option nat :=
  match l with
  | [] => None
  | x :: l' => Some (foldl Nat.max x l')
  end.

(** [min(iterable)] over costs. *)
Definition py_min (l : list Z) : option Z :=
  match l with
  | [] => None
  | x :: l' => Some (foldl Z.min x l')
  end.

(** ** Python strings *)

(** [format(text, '<width')] of a string: [text.ljust(width)]. *)
Definition ljust {Char : Type} (space : Char) (width : nat)
    (text : list Char) : list Char :=
  text ++ replicate (width - length text) space.

(** ['%<width>s' % text]: [text.rjust(width)]. *)
Definition rjust {Char : Type} (space : Char) (width : nat)
    (text : list Char) : list Char :=
  replicate (width - length text) space ++ text.

(** [sep.join(lines)]. *)
Fixpoint join {Char : Type} (sep : list Char) (lines : list (list Char))
    : list Char :=
  match lines with
  | [] => []
  | line :: lines =>
    match lines with
    | [] => line
    | _ => line ++ sep ++ join sep lines
    end
  end.

(** ** chart.py *)
Module chart.

Abbreviation SeqPos := nat (only parsing).
(** [Cost = float] in the source is an annotation, which Python does not
    enforce: a cost is what a cost function returned, or a sum of such
    values from the [0] of the origin cell.  The cost functions are taken
    to return integers, as [lev_ins_function], [lev_del_function] and
    [lev_sub_function] do. *)
Abbreviation Cost := Z (only parsing).

(** [Coordinates(target_pos, source_pos)]: a named tuple, which hashes and
    compares as the plain pair. *)
Abbreviation Coordinates := (nat * nat)%type (only parsing).
Definition target_pos (c : Coordinates) : nat := fst c.
Definition source_pos (c : Coordinates) : nat := snd c.

Inductive Operation := START | INS | DEL | SUB.

#[export] Instance Operation_eq_dec : EqDecision Operation.
Proof. solve_decision. Defined.

Record Cell := mkCell {
  this_cost : Cost;
  cumulative_cost : Cost;
  operation : Operation }.

Abbreviation DistanceMatrix := (gmap (nat * nat) Cell) (only parsing).

(** The dict built once, when the class body of [PairAnalysis] is
    evaluated, as the default of its [matrix] field. *)
Definition default_matrix : DistanceMatrix :=
  {[ (0%nat, 0%nat) := mkCell 0 0 START ]}.

Section analysis.
Context {E Char : Type} `{EqDecision E}.
(** [str(element)] and [unicodedata.category(c).startswith('M')]. *)
Variable str : E → list Char.
Variable is_mark : Char → bool.

(** The fields of [PairAnalysis] other than [matrix].  [levenshtein]
    never passes a matrix, so the [matrix] field of every analysis is
    the one dict [default_matrix] was bound to; its current contents
    are the state threaded through the functions below. *)
Record PairAnalysis := mkPairAnalysis {
  source : list E;
  source_widest : nat;
  target : list E;
  target_widest : nat;
  ins_cost : E → Cost;
  del_cost : E → Cost;
  sub_cost : E → E → Cost }.

Record EditStep := mkEditStep {
  step_source : option E;
  step_target : option E;
  cell : Cell }.

Abbreviation Backtrace := (list EditStep) (only parsing).

Definition print_len (elements : E) : nat :=
  length (filter (λ c, is_mark c = false) (str elements)).

Definition greatest_width (elements : list E) : option nat :=
  py_max (print_len <$> elements).

Definition enumerate1 (seq : list E) : list (SeqPos * E) :=
  imap (λ zero_based anything, (S zero_based, anything)) seq.

(** The call sites pass at least one element; with both absent the
    source would hand [None] to the insertion cost function. *)
Definition make_edited_cell (analysis : PairAnalysis)
    (matrix : DistanceMatrix) (to_coords : Coordinates)
    (src_element targ_element : option E) : option Cell :=
  let opus := match src_element, targ_element with
              | None, _ => INS
              | Some _, None => DEL
              | Some _, Some _ => SUB
              end in
  let coords_before :=
    ((target_pos to_coords - (if targ_element is Some _ then 1 else 0))%nat,
     (source_pos to_coords - (if src_element is Some _ then 1 else 0))%nat) in
  cell_before ← matrix !! coords_before;
  let cumul_cost_before := cumulative_cost cell_before in
  new_cost ← match src_element, targ_element with
             | None, Some t => Some (ins_cost analysis t)
             | Some s, None => Some (del_cost analysis s)
             | Some s, Some t => Some (sub_cost analysis s t)
             | None, None => None
             end;
  Some (mkCell new_cost (cumul_cost_before + new_cost) opus).

Definition compute_min_edit_distance (analysis : PairAnalysis)
    (matrix : DistanceMatrix) : option DistanceMatrix :=
  (* Initialize margins of distance matrix: *)
  matrix ← for_each (enumerate1 (target analysis))
    (λ '(targ_pos, targ_element) matrix,
       let coords := (targ_pos, 0%nat) in
       c ← make_edited_cell analysis matrix coords None (Some targ_element);
       Some (<[coords := c]> matrix)) matrix;
  matrix ← for_each (enumerate1 (source analysis))
    (λ '(src_pos, src_element) matrix,
       let coords := (0%nat, src_pos) in
       c ← make_edited_cell analysis matrix coords (Some src_element) None;
       Some (<[coords := c]> matrix)) matrix;
  (* Compute body of distance matrix: *)
  for_each (enumerate1 (target analysis))
    (λ '(targ_pos, targ_element) matrix,
       for_each (enumerate1 (source analysis))
         (λ '(src_pos, src_element) matrix,
            let coords := (targ_pos, src_pos) in
            ins_cell ← make_edited_cell analysis matrix coords
                         None (Some targ_element);
            sub_cell ← make_edited_cell analysis matrix coords
                         (Some src_element) (Some targ_element);
            del_cell ← make_edited_cell analysis matrix coords
                         (Some src_element) None;
            min_cost ← py_min (cumulative_cost <$>
                                 [ins_cell; sub_cell; del_cell]);
            let cell :=
              if decide (min_cost = cumulative_cost sub_cell) then sub_cell
              else if decide (min_cost = cumulative_cost del_cell)
                   then del_cell
              else ins_cell in
            Some (<[coords := cell]> matrix)) matrix) matrix.

Definition lev_ins_function (targ_element : E) : Cost := 1.

Definition lev_del_function (src_element : E) : Cost := 1.

Definition lev_sub_function (src_element targ_element : E) : Cost :=
  if decide (src_element = targ_element) then 0 else 2.

(** Returns the analysis and the new contents of the shared matrix. *)
Definition levenshtein (source target : list E)
    (ins_costs : E → Cost) (del_costs : E → Cost)
    (sub_costs : E → E → Cost) (matrix : DistanceMatrix)
    : option (PairAnalysis * DistanceMatrix) :=
  source_widest ← greatest_width source;
  target_widest ← greatest_width target;
  let analysis := mkPairAnalysis source source_widest target target_widest
                    ins_costs del_costs sub_costs in
  matrix ← compute_min_edit_distance analysis matrix;
  Some (analysis, matrix).

Definition min_edit_distance (analysis : PairAnalysis)
    (matrix : DistanceMatrix) : option Cost :=
  let coords := (length (target analysis), length (source analysis)) in
  last_cell ← matrix !! coords;
  Some (cumulative_cost last_cell).

(** The [while] loop of [get_one_backtrace].  Each round lowers
    [src_pos + targ_pos], so [length source + length target] rounds of
    fuel are never used up.  A tag that would take a position below
    zero ends the model with [None]. *)
Fixpoint backtrace_loop (fuel : nat) (analysis : PairAnalysis)
    (matrix : DistanceMatrix) (src_pos targ_pos : SeqPos)
    (backtrace : Backtrace) : option Backtrace :=
  match src_pos, targ_pos with
  | O, O => Some backtrace
  | _, _ =>
    match fuel with
    | O => None
    | S fuel =>
      cell ← matrix !! (targ_pos, src_pos);
      match operation cell with
      | SUB =>
        match src_pos, targ_pos with
        | S src_pos, S targ_pos =>
          s ← source analysis !! src_pos;
          t ← target analysis !! targ_pos;
          backtrace_loop fuel analysis matrix src_pos targ_pos
            (mkEditStep (Some s) (Some t) cell :: backtrace)
        | _, _ => None
        end
      | INS =>
        match targ_pos with
        | S targ_pos =>
          t ← target analysis !! targ_pos;
          backtrace_loop fuel analysis matrix src_pos targ_pos
            (mkEditStep None (Some t) cell :: backtrace)
        | O => None
        end
      | _ => (* DEL *)
        match src_pos with
        | S src_pos =>
          s ← source analysis !! src_pos;
          backtrace_loop fuel analysis matrix src_pos targ_pos
            (mkEditStep (Some s) None cell :: backtrace)
        | O => None
        end
      end
    end
  end.

Definition get_one_backtrace (analysis : PairAnalysis)
    (matrix : DistanceMatrix) : option Backtrace :=
  let src_pos := length (source analysis) in
  let targ_pos := length (target analysis) in
  backtrace_loop (src_pos + targ_pos) analysis matrix src_pos targ_pos [].

(** The truth value of an element, the character of an ASCII character
    in a literal of the source, and [str(cost)]. *)
Variable truthy : E → bool.
Variable lit : ascii → Char.
Variable str_cost : Cost → list Char.

(** [element or ' '], as the text that is padded: [format(element, '<n')]
    is taken to pad [str(element)], as it does for strings and
    integers. *)
Definition or_space (element : option E) : list Char :=
  match element with
  | Some e => if truthy e then str e else [lit " "%char]
  | None => [lit " "%char]
  end.

(** The list [lines] of [vertical_alignment]; the dict of operators has
    no entry for [START]. *)
Definition vertical_alignment_lines (analysis : PairAnalysis)
    (backtrace : Backtrace) : option (list (list Char)) :=
  mapM (λ step,
          let source := ljust (lit " "%char) (source_widest analysis)
                          (or_space (step_source step)) in
          operator ←
            match operation (cell step) with
            | DEL => Some (lit ">"%char)
            | INS => Some (lit "<"%char)
            | SUB => Some (if decide (step_source step = step_target step)
                           then lit "="%char else lit "~"%char)
            | START => None
            end;
          let target := ljust (lit " "%char) (target_widest analysis)
                          (or_space (step_target step)) in
          Some (source ++ [lit " "%char] ++ [operator] ++ [lit " "%char]
                ++ target ++ [lit " "%char; lit " "%char]
                ++ str_cost (this_cost (cell step))))
       backtrace.

Definition vertical_alignment (analysis : PairAnalysis)
    (matrix : DistanceMatrix) : option (list Char) :=
  backtrace ← get_one_backtrace analysis matrix;
  lines ← vertical_alignment_lines analysis backtrace;
  Some (join [lit "010"%char] lines).

End analysis.
End chart.


(** ** xducer.py *)
Module xducer.

(** [Cost = float] in the source is an annotation: a cost is what a cost
    function returned, or a sum of such values.  The cost functions are
    taken to return integers, as the default ones do. *)
Abbreviation Cost := Z (only parsing).
Abbreviation SeqPos := nat (only parsing).

(** [Coordinates(source, target)]: zero-based starting positions. *)
Abbreviation Coordinates := (nat * nat)%type (only parsing).
Definition coord_source (c : Coordinates) : nat := fst c.
Definition coord_target (c : Coordinates) : nat := snd c.

Inductive Operation := SUB | DEL | INS.

#[export] Instance Operation_eq_dec : EqDecision Operation.
Proof. solve_decision. Defined.

Section enumerator.
Context {E Char : Type} `{EqDecision E}.
(** [str(element)] and the truth value of an element. *)
Variable str : E → list Char.
Variable truthy : E → bool.

Record Cell := mkCell {
  cell_source : option E;
  cell_target : option E;
  this_cost : Cost;
  cumul_cost : Cost }.

Abbreviation Parse := (list Cell) (only parsing).
Abbreviation Parses := (list (list Cell)) (only parsing).
Abbreviation Memory := (gmap (nat * nat) (list (list Cell))) (only parsing).

Definition lev_ins_function (target : E) : Cost := 1.

Definition lev_del_function (source : E) : Cost := 1.

Definition lev_sub_function (source target : E) : Cost :=
  if decide (source = target) then 0 else 2.

Record CostFunctions := mkCostFunctions {
  insert : E → Cost;
  delete : E → Cost;
  substitute : E → E → Cost }.

Definition default_costs : CostFunctions :=
  mkCostFunctions lev_ins_function lev_del_function lev_sub_function.

(** The fields of [Arguments] other than [memory]; the contents of the
    [memory] dict are threaded through [relate] as state. *)
Record Arguments := mkArguments {
  source : list E;
  target : list E;
  cost_functions : CostFunctions;
  just_one : bool }.

(** [arguments] builds the tuple around a new, empty dict. *)
Definition arguments (source target : list E) (costs : CostFunctions)
    (just_one : bool) : Arguments * Memory :=
  (mkArguments source target costs just_one, ∅).

Definition op_cost (args : Arguments) (pos : Coordinates)
    (opus : Operation) : option Cost :=
  match opus with
  | SUB =>
    s ← source args !! coord_source pos;
    t ← target args !! coord_target pos;
    Some (substitute (cost_functions args) s t)
  | DEL =>
    s ← source args !! coord_source pos;
    Some (delete (cost_functions args) s)
  | INS =>
    t ← target args !! coord_target pos;
    Some (insert (cost_functions args) t)
  end.

Definition parse_cost (pars : Parse) : option Cost :=
  c ← pars !! 0%nat; Some (cumul_cost c).

Definition try_op
    (relate : Memory → option Coordinates → option (Parses * Memory))
    (args : Arguments) (memory : Memory) (start_pos : Coordinates)
    (opus : Operation) : option (Parses * Memory) :=
  let consume_source := match opus with DEL | SUB => 1%nat | INS => 0%nat end in
  let consume_target := match opus with INS | SUB => 1%nat | DEL => 0%nat end in
  let tail_start := ((coord_source start_pos + consume_source)%nat,
                     (coord_target start_pos + consume_target)%nat) in
  '(tail, memory) ← relate memory (Some tail_start);
  cost ← op_cost args start_pos opus;
  src ← match consume_source with
        | O => Some None
        | _ => s ← source args !! coord_source start_pos; Some (Some s)
        end;
  tgt ← match consume_target with
        | O => Some None
        | _ => t ← target args !! coord_target start_pos; Some (Some t)
        end;
  let cell := mkCell src tgt cost cost in
  match tail with
  | [] => Some ([[cell]], memory)
  | _ =>
    parses ← mapM (λ p, c ← parse_cost p;
                        Some (mkCell (cell_source cell) (cell_target cell)
                                (this_cost cell) (this_cost cell + c) :: p))
                  tail;
    Some (parses, memory)
  end.

Definition remove_suboptimal_parses (parses : Parses) (just_one : bool)
    : option Parses :=
  costs ← mapM parse_cost parses;
  minimum ← py_min costs;
  let minimal_parses :=
    filter (λ parse, parse_cost parse = Some minimum) parses in
  if just_one then p ← minimal_parses !! 0%nat; Some [p]
  else Some minimal_parses.

Definition parse
    (relate : Memory → option Coordinates → option (Parses * Memory))
    (args : Arguments) (memory : Memory) (start_pos : Coordinates)
    : option (Parses * Memory) :=
  let remaining_source :=
    Z.of_nat (length (source args)) - Z.of_nat (coord_source start_pos) in
  let remaining_target :=
    Z.of_nat (length (target args)) - Z.of_nat (coord_target start_pos) in
  let parses : Parses := [] in
  if bool_decide (remaining_source = 0) && bool_decide (remaining_target = 0)
  then Some (parses, memory)
  else
    '(parses, memory) ←
      (if bool_decide (remaining_source ≠ 0) && bool_decide (remaining_target ≠ 0)
       then '(new, memory) ← try_op relate args memory start_pos SUB;
            Some (parses ++ new, memory)
       else Some (parses, memory));
    '(parses, memory) ←
      (if bool_decide (remaining_source ≠ 0)
       then '(new, memory) ← try_op relate args memory start_pos DEL;
            Some (parses ++ new, memory)
       else Some (parses, memory));
    '(parses, memory) ←
      (if bool_decide (remaining_target ≠ 0)
       then '(new, memory) ← try_op relate args memory start_pos INS;
            Some (parses ++ new, memory)
       else Some (parses, memory));
    parses ← match parses with
             | [] => Some parses
             | _ => remove_suboptimal_parses parses (just_one args)
             end;
    Some (parses, memory).

(** One unit of fuel per nested call of [relate]; the nesting depth is
    at most the number of elements still to be consumed, plus one. *)
Fixpoint relate (fuel : nat) (args : Arguments) (memory : Memory)
    (start : option Coordinates) : option (Parses * Memory) :=
  match fuel with
  | O => None
  | S fuel =>
    let start := default (0%nat, 0%nat) start in
    match memory !! start with
    | Some parses => Some (parses, memory)
    | None =>
      '(parses, memory) ← parse (relate fuel args) args memory start;
      Some (parses, <[start := parses]> memory)
    end
  end.

(** [getattr(cell, element_name)], for the two names the source expects. *)
Inductive element_name := source_name | target_name.

Definition getattr (cell : Cell) (name : element_name) : option E :=
  match name with
  | source_name => cell_source cell
  | target_name => cell_target cell
  end.

Definition element_length (cell : Cell) (name : element_name) : nat :=
  match getattr cell name with
  | Some e => if truthy e then length (str e) else 0%nat
  | None => 0%nat
  end.

Definition biggest_length_in_parse (pars : Parse) (name : element_name)
    : option nat :=
  py_max ((λ cell, element_length cell name) <$> pars).

(** The character of an ASCII character in a literal of the source, and
    [str(cost)]. *)
Variable lit : ascii → Char.
Variable str_cost : Cost → list Char.

(** [element or ' '], as the text that is padded: [format(element, '<n')]
    is taken to pad [str(element)], as it does for strings and
    integers. *)
Definition or_space (element : option E) : list Char :=
  match element with
  | Some e => if truthy e then str e else [lit " "%char]
  | None => [lit " "%char]
  end.

Definition format_cell (cell : Cell) (source_widest target_widest : nat)
    : list Char :=
  let source := ljust (lit " "%char) source_widest
                  (or_space (cell_source cell)) in
  let operator :=
    match cell_target cell, cell_source cell with
    | None, _ => lit ">"%char
    | Some _, None => lit "<"%char
    | Some _, Some _ =>
      if decide (cell_source cell = cell_target cell)
      then lit "="%char else lit "~"%char
    end in
  let target := ljust (lit " "%char) target_widest
                  (or_space (cell_target cell)) in
  source ++ [lit " "%char] ++ [operator] ++ [lit " "%char] ++ target
  ++ [lit " "%char; lit " "%char] ++ str_cost (this_cost cell).

Definition vertical_align (pars : Parse) : option (list Char) :=
  source_widest ← biggest_length_in_parse pars source_name;
  target_widest ← biggest_length_in_parse pars target_name;
  let lines := (λ cell, format_cell cell source_widest target_widest)
                 <$> pars in
  Some (join [lit "010"%char] lines).

End enumerator.
End xducer.

(** ** xducer.py: an exception told from recursion without end

    In [xducer.relate] the result [None] stands for an exception and for
    calls nested deeper than the fuel alike.  These are [try_op], [parse]
    and [relate] again, statement for statement, with a result that tells
    the two apart.  The functions that call none of the three are those
    of [xducer]. *)
Module xducer_calls.

Inductive outcome (A : Type) : Type :=
| Returns (a : A)
| Raises
| Recurses.

Arguments Returns {A} a.
Arguments Raises {A}.
Arguments Recurses {A}.

(** The next statement runs when the one before it has returned. *)
#[global] Instance outcome_bind : MBind outcome :=
  λ A B f m,
    match m with
    | Returns a => f a
    | Raises => Raises
    | Recurses => Recurses
    end.

(** Statements that make no call of [relate]: [None] is an exception. *)
Definition of_option {A : Type} (o : option A) : outcome A :=
  match o with
  | Some a => Returns a
  | None => Raises
  end.

(** What the caller gets back, if anything. *)
Definition returned {A : Type} (m : outcome A) : option A :=
  match m with
  | Returns a => Some a
  | Raises | Recurses => None
  end.

Section enumerator.
Context {E : Type} `{EqDecision E}.

Abbreviation Parses := (list (list (@xducer.Cell E))) (only parsing).
Abbreviation Memory :=
  (gmap (nat * nat) (list (list (@xducer.Cell E)))) (only parsing).

Definition try_op
    (relate : Memory → option (nat * nat) → outcome (Parses * Memory))
    (args : @xducer.Arguments E) (memory : Memory) (start_pos : nat * nat)
    (opus : xducer.Operation) : outcome (Parses * Memory) :=
  let consume_source :=
    match opus with xducer.DEL | xducer.SUB => 1%nat | xducer.INS => 0%nat end in
  let consume_target :=
    match opus with xducer.INS | xducer.SUB => 1%nat | xducer.DEL => 0%nat end in
  let tail_start := ((xducer.coord_source start_pos + consume_source)%nat,
                     (xducer.coord_target start_pos + consume_target)%nat) in
  '(tail, memory) ← relate memory (Some tail_start);
  of_option
    (cost ← xducer.op_cost args start_pos opus;
     src ← match consume_source with
           | O => Some None
           | _ => s ← xducer.source args !! xducer.coord_source start_pos;
                  Some (Some s)
           end;
     tgt ← match consume_target with
           | O => Some None
           | _ => t ← xducer.target args !! xducer.coord_target start_pos;
                  Some (Some t)
           end;
     let cell := xducer.mkCell src tgt cost cost in
     match tail with
     | [] => Some ([[cell]], memory)
     | _ =>
       parses ← mapM (λ p, c ← xducer.parse_cost p;
                           Some (xducer.mkCell (xducer.cell_source cell)
                                   (xducer.cell_target cell)
                                   (xducer.this_cost cell)
                                   (xducer.this_cost cell + c) :: p))
                     tail;
       Some (parses, memory)
     end).

Definition parse
    (relate : Memory → option (nat * nat) → outcome (Parses * Memory))
    (args : @xducer.Arguments E) (memory : Memory) (start_pos : nat * nat)
    : outcome (Parses * Memory) :=
  let remaining_source :=
    Z.of_nat (length (xducer.source args))
    - Z.of_nat (xducer.coord_source start_pos) in
  let remaining_target :=
    Z.of_nat (length (xducer.target args))
    - Z.of_nat (xducer.coord_target start_pos) in
  let parses : Parses := [] in
  if bool_decide (remaining_source = 0) && bool_decide (remaining_target = 0)
  then Returns (parses, memory)
  else
    '(parses, memory) ←
      (if bool_decide (remaining_source ≠ 0) && bool_decide (remaining_target ≠ 0)
       then '(new, memory) ← try_op relate args memory start_pos xducer.SUB;
            Returns (parses ++ new, memory)
       else Returns (parses, memory));
    '(parses, memory) ←
      (if bool_decide (remaining_source ≠ 0)
       then '(new, memory) ← try_op relate args memory start_pos xducer.DEL;
            Returns (parses ++ new, memory)
       else Returns (parses, memory));
    '(parses, memory) ←
      (if bool_decide (remaining_target ≠ 0)
       then '(new, memory) ← try_op relate args memory start_pos xducer.INS;
            Returns (parses ++ new, memory)
       else Returns (parses, memory));
    parses ← of_option
               match parses with
               | [] => Some parses
               | _ => xducer.remove_suboptimal_parses parses
                        (xducer.just_one args)
               end;
    Returns (parses, memory).

(** One unit of fuel per nested call of [relate], as in [xducer.relate];
    [Recurses] when the calls are nested deeper. *)
Fixpoint relate (fuel : nat) (args : @xducer.Arguments E) (memory : Memory)
    (start : option (nat * nat)) : outcome (Parses * Memory) :=
  match fuel with
  | O => Recurses
  | S fuel =>
    let start := default (0%nat, 0%nat) start in
    match memory !! start with
    | Some parses => Returns (parses, memory)
    | None =>
      '(parses, memory) ← parse (relate fuel args) args memory start;
      Returns (parses, <[start := parses]> memory)
    end
  end.

End enumerator.
End xducer_calls.

(** ** levenshtein.py *)
Module levenshtein.

(** The module constants ['start'], ['i'], ['d'], ['s']. *)
Inductive tag := START | INSERT | DELETE | SUBSTITUTE.

#[export] Instance tag_eq_dec : EqDecision tag.
Proof. solve_decision. Defined.

Abbreviation Coordinates := (nat * nat)%type (only parsing).

(** [num] is a float in the source, a sum from the [0.0] of the origin
    cell: the integer it holds, for costs within [float_exact]. *)
Record Cell := mkCell {
  num : Z;
  operation : tag }.

Section engine.
Context {E Char : Type} `{EqDecision E}.
(** [str(element)] and [unicodedata.category(c).startswith('M')]. *)
Variable str : E → list Char.
Variable is_mark : Char → bool.
(** The methods [ins_cost], [del_cost] and [sub_cost] of the class of
    the engine object: those of [Levenshtein] or of a subclass. *)
Variable ins_cost : E → Z.
Variable del_cost : E → Z.
Variable sub_cost : E → E → Z.

Record AlignmentUnit := mkAlignmentUnit {
  unit1 : option E;
  unit2 : option E;
  cost : Z }.

Abbreviation AlignmentUnits := (list AlignmentUnit) (only parsing).

Definition print_len (text : E) : nat :=
  foldl (λ width character,
           if is_mark character then width else (width + 1)%nat)
        0%nat (str text).

Definition greatest_width (elements : list E) : nat :=
  foldl (λ widest element, Nat.max widest (print_len element))
        0%nat elements.

(** The instance attributes of a [Levenshtein] object. *)
Record Levenshtein := mkLevenshtein {
  sequence1 : list E;
  sequence2 : list E;
  distance : option (gmap (nat * nat) Cell);
  widest_sequence1_char : option nat;
  widest_sequence2_char : option nat }.

Definition __init__ : Levenshtein := mkLevenshtein [] [] None None None.

Definition min_edit_distance (self : Levenshtein) : option Z :=
  distance ← distance self;
  c ← distance !! (length (sequence2 self), length (sequence1 self));
  Some (num c).

Definition _compute_min_edit_distance (self : Levenshtein)
    : option (Z * Levenshtein) :=
  let sequence2 := sequence2 self in
  let sequence1 := sequence1 self in
  (* Initialize margins of distance matrix: [{(0, 0): Cell(0.0, START)}] *)
  let distance : gmap (nat * nat) Cell :=
    {[ (0%nat, 0%nat) := mkCell 0 START ]} in
  distance ← for_each (imap pair sequence2)
    (λ '(targ_pos, targ_element) distance,
       let i := (targ_pos + 1)%nat in
       before ← distance !! (targ_pos, 0%nat);
       Some (<[(i, 0%nat) :=
                 mkCell (num before + ins_cost targ_element) INSERT]>
               distance)) distance;
  distance ← for_each (imap pair sequence1)
    (λ '(src_pos, src_element) distance,
       let j := (src_pos + 1)%nat in
       before ← distance !! (0%nat, src_pos);
       Some (<[(0%nat, j) :=
                 mkCell (num before + del_cost src_element) DELETE]>
               distance)) distance;
  (* Compute body of distance matrix: *)
  distance ← for_each (imap pair sequence2)
    (λ '(targ_pos, targ_element) distance,
       let i := (targ_pos + 1)%nat in
       for_each (imap pair sequence1)
         (λ '(src_pos, src_element) distance,
            let j := (src_pos + 1)%nat in
            above ← distance !! (targ_pos, j);
            let ins_cost := num above + ins_cost targ_element in
            diagonal ← distance !! (targ_pos, src_pos);
            let sub_cost :=
              num diagonal + sub_cost src_element targ_element in
            left ← distance !! (i, src_pos);
            let del_cost := num left + del_cost src_element in
            min_cost ← py_min [ins_cost; sub_cost; del_cost];
            Some (<[(i, j) :=
                      mkCell min_cost
                        (if decide (min_cost = sub_cost) then SUBSTITUTE
                         else if decide (min_cost = del_cost) then DELETE
                         else INSERT)]> distance)) distance) distance;
  let self := mkLevenshtein sequence1 sequence2 (Some distance)
                (widest_sequence1_char self) (widest_sequence2_char self) in
  d ← min_edit_distance self;
  Some (d, self).

Definition set_pair (self : Levenshtein) (sequence1 sequence2 : list E)
    : option (Z * Levenshtein) :=
  let self := mkLevenshtein sequence1 sequence2 (distance self)
                (Some (greatest_width sequence1))
                (Some (greatest_width sequence2)) in
  _compute_min_edit_distance self.

(** The [while] loop of [alignment_facts]; fuel as in
    [chart.backtrace_loop].  [distance] is the attribute as the method
    read it, [None] on an engine that was given no pair: subscripting it
    raises [TypeError], in a round of the loop and not before. *)
Fixpoint alignment_loop (fuel : nat) (self : Levenshtein)
    (distance : option (gmap (nat * nat) Cell)) (position1 position2 : nat)
    (backtrace : AlignmentUnits) : option AlignmentUnits :=
  match position1, position2 with
  | O, O => Some backtrace
  | _, _ =>
    match fuel with
    | O => None
    | S fuel =>
      cells ← distance;
      cell ← cells !! (position2, position1);
      let provenance := operation cell in
      let cost := num cell in
      match provenance with
      | SUBSTITUTE =>
        match position1, position2 with
        | S position1, S position2 =>
          s_char ← sequence1 self !! position1;
          t_char ← sequence2 self !! position2;
          alignment_loop fuel self distance position1 position2
            (mkAlignmentUnit (Some s_char) (Some t_char) cost :: backtrace)
        | _, _ => None
        end
      | INSERT =>
        match position2 with
        | S position2 =>
          t_char ← sequence2 self !! position2;
          alignment_loop fuel self distance position1 position2
            (mkAlignmentUnit None (Some t_char) cost :: backtrace)
        | O => None
        end
      | _ => (* provenance == DELETE *)
        match position1 with
        | S position1 =>
          s_char ← sequence1 self !! position1;
          alignment_loop fuel self distance position1 position2
            (mkAlignmentUnit (Some s_char) None cost :: backtrace)
        | O => None
        end
      end
    end
  end.

Definition alignment_facts (self : Levenshtein) : option AlignmentUnits :=
  let distance := distance self in
  let position1 := length (sequence1 self) in
  let position2 := length (sequence2 self) in
  alignment_loop (position1 + position2) self distance
    position1 position2 [].

(** The costs [alignment] prints: the differences of successive
    cumulative costs, starting from [0.0]. *)
Fixpoint printed_costs (prev_cost : Z) (backtrace : AlignmentUnits)
    : list Z :=
  match backtrace with
  | [] => []
  | u :: backtrace => (cost u - prev_cost) :: printed_costs (cost u) backtrace
  end.

(** The truth value of an element, the character of an ASCII character
    in a literal of the source, and [str(cost)] of a cost without a
    fractional part. *)
Variable truthy : E → bool.
Variable lit : ascii → Char.
Variable str_cost : Z → list Char.

(** [str(unit or ' ')], which ['%s'] prints. *)
Definition or_space (unit : option E) : list Char :=
  match unit with
  | Some e => if truthy e then str e else [lit " "%char]
  | None => [lit " "%char]
  end.

(** The loop of [alignment], which fills [lines]; the format is
    ['%<widest1>s %s %<widest2>s  %s']. *)
Fixpoint alignment_lines (widest1 widest2 : nat) (prev_cost : Z)
    (backtrace : AlignmentUnits) : list (list Char) :=
  match backtrace with
  | [] => []
  | u :: backtrace =>
    let cum_cost := cost u in
    let print_cost := str_cost (cum_cost - prev_cost) in
    (rjust (lit " "%char) widest1 (or_space (unit1 u)) ++ [lit " "%char]
     ++ [match unit2 u, unit1 u with
         | None, _ => lit ">"%char
         | Some _, None => lit "<"%char
         | Some _, Some _ =>
           if decide (unit1 u = unit2 u) then lit "="%char else lit "~"%char
         end]
     ++ [lit " "%char] ++ rjust (lit " "%char) widest2 (or_space (unit2 u))
     ++ [lit " "%char; lit " "%char] ++ print_cost)
    :: alignment_lines widest1 widest2 cum_cost backtrace
  end.

Definition alignment (self : Levenshtein) : option (list Char) :=
  backtrace ← alignment_facts self;
  widest1 ← widest_sequence1_char self;
  widest2 ← widest_sequence2_char self;
  Some (join [lit "010"%char] (alignment_lines widest1 widest2 0 backtrace)).

End engine.

Definition default_ins_cost {E : Type} (element2 : E) : Z := 1.
Definition default_del_cost {E : Type} (element1 : E) : Z := 1.
Definition default_sub_cost {E : Type} `{EqDecision E}
    (element1 element2 : E) : Z :=
  if decide (element1 = element2) then 0 else 2.

End levenshtein.

(** * Specification-level definitions *)

(** The sum of a list of costs. *)
Definition total (l : list Z) : Z := foldr Z.add 0 l.

(** ** The optimal cost of editing one list into another

    [opt_cost s t] follows the recurrence on the first elements of the two
    lists; [align s t c] says that some sequence of edit operations turns
    [s] into [t] at total cost [c]. *)
Section optimal_cost.
Context {E : Type}.
Variable ins del : E → Z.
Variable sub : E → E → Z.

Fixpoint ins_all (t : list E) : Z :=
  match t with
  | [] => 0
  | b :: t' => ins_all t' + ins b
  end.

Fixpoint opt_cost (s : list E) : list E → Z :=
  match s with
  | [] => ins_all
  | a :: s' =>
    fix against (t : list E) : Z :=
      match t with
      | [] => opt_cost s' [] + del a
      | b :: t' =>
        Z.min (Z.min (against t' + ins b) (opt_cost s' t' + sub a b))
              (opt_cost s' t + del a)
      end
  end.

Inductive align : list E → list E → Z → Prop :=
| align_nil : align [] [] 0
| align_sub a b s t c : align s t c → align (a :: s) (b :: t) (c + sub a b)
| align_del a s t c : align s t c → align (a :: s) t (c + del a)
| align_ins b s t c : align s t c → align s (b :: t) (c + ins b).

End optimal_cost.

(** ** The cells the tabular engine is expected to compute *)
Section expected_cells.
Context {E : Type}.
Variable s t : list E.
Variable ins del : E → Z.
Variable sub : E → E → Z.

(** The optimal cost of editing the first [j] source elements into the
    first [i] target elements, by the recurrence on last elements. *)
Definition prefix_cost (i j : nat) : Z :=
  opt_cost ins del sub (reverse (take j s)) (reverse (take i t)).

Definition expected_cell (i j : nat) : chart.Cell :=
  match i, j with
  | O, O => chart.mkCell 0 0 chart.START
  | S i', O =>
    match t !! i' with
    | Some b => chart.mkCell (ins b) (prefix_cost i' 0 + ins b) chart.INS
    | None => chart.mkCell 0 0 chart.START
    end
  | O, S j' =>
    match s !! j' with
    | Some a => chart.mkCell (del a) (prefix_cost 0 j' + del a) chart.DEL
    | None => chart.mkCell 0 0 chart.START
    end
  | S i', S j' =>
    match s !! j', t !! i' with
    | Some a, Some b =>
      let ins_cum := prefix_cost i' j + ins b in
      let sub_cum := prefix_cost i' j' + sub a b in
      let del_cum := prefix_cost i j' + del a in
      let min_cost := Z.min (Z.min ins_cum sub_cum) del_cum in
      if decide (min_cost = sub_cum) then chart.mkCell (sub a b) sub_cum chart.SUB
      else if decide (min_cost = del_cum) then chart.mkCell (del a) del_cum chart.DEL
      else chart.mkCell (ins b) ins_cum chart.INS
    | _, _ => chart.mkCell 0 0 chart.START
    end
  end.

End expected_cells.

(** ** The paths the enumerator is expected to return

    [paths] follows [xducer.parse] by recursion on what is left of the two
    sequences, without the memo. *)
Section expected_paths.
Context {E : Type}.
Variable costs : @xducer.CostFunctions E.

(** Put [cell] in front of every parse of [tail], as [try_op] does. *)
Definition prepend (cell : @xducer.Cell E)
    (tail : list (list (@xducer.Cell E)))
    : option (list (list (@xducer.Cell E))) :=
  match tail with
  | [] => Some [[cell]]
  | _ =>
    mapM (λ p, c ← xducer.parse_cost p;
               Some (xducer.mkCell (xducer.cell_source cell)
                       (xducer.cell_target cell) (xducer.this_cost cell)
                       (xducer.this_cost cell + c) :: p))
         tail
  end.

Definition keep_optimal (just_one : bool)
    (parses : list (list (@xducer.Cell E)))
    : option (list (list (@xducer.Cell E))) :=
  match parses with
  | [] => Some parses
  | _ => xducer.remove_suboptimal_parses parses just_one
  end.

Definition sub_cell (a b : E) : @xducer.Cell E :=
  xducer.mkCell (Some a) (Some b)
    (xducer.substitute costs a b) (xducer.substitute costs a b).
Definition del_cell (a : E) : @xducer.Cell E :=
  xducer.mkCell (Some a) None (xducer.delete costs a) (xducer.delete costs a).
Definition ins_cell (b : E) : @xducer.Cell E :=
  xducer.mkCell None (Some b) (xducer.insert costs b) (xducer.insert costs b).

Fixpoint paths (just_one : bool) (s : list E)
    : list E → option (list (list (@xducer.Cell E))) :=
  match s with
  | [] =>
    fix only_insert (t : list E) :=
      match t with
      | [] => Some []
      | b :: t' =>
        tail ← only_insert t';
        new_ins ← prepend (ins_cell b) tail;
        keep_optimal just_one new_ins
      end
  | a :: s' =>
    fix against (t : list E) :=
      match t with
      | [] =>
        tail ← paths just_one s' [];
        new_del ← prepend (del_cell a) tail;
        keep_optimal just_one new_del
      | b :: t' =>
        tail ← paths just_one s' t';
        new_sub ← prepend (sub_cell a b) tail;
        tail ← paths just_one s' t;
        new_del ← prepend (del_cell a) tail;
        tail ← against t';
        new_ins ← prepend (ins_cell b) tail;
        keep_optimal just_one ((new_sub ++ new_del) ++ new_ins)
      end
  end.

End expected_paths.

(** ** What makes a parse a complete, correctly costed path *)
Section path_properties.
Context {E : Type}.
Variable costs : @xducer.CostFunctions E.

(** The sum of the incremental costs of the steps. *)
Definition path_cost (p : list (@xducer.Cell E)) : Z :=
  total (xducer.this_cost <$> p).

(** Every step carries, as its cumulative cost, the cost of the path
    from that step to the end. *)
Fixpoint suffix_cumulative (p : list (@xducer.Cell E)) : Prop :=
  match p with
  | [] => True
  | c :: p' => xducer.cumul_cost c = path_cost p ∧ suffix_cumulative p'
  end.

(** A step is an insertion, a deletion or a substitution, at the cost the
    cost model gives it. *)
Definition step_ok (c : @xducer.Cell E) : Prop :=
  match xducer.cell_source c, xducer.cell_target c with
  | Some a, Some b => xducer.this_cost c = xducer.substitute costs a b
  | Some a, None => xducer.this_cost c = xducer.delete costs a
  | None, Some b => xducer.this_cost c = xducer.insert costs b
  | None, None => False
  end.

Record path_of (cost : Z) (s t : list E) (p : list (@xducer.Cell E))
    : Prop := {
  path_sources : omap xducer.cell_source p = s;
  path_targets : omap xducer.cell_target p = t;
  path_total : path_cost p = cost;
  path_cumulative : suffix_cumulative p;
  path_steps : Forall step_ok p }.

(** The result of the enumerator read as a set of suffix paths: at the
    end of both sequences, where [parse] returns no parse, the one
    suffix is the empty one. *)
Definition suffixes (ps : list (list (@xducer.Cell E)))
    : list (list (@xducer.Cell E)) :=
  match ps with
  | [] => [[]]
  | _ => ps
  end.

(** The path that takes, at every coordinate, the first optimal branch
    in the order substitute, delete, insert. *)
Fixpoint canonical (s : list E) : list E → list (@xducer.Cell E) :=
  match s with
  | [] =>
    fix only_insert (t : list E) :=
      match t with
      | [] => []
      | b :: t' =>
        xducer.mkCell None (Some b) (xducer.insert costs b)
          (xducer.insert costs b + path_cost (only_insert t'))
        :: only_insert t'
      end
  | a :: s' =>
    fix against (t : list E) :=
      match t with
      | [] =>
        xducer.mkCell (Some a) None (xducer.delete costs a)
          (xducer.delete costs a + path_cost (canonical s' []))
        :: canonical s' []
      | b :: t' =>
        let by_sub := xducer.substitute costs a b + path_cost (canonical s' t') in
        let by_del := xducer.delete costs a + path_cost (canonical s' t) in
        let by_ins := xducer.insert costs b + path_cost (against t') in
        let minimum := Z.min (Z.min by_sub by_del) by_ins in
        if decide (by_sub = minimum)
        then xducer.mkCell (Some a) (Some b) (xducer.substitute costs a b) by_sub
             :: canonical s' t'
        else if decide (by_del = minimum)
        then xducer.mkCell (Some a) None (xducer.delete costs a) by_del
             :: canonical s' t
        else xducer.mkCell None (Some b) (xducer.insert costs b) by_ins
             :: against t'
      end
  end.

End path_properties.

(** ** What the tabular engine is expected to leave in the matrix *)

Abbreviation src analysis := (chart.source analysis).
Abbreviation tgt analysis := (chart.target analysis).
Abbreviation cell_at analysis :=
  (expected_cell (chart.source analysis) (chart.target analysis)
     (chart.ins_cost analysis) (chart.del_cost analysis)
     (chart.sub_cost analysis)).
Abbreviation cost_at analysis :=
  (prefix_cost (chart.source analysis) (chart.target analysis)
     (chart.ins_cost analysis) (chart.del_cost analysis)
     (chart.sub_cost analysis)).

(** The matrix holds the expected cell at every coordinate in [K]. *)
Definition known {E : Type} (analysis : @chart.PairAnalysis E)
    (matrix : gmap (nat * nat) chart.Cell)
    (K : nat → nat → Prop) : Prop :=
  ∀ i j, K i j → matrix !! (i, j) = Some (cell_at analysis i j).

(** The shared matrix holds the origin cell, as it does from the start. *)
Definition origin_cell (matrix : gmap (nat * nat) chart.Cell) : Prop :=
  matrix !! (0%nat, 0%nat) = Some (chart.mkCell 0 0 chart.START).

(** What the loop adds in front of the steps it was entered with. *)
Record traced {E : Type} (analysis : @chart.PairAnalysis E) (i j : nat)
    (steps : list (@chart.EditStep E)) : Prop := {
  traced_sources :
    omap chart.step_source steps = take j (chart.source analysis);
  traced_targets :
    omap chart.step_target steps = take i (chart.target analysis);
  traced_total :
    total ((λ st, chart.this_cost (chart.cell st)) <$> steps)
    = cost_at analysis i j;
  traced_last :
    ∀ st, last steps = Some st → chart.cell st = cell_at analysis i j;
  traced_nonempty :
    steps = [] → i = 0%nat ∧ j = 0%nat }.


(** A step that substitutes an element for itself, at no cost. *)
Definition keeps_element {E : Type} (st : @chart.EditStep E) : Prop :=
  chart.operation (chart.cell st) = chart.SUB ∧
  chart.this_cost (chart.cell st) = 0 ∧
  ∃ e, chart.step_source st = Some e ∧ chart.step_target st = Some e.

(** ** What the enumerator is expected to leave in the memo *)

(** Every entry of the memo is the expected result at its coordinates. *)
Definition memo_ok {E : Type} (args : @xducer.Arguments E)
    (memory : gmap (nat * nat) (list (list (@xducer.Cell E)))) : Prop :=
  ∀ i j ps,
    memory !! (i, j) = Some ps →
    paths (xducer.cost_functions args) (xducer.just_one args)
      (drop i (xducer.source args)) (drop j (xducer.target args)) = Some ps.

(** The cell [try_op] puts in front of a suffix of cost [d]. *)
Definition with_suffix {E : Type} (cell : @xducer.Cell E) (d : Z)
    : @xducer.Cell E :=
  xducer.mkCell (xducer.cell_source cell) (xducer.cell_target cell)
    (xducer.this_cost cell) (xducer.this_cost cell + d).

(** What [relate] is expected to return for the pair of suffixes [s] and
    [t]. *)
Record result_for {E : Type} (costs : @xducer.CostFunctions E)
    (s t : list E) (ps : list (list (@xducer.Cell E))) : Prop := {
  result_empty : ps = [] ↔ s = [] ∧ t = [];
  result_nonempty : ∀ p, p ∈ ps → p ≠ [];
  result_paths :
    ∀ p, p ∈ suffixes ps →
      path_of costs
        (opt_cost (xducer.insert costs) (xducer.delete costs)
           (xducer.substitute costs) s t) s t p }.

(** ** The cells and units of [levenshtein.py] in terms of [chart.py] *)

Definition tag_of (o : chart.Operation) : levenshtein.tag :=
  match o with
  | chart.START => levenshtein.START
  | chart.INS => levenshtein.INSERT
  | chart.DEL => levenshtein.DELETE
  | chart.SUB => levenshtein.SUBSTITUTE
  end.

Definition lev_cell (c : chart.Cell) : levenshtein.Cell :=
  levenshtein.mkCell (chart.cumulative_cost c) (tag_of (chart.operation c)).

Definition unit_of {E : Type} (st : @chart.EditStep E)
    : @levenshtein.AlignmentUnit E :=
  levenshtein.mkAlignmentUnit (chart.step_source st) (chart.step_target st)
    (chart.cumulative_cost (chart.cell st)).

(** The dict of the engine object is the projection of the matrix. *)
Definition projects (matrix : gmap (nat * nat) chart.Cell)
    (distance : gmap (nat * nat) levenshtein.Cell) : Prop :=
  distance = lev_cell <$> matrix.

(** ** The two engines as a caller uses them *)

(** [relate(arguments(source, target, costs, just_one))]. *)
Definition relate_arguments {E : Type} (fuel : nat)
    (source target : list E) (costs : @xducer.CostFunctions E)
    (just_one : bool) : option (list (list (@xducer.Cell E))) :=
  let '(args, memory) := xducer.arguments source target costs just_one in
  '(parses, _) ← xducer.relate fuel args memory None;
  Some parses.

(** [min_edit_distance(levenshtein(source, target, ...))], run on the current
    contents of the shared matrix. *)
Definition tabular_distance {E Char : Type} (str : E → list Char)
    (is_mark : Char → bool) (source target : list E)
    (costs : @xducer.CostFunctions E) (matrix : gmap (nat * nat) chart.Cell)
    : option Z :=
  '(analysis, matrix) ← chart.levenshtein str is_mark source target
                          (xducer.insert costs) (xducer.delete costs)
                          (xducer.substitute costs) matrix;
  chart.min_edit_distance analysis matrix.

(** ** Inputs for the examples: one-character strings over ASCII *)

(** [str(c)] of a one-character string. *)
Definition char_str (c : ascii) : list ascii := [c].

(** Modelled from the Unicode character database, which is not part of the
    repository: no ASCII character is of a Mark category. *)
Definition ascii_is_mark (c : ascii) : bool := false.

(** ** Inputs for the examples: strings of Unicode code points *)

(** [str(e)] of a string is the string. *)
Definition unicode_str (e : list N) : list N := e.

(** A string is true when it is not empty. *)
Definition unicode_truthy (e : list N) : bool := bool_decide (e ≠ []).

(** Modelled from the Unicode character database, which is not part of the
    repository: the code points U+0300 to U+036F (Combining Diacritical
    Marks) are of category Mn, and the letters used below are not marks. *)
Definition combining_mark (c : N) : bool := ((768 <=? c) && (c <=? 879))%N.

(** "é" as the letter e followed by U+0301, "é" as the single code point
    U+00E9, and "a". *)
Definition e_acute_decomposed : list N := [101; 769]%N.
Definition e_acute_precomposed : list N := [233]%N.
Definition letter_a : list N := [97]%N.

(** ** Inputs for the examples: [str] of an integer cost *)

Fixpoint nat_digits (fuel n : nat) (acc : list ascii) : list ascii :=
  match fuel with
  | O => acc
  | S fuel =>
    let acc := ascii_of_nat (48 + n `mod` 10) :: acc in
    if (n `div` 10 =? 0)%nat then acc else nat_digits fuel (n `div` 10) acc
  end.

Definition int_str (z : Z) : list ascii :=
  (if (z <? 0) then ["-"%char] else [])
  ++ nat_digits (S (Z.abs_nat z)) (Z.abs_nat z) [].

(** ** The claims that fail as they are stated *)

(** C4 as stated, for one path of the enumerator: the cumulative cost of the
    last step is the sum of the incremental costs of all steps. *)
Definition last_step_carries_total {E : Type} (p : list (@xducer.Cell E))
    : Prop :=
  ∀ c, last p = Some c → xducer.cumul_cost c = path_cost p.


(** ** Steps of a backtrace *)

(** A step aligns at least one element; its cell carries the tag of the
    operation and, as incremental cost, the cost of the operation on the
    elements of the step. *)
Definition costed_step {E : Type} (ins del : E → Z) (sub : E → E → Z)
    (st : @chart.EditStep E) : Prop :=
  match chart.step_source st, chart.step_target st with
  | Some a, Some b =>
    chart.operation (chart.cell st) = chart.SUB ∧
    chart.this_cost (chart.cell st) = sub a b
  | Some a, None =>
    chart.operation (chart.cell st) = chart.DEL ∧
    chart.this_cost (chart.cell st) = del a
  | None, Some b =>
    chart.operation (chart.cell st) = chart.INS ∧
    chart.this_cost (chart.cell st) = ins b
  | None, None => False
  end.

(** Every step carries, as its cumulative cost, the cumulative cost of
    the step before it, or [before] for the first step, plus its own
    incremental cost. *)
Fixpoint running_costs {E : Type} (before : Z)
    (steps : list (@chart.EditStep E)) : Prop :=
  match steps with
  | [] => True
  | st :: steps =>
    chart.cumulative_cost (chart.cell st)
    = before + chart.this_cost (chart.cell st) ∧
    running_costs (chart.cumulative_cost (chart.cell st)) steps
  end.

(** The cost the cost model gives the operation of an alignment unit of
    [levenshtein.py], which holds the two elements and a cumulative cost
    only. *)
Definition unit_op_cost {E : Type} (ins del : E → Z) (sub : E → E → Z)
    (u : @levenshtein.AlignmentUnit E) : option Z :=
  match levenshtein.unit1 u, levenshtein.unit2 u with
  | Some a, Some b => Some (sub a b)
  | Some a, None => Some (del a)
  | None, Some b => Some (ins b)
  | None, None => None
  end.

(** ** Costs that [levenshtein.py] adds without rounding

    [chart.py] and [xducer.py] start from the integer [0] and add what
    the cost functions return, so that on integer costs they compute with
    Python's integers, which are exact.  [levenshtein.py] starts its matrix
    from the float [0.0]: every cell holds a binary64 float, the integer
    costs are converted as they are added, and a sum is the integer that
    [Z] gives it as long as the magnitudes stay within 2^53.  Every cell
    is a sum of costs along a path of at most [length s + length t]
    steps, so it suffices that this many times the greatest magnitude of
    a cost on the elements of the two sequences is within 2^53. *)
Definition greatest_cost {E : Type} (ins del : E → Z) (sub : E → E → Z)
    (s t : list E) : Z :=
  foldr Z.max 0
    (((λ b, Z.abs (ins b)) <$> t) ++ ((λ a, Z.abs (del a)) <$> s)
     ++ (s ≫= λ a, (λ b, Z.abs (sub a b)) <$> t)).

Definition float_exact {E : Type} (ins del : E → Z) (sub : E → E → Z)
    (s t : list E) : Prop :=
  Z.of_nat (length s + length t) * greatest_cost ins del sub s t ≤ 2 ^ 53.

(** ** The shared matrix across a call *)

(** The cells of [m] outside the rectangle of the analysis are those of
    [matrix]. *)
Definition untouched_outside {E : Type} (analysis : @chart.PairAnalysis E)
    (matrix m : gmap (nat * nat) chart.Cell) : Prop :=
  ∀ i j, (length (chart.target analysis) < i)%nat ∨
         (length (chart.source analysis) < j)%nat →
         m !! (i, j) = matrix !! (i, j).

(** ** The layout of a printed line *)

(** A line of a printed alignment: the source column, a space, the
    operator, a space, the target column, two spaces and the cost, with
    the two columns of the given widths. *)
Definition line_layout {Char : Type} (lit : ascii → Char)
    (source_width target_width : nat) (line : list Char) : Prop :=
  ∃ source operator target cost,
    line = source ++ [lit " "%char; operator; lit " "%char] ++ target
           ++ [lit " "%char; lit " "%char] ++ cost ∧
    length source = source_width ∧ length target = target_width.

(** An element whose string is not empty and holds no mark. *)
Definition plain_element {E Char : Type} (str : E → list Char)
    (is_mark : Char → bool) (e : E) : Prop :=
  str e ≠ [] ∧ ∀ c, c ∈ str e → is_mark c = false.

(** * Facts *)

(** ** The optimal cost *)
Section optimal_cost_facts.
Context {E : Type}.
Variable ins del : E → Z.
Variable sub : E → E → Z.

Abbreviation opt := (opt_cost ins del sub).
Abbreviation al := (align ins del sub).

Lemma opt_cost_nil_l t : opt [] t = ins_all ins t.
Proof. done. Qed.

Lemma opt_cost_cons_nil a s : opt (a :: s) [] = opt s [] + del a.
Proof. done. Qed.

Lemma opt_cost_nil_cons b t : opt [] (b :: t) = opt [] t + ins b.
Proof. done. Qed.

Lemma opt_cost_cons_cons a s b t :
  opt (a :: s) (b :: t) =
  Z.min (Z.min (opt (a :: s) t + ins b) (opt s t + sub a b))
        (opt s (b :: t) + del a).
Proof. done. Qed.

Lemma opt_cost_attained s t : al s t (opt s t).
Proof.
  revert t. induction s as [|a s IHs]; intros t.
  - induction t as [|b t IHt]; [constructor|].
    rewrite opt_cost_nil_cons. by constructor.
  - induction t as [|b t IHt].
    + rewrite opt_cost_cons_nil. by constructor.
    + rewrite opt_cost_cons_cons.
      pose proof (IHs t) as Hsub. pose proof (IHs (b :: t)) as Hdel.
      apply (align_ins ins del sub b) in IHt.
      apply (align_sub ins del sub a b) in Hsub.
      apply (align_del ins del sub a) in Hdel.
      destruct (Z.min_spec (opt (a :: s) t + ins b) (opt s t + sub a b))
        as [[_ ->]|[_ ->]];
      match goal with
      | |- al _ _ (Z.min ?x ?y) =>
        destruct (Z.min_spec x y) as [[_ ->]|[_ ->]]
      end; done.
Qed.

Lemma opt_cost_least s t c : al s t c → opt s t ≤ c.
Proof.
  induction 1 as [|a b s t c _ IH|a s t c _ IH|b s t c _ IH].
  - done.
  - rewrite opt_cost_cons_cons. lia.
  - destruct t as [|b t].
    + rewrite opt_cost_cons_nil. lia.
    + rewrite opt_cost_cons_cons. lia.
  - destruct s as [|a s].
    + rewrite opt_cost_nil_cons. lia.
    + rewrite opt_cost_cons_cons. lia.
Qed.

(** Appending one more operation at the end of an alignment. *)
Lemma align_snoc_sub a b s t c :
  al s t c → al (s ++ [a]) (t ++ [b]) (c + sub a b).
Proof.
  induction 1 as [|a' b' s t c _ IH|a' s t c _ IH|b' s t c _ IH]; simpl.
  - apply (align_sub ins del sub a b [] [] 0). constructor.
  - replace (c + sub a' b' + sub a b) with (c + sub a b + sub a' b') by lia.
    by constructor.
  - replace (c + del a' + sub a b) with (c + sub a b + del a') by lia.
    by constructor.
  - replace (c + ins b' + sub a b) with (c + sub a b + ins b') by lia.
    by constructor.
Qed.

Lemma align_snoc_del a s t c : al s t c → al (s ++ [a]) t (c + del a).
Proof.
  induction 1 as [|a' b' s t c _ IH|a' s t c _ IH|b' s t c _ IH]; simpl.
  - apply (align_del ins del sub a [] [] 0). constructor.
  - replace (c + sub a' b' + del a) with (c + del a + sub a' b') by lia.
    by constructor.
  - replace (c + del a' + del a) with (c + del a + del a') by lia.
    by constructor.
  - replace (c + ins b' + del a) with (c + del a + ins b') by lia.
    by constructor.
Qed.

Lemma align_snoc_ins b s t c : al s t c → al s (t ++ [b]) (c + ins b).
Proof.
  induction 1 as [|a' b' s t c _ IH|a' s t c _ IH|b' s t c _ IH]; simpl.
  - apply (align_ins ins del sub b [] [] 0). constructor.
  - replace (c + sub a' b' + ins b) with (c + ins b + sub a' b') by lia.
    by constructor.
  - replace (c + del a' + ins b) with (c + ins b + del a') by lia.
    by constructor.
  - replace (c + ins b' + ins b) with (c + ins b + ins b') by lia.
    by constructor.
Qed.

Lemma align_reverse s t c : al s t c → al (reverse s) (reverse t) c.
Proof.
  induction 1 as [|a b s t c _ IH|a s t c _ IH|b s t c _ IH].
  - constructor.
  - rewrite !reverse_cons. by apply align_snoc_sub.
  - rewrite reverse_cons. by apply align_snoc_del.
  - rewrite reverse_cons. by apply align_snoc_ins.
Qed.

(** The optimum does not depend on the end the recurrence starts from. *)
Lemma opt_cost_reverse s t : opt (reverse s) (reverse t) = opt s t.
Proof.
  apply Z.le_antisymm.
  - apply opt_cost_least, align_reverse, opt_cost_attained.
  - apply opt_cost_least.
    pose proof (align_reverse _ _ _
                  (opt_cost_attained (reverse s) (reverse t))) as Hrev.
    by rewrite !reverse_involutive in Hrev.
Qed.

End optimal_cost_facts.

Lemma for_each_invariant {A St : Type} (P : nat → St → Prop) (l : list A)
    (body : A → St → option St) (st : St) :
  P 0%nat st →
  (∀ k x st, l !! k = Some x → P k st →
             ∃ st', body x st = Some st' ∧ P (S k) st') →
  ∃ st', for_each l body st = Some st' ∧ P (length l) st'.
Proof.
  revert P st. induction l as [|x l IH]; intros P st H0 Hstep; simpl.
  - eauto.
  - destruct (Hstep 0%nat x st eq_refl H0) as (st1 & -> & H1). simpl.
    apply (IH (λ k, P (S k))); [done|].
    intros k y st2 Hk HP. by apply (Hstep (S k)).
Qed.

(** Run the first loop of the goal under the invariant [P]. *)
Tactic Notation "loop_with" constr(P) "as" simple_intropattern(pat) :=
  match goal with
  | |- context [for_each ?l ?body ?st] =>
    destruct (for_each_invariant P l body st) as pat
  end.

Lemma py_min_three (x y z : Z) : py_min [x; y; z] = Some (Z.min (Z.min x y) z).
Proof. done. Qed.

Section prefix_cost_facts.
Context {E : Type}.
Variable s t : list E.
Variable ins del : E → Z.
Variable sub : E → E → Z.

Abbreviation pc := (prefix_cost s t ins del sub).
Abbreviation ec := (expected_cell s t ins del sub).

Lemma prefix_cost_origin : pc 0 0 = 0.
Proof. done. Qed.

Lemma prefix_cost_target_margin i b :
  t !! i = Some b → pc (S i) 0 = pc i 0 + ins b.
Proof.
  intros Hb. unfold prefix_cost. rewrite (take_S_r _ _ _ Hb), reverse_snoc.
  by rewrite take_0.
Qed.

Lemma prefix_cost_source_margin j a :
  s !! j = Some a → pc 0 (S j) = pc 0 j + del a.
Proof.
  intros Ha. unfold prefix_cost. rewrite (take_S_r _ _ _ Ha), reverse_snoc.
  by rewrite take_0.
Qed.

Lemma prefix_cost_body i j a b :
  s !! j = Some a → t !! i = Some b →
  pc (S i) (S j) =
  Z.min (Z.min (pc i (S j) + ins b) (pc i j + sub a b)) (pc (S i) j + del a).
Proof.
  intros Ha Hb. unfold prefix_cost.
  by rewrite (take_S_r _ _ _ Ha), (take_S_r _ _ _ Hb), !reverse_snoc.
Qed.

Lemma expected_cell_cumulative i j :
  (i ≤ length t)%nat → (j ≤ length s)%nat →
  chart.cumulative_cost (ec i j) = pc i j.
Proof.
  intros Hi Hj. destruct i as [|i], j as [|j]; simpl.
  - done.
  - destruct (lookup_lt_is_Some_2 s j) as [a Ha]; [lia|].
    rewrite Ha. simpl. by rewrite (prefix_cost_source_margin _ _ Ha).
  - destruct (lookup_lt_is_Some_2 t i) as [b Hb]; [lia|].
    rewrite Hb. simpl. by rewrite (prefix_cost_target_margin _ _ Hb).
  - destruct (lookup_lt_is_Some_2 s j) as [a Ha]; [lia|].
    destruct (lookup_lt_is_Some_2 t i) as [b Hb]; [lia|].
    rewrite Ha, Hb, (prefix_cost_body _ _ _ _ Ha Hb).
    repeat case_decide; simpl; lia.
Qed.

(** At the far corner the prefix cost is the optimal cost of the pair. *)
Lemma prefix_cost_corner :
  pc (length t) (length s) = opt_cost ins del sub s t.
Proof.
  unfold prefix_cost. rewrite !firstn_all. apply opt_cost_reverse.
Qed.

End prefix_cost_facts.

(** ** chart.py: the matrix *)

Section chart_matrix.
Context {E : Type} `{EqDecision E}.
Variable analysis : @chart.PairAnalysis E.


Lemma known_insert matrix (K K' : nat → nat → Prop) i0 j0 :
  known analysis matrix K →
  (∀ i j, K' i j → K i j ∨ (i = i0 ∧ j = j0)) →
  known analysis (<[(i0, j0) := cell_at analysis i0 j0]> matrix) K'.
Proof.
  intros Hk Hsub i j HK'.
  destruct (decide ((i0, j0) = (i, j))) as [[= <- <-]|Hne].
  - apply lookup_insert_eq.
  - rewrite lookup_insert_ne by done. apply Hk.
    destruct (Hsub i j HK') as [?|[-> ->]]; done.
Qed.

Lemma known_weaken matrix (K K' : nat → nat → Prop) :
  known analysis matrix K → (∀ i j, K' i j → K i j) → known analysis matrix K'.
Proof. intros Hk Hsub i j HK'. by apply Hk, Hsub. Qed.

Lemma make_edited_cell_ins matrix i j b before :
  matrix !! (i, j) = Some before →
  chart.make_edited_cell analysis matrix (S i, j) None (Some b) =
  Some (chart.mkCell (chart.ins_cost analysis b)
          (chart.cumulative_cost before + chart.ins_cost analysis b)
          chart.INS).
Proof.
  intros Hm. unfold chart.make_edited_cell; simpl.
  by rewrite !Nat.sub_0_r, Hm.
Qed.

Lemma make_edited_cell_del matrix i j a before :
  matrix !! (i, j) = Some before →
  chart.make_edited_cell analysis matrix (i, S j) (Some a) None =
  Some (chart.mkCell (chart.del_cost analysis a)
          (chart.cumulative_cost before + chart.del_cost analysis a)
          chart.DEL).
Proof.
  intros Hm. unfold chart.make_edited_cell; simpl.
  by rewrite !Nat.sub_0_r, Hm.
Qed.

Lemma make_edited_cell_sub matrix i j a b before :
  matrix !! (i, j) = Some before →
  chart.make_edited_cell analysis matrix (S i, S j) (Some a) (Some b) =
  Some (chart.mkCell (chart.sub_cost analysis a b)
          (chart.cumulative_cost before + chart.sub_cost analysis a b)
          chart.SUB).
Proof.
  intros Hm. unfold chart.make_edited_cell; simpl.
  by rewrite !Nat.sub_0_r, Hm.
Qed.

Lemma enumerate1_lookup (l : list E) k p :
  chart.enumerate1 l !! k = Some p → ∃ x, p = (S k, x) ∧ l !! k = Some x.
Proof.
  unfold chart.enumerate1. rewrite list_lookup_imap.
  destruct (l !! k) as [x|]; [|done]. intros [= <-]. eauto.
Qed.

Lemma enumerate1_length (l : list E) :
  length (chart.enumerate1 l) = length l.
Proof. apply length_imap. Qed.

(** One round of the inner body loop. *)
Lemma body_step matrix (K : nat → nat → Prop) i j a b :
  src analysis !! j = Some a → tgt analysis !! i = Some b →
  known analysis matrix K → K i (S j) → K i j → K (S i) j →
  (ins_cell ← chart.make_edited_cell analysis matrix (S i, S j)
                None (Some b);
   sub_cell ← chart.make_edited_cell analysis matrix (S i, S j)
                (Some a) (Some b);
   del_cell ← chart.make_edited_cell analysis matrix (S i, S j)
                (Some a) None;
   min_cost ← py_min (chart.cumulative_cost <$>
                        [ins_cell; sub_cell; del_cell]);
   let cell :=
     if decide (min_cost = chart.cumulative_cost sub_cell) then sub_cell
     else if decide (min_cost = chart.cumulative_cost del_cell) then del_cell
     else ins_cell in
   Some (<[(S i, S j) := cell]> matrix))
  = Some (<[(S i, S j) := cell_at analysis (S i) (S j)]> matrix).
Proof.
  intros Ha Hb Hk Hins Hsub Hdel.
  pose proof (lookup_lt_Some _ _ _ Ha) as Hj.
  pose proof (lookup_lt_Some _ _ _ Hb) as Hi.
  rewrite (make_edited_cell_ins _ _ _ _ _ (Hk _ _ Hins)).
  rewrite (make_edited_cell_sub _ _ _ _ _ _ (Hk _ _ Hsub)).
  rewrite (make_edited_cell_del _ _ _ _ _ (Hk _ _ Hdel)).
  rewrite !expected_cell_cumulative by lia.
  simpl. rewrite Ha, Hb. done.
Qed.

Lemma compute_min_edit_distance_known matrix :
  matrix !! (0%nat, 0%nat) = Some (chart.mkCell 0 0 chart.START) →
  ∃ matrix',
    chart.compute_min_edit_distance analysis matrix = Some matrix' ∧
    known analysis matrix' (λ i j, (i ≤ length (tgt analysis))%nat ∧
                          (j ≤ length (src analysis))%nat).
Proof.
  intros Horigin. unfold chart.compute_min_edit_distance.
  (* the target margin *)
  loop_with (λ (k : nat) m, known analysis m (λ i j, j = 0%nat ∧ (i ≤ k)%nat))
    as (m1 & -> & Hm1).
  { intros i j [-> Hi]. by replace i with 0%nat by lia. }
  { intros k p m [b [-> Hb]]%enumerate1_lookup Hk. simpl.
    rewrite (make_edited_cell_ins _ _ _ _ _ (Hk k 0%nat (conj eq_refl (le_n _)))).
    eexists; split; [done|].
    rewrite expected_cell_cumulative by (apply lookup_lt_Some in Hb; lia).
    replace (chart.mkCell _ _ _) with (cell_at analysis (S k) 0)
      by (simpl; by rewrite Hb).
    eapply known_insert; [done|]. intros i j [-> Hi].
    destruct (decide (i = S k)); [by right|left; split; [done|lia]]. }
  rewrite enumerate1_length in Hm1. simpl.
  (* the source margin *)
  loop_with (λ (k : nat) m,
               known analysis m (λ i j, (j = 0%nat ∧ (i ≤ length (tgt analysis))%nat) ∨
                               (i = 0%nat ∧ (j ≤ k)%nat)))
    as (m2 & -> & Hm2).
  { eapply known_weaken; [done|]. intros i j [[-> Hi]|[-> Hj]]; [done|].
    split; lia. }
  { intros k p m [a [-> Ha]]%enumerate1_lookup Hk. simpl.
    rewrite (make_edited_cell_del _ _ _ _ _
               (Hk 0%nat k (or_intror (conj eq_refl (le_n _))))).
    eexists; split; [done|].
    rewrite expected_cell_cumulative by (apply lookup_lt_Some in Ha; lia).
    replace (chart.mkCell _ _ _) with (cell_at analysis 0 (S k))
      by (simpl; by rewrite Ha).
    eapply known_insert; [done|]. intros i j [[-> Hi]|[-> Hj]].
    - left. by left.
    - destruct (decide (j = S k)); [by right|left; right; split; [done|lia]]. }
  rewrite enumerate1_length in Hm2. simpl.
  (* the body *)
  loop_with (λ (k : nat) m,
               known analysis m (λ i j, (j = 0%nat ∧ (i ≤ length (tgt analysis))%nat) ∨
                               ((i ≤ k)%nat ∧ (j ≤ length (src analysis))%nat)))
    as (m3 & -> & Hm3).
  { eapply known_weaken; [done|]. intros i j [[-> Hi]|[Hi Hj]].
    - by left.
    - right. split; [lia|done]. }
  { intros k p m [b [-> Hb]]%enumerate1_lookup Hk.
    pose proof (lookup_lt_Some _ _ _ Hb) as Hlt.
    loop_with (λ (l : nat) m,
                 known analysis m (λ i j, (j = 0%nat ∧ (i ≤ length (tgt analysis))%nat) ∨
                                 ((i ≤ k)%nat ∧ (j ≤ length (src analysis))%nat) ∨
                                 (i = S k ∧ (j ≤ l)%nat)))
      as (m' & Hrun & Hm').
    { eapply known_weaken; [done|]. intros i j [[-> Hi]|[[Hi Hj]|[-> Hj]]].
      - by left.
      - by right.
      - left. split; lia. }
    { intros l p m'' [a [-> Ha]]%enumerate1_lookup Hk'.
      pose proof (lookup_lt_Some _ _ _ Ha) as Hlt'.
      eexists; split.
      { apply (body_step m'' _ k l a b Ha Hb Hk').
        - right; left. split; lia.
        - right; left. split; lia.
        - right; right. split; lia. }
      eapply known_insert; [done|]. intros i j [[-> Hi]|[[Hi Hj]|[-> Hj]]].
      - left. by left.
      - left. right. by left.
      - destruct (decide (j = S l)); [by right|].
        left. right. right. split; [done|lia]. }
    rewrite enumerate1_length in Hm'.
    exists m'. split; [done|].
    eapply known_weaken; [done|]. intros i j [[-> Hi]|[Hi Hj]].
    - by left.
    - destruct (decide (i = S k)) as [->|]; [by right; right|].
      right; left. split; [lia|done]. }
  rewrite enumerate1_length in Hm3.
  exists m3. split; [done|].
  eapply known_weaken; [done|]. intros i j [Hi Hj]. right. done.
Qed.

End chart_matrix.

Lemma total_app l1 l2 : total (l1 ++ l2) = total l1 + total l2.
Proof. induction l1 as [|x l1 IH]; simpl; [done|]. rewrite IH. lia. Qed.

(** ** chart.py: the backtrace *)
Section chart_backtrace.
Context {E : Type} `{EqDecision E}.
Variable analysis : @chart.PairAnalysis E.
Variable matrix : gmap (nat * nat) chart.Cell.

Abbreviation in_range :=
  (λ i j : nat, (i ≤ length (chart.target analysis))%nat ∧
                (j ≤ length (chart.source analysis))%nat).

Hypothesis matrix_known : known analysis matrix in_range.

(** The tag of an expected cell never leads out of the matrix. *)
Lemma expected_cell_operation i j :
  in_range i j →
  match chart.operation (cell_at analysis i j) with
  | chart.START => i = 0%nat ∧ j = 0%nat
  | chart.INS =>
    ∃ i' b, i = S i' ∧ tgt analysis !! i' = Some b ∧
      cell_at analysis i j =
      chart.mkCell (chart.ins_cost analysis b)
        (cost_at analysis i' j + chart.ins_cost analysis b) chart.INS
  | chart.DEL =>
    ∃ j' a, j = S j' ∧ src analysis !! j' = Some a ∧
      cell_at analysis i j =
      chart.mkCell (chart.del_cost analysis a)
        (cost_at analysis i j' + chart.del_cost analysis a) chart.DEL
  | chart.SUB =>
    ∃ i' j' a b, i = S i' ∧ j = S j' ∧
      src analysis !! j' = Some a ∧ tgt analysis !! i' = Some b ∧
      cell_at analysis i j =
      chart.mkCell (chart.sub_cost analysis a b)
        (cost_at analysis i' j' + chart.sub_cost analysis a b) chart.SUB
  end.
Proof.
  intros [Hi Hj]. destruct i as [|i], j as [|j]; simpl.
  - done.
  - destruct (lookup_lt_is_Some_2 (src analysis) j) as [a Ha]; [lia|].
    rewrite Ha. simpl. eauto.
  - destruct (lookup_lt_is_Some_2 (tgt analysis) i) as [b Hb]; [lia|].
    rewrite Hb. simpl. eauto.
  - destruct (lookup_lt_is_Some_2 (src analysis) j) as [a Ha]; [lia|].
    destruct (lookup_lt_is_Some_2 (tgt analysis) i) as [b Hb]; [lia|].
    rewrite Ha, Hb. repeat case_decide; simpl; eauto 10.
Qed.

Lemma traced_snoc i j i' j' steps st :
  traced analysis i' j' steps →
  in_range i j →
  chart.cell st = cell_at analysis i j →
  omap chart.step_source [st] = drop j' (take j (chart.source analysis)) →
  omap chart.step_target [st] = drop i' (take i (chart.target analysis)) →
  (j' ≤ j)%nat → (i' ≤ i)%nat →
  cost_at analysis i' j' + chart.this_cost (chart.cell st)
    = cost_at analysis i j →
  traced analysis i j (steps ++ [st]).
Proof.
  intros [Hs Ht Htot Hlast _] Hr Hcell Hsrc Htgt Hj Hi Hcost. split.
  - rewrite omap_app, Hs, Hsrc.
    rewrite <-(take_drop j' (take j (chart.source analysis))) at 2.
    by rewrite take_take, Nat.min_l.
  - rewrite omap_app, Ht, Htgt.
    rewrite <-(take_drop i' (take i (chart.target analysis))) at 2.
    by rewrite take_take, Nat.min_l.
  - rewrite fmap_app, total_app, Htot. simpl. unfold total in *. lia.
  - intros st'. rewrite last_snoc. by intros [= <-].
  - intros Hnil. by destruct steps.
Qed.

Lemma take_S_drop (l : list E) k x :
  l !! k = Some x → drop k (take (S k) l) = [x].
Proof.
  intros Hx. rewrite (take_S_r _ _ _ Hx).
  rewrite drop_app_length'; [done|].
  rewrite length_take. apply lookup_lt_Some in Hx. lia.
Qed.

Lemma take_drop_nil (l : list E) k : drop k (take k l) = [].
Proof. apply drop_ge. rewrite length_take. lia. Qed.

Lemma backtrace_loop_traced fuel : ∀ i j backtrace,
  in_range i j → (i + j ≤ fuel)%nat →
  ∃ steps,
    chart.backtrace_loop fuel analysis matrix j i backtrace
      = Some (steps ++ backtrace) ∧
    traced analysis i j steps.
Proof.
  induction fuel as [|fuel IH]; intros i j backtrace Hr Hfuel.
  - assert (i = 0%nat ∧ j = 0%nat) as [-> ->] by lia.
    exists []. split; [done|]. by split.
  - destruct (decide (i = 0%nat ∧ j = 0%nat)) as [[-> ->]|Hpos].
    { exists []. split; [done|]. by split. }
    assert (chart.backtrace_loop (S fuel) analysis matrix j i backtrace =
            cell ← matrix !! (i, j);
            match chart.operation cell with
            | chart.SUB =>
              match j, i with
              | S src_pos, S targ_pos =>
                s ← chart.source analysis !! src_pos;
                t ← chart.target analysis !! targ_pos;
                chart.backtrace_loop fuel analysis matrix src_pos targ_pos
                  (chart.mkEditStep (Some s) (Some t) cell :: backtrace)
              | _, _ => None
              end
            | chart.INS =>
              match i with
              | S targ_pos =>
                t ← chart.target analysis !! targ_pos;
                chart.backtrace_loop fuel analysis matrix j targ_pos
                  (chart.mkEditStep None (Some t) cell :: backtrace)
              | O => None
              end
            | _ =>
              match j with
              | S src_pos =>
                s ← chart.source analysis !! src_pos;
                chart.backtrace_loop fuel analysis matrix src_pos i
                  (chart.mkEditStep (Some s) None cell :: backtrace)
              | O => None
              end
            end) as ->.
    { destruct i, j; done || lia. }
    rewrite (matrix_known i j Hr).
    pose proof (expected_cell_operation i j Hr) as Hop.
    pose proof (expected_cell_cumulative _ _ (chart.ins_cost analysis)
                  (chart.del_cost analysis) (chart.sub_cost analysis)
                  i j (proj1 Hr) (proj2 Hr)) as Hcum.
    remember (cell_at analysis i j) as c eqn:Hc.
    destruct Hr as [Hi Hj]. simpl.
    destruct (chart.operation c) eqn:Htag.
    + lia.
    + destruct Hop as (i' & b & -> & Hb & Hcell). rewrite Hb. simpl.
      destruct (IH i' j (chart.mkEditStep None (Some b) c :: backtrace))
        as (steps & -> & Htr); [split; lia|lia|].
      eexists (steps ++ [_]). split; [by rewrite <-app_assoc|].
      eapply traced_snoc; [done|by split|done|..]; simpl.
      * by rewrite take_drop_nil.
      * by rewrite (take_S_drop _ _ _ Hb).
      * lia.
      * lia.
      * rewrite <-Hcum, Hcell. done.
    + destruct Hop as (j' & a & -> & Ha & Hcell). rewrite Ha. simpl.
      destruct (IH i j' (chart.mkEditStep (Some a) None c :: backtrace))
        as (steps & -> & Htr); [split; lia|lia|].
      eexists (steps ++ [_]). split; [by rewrite <-app_assoc|].
      eapply traced_snoc; [done|by split|done|..]; simpl.
      * by rewrite (take_S_drop _ _ _ Ha).
      * by rewrite take_drop_nil.
      * lia.
      * lia.
      * rewrite <-Hcum, Hcell. done.
    + destruct Hop as (i' & j' & a & b & -> & -> & Ha & Hb & Hcell).
      rewrite Ha, Hb. simpl.
      destruct (IH i' j' (chart.mkEditStep (Some a) (Some b) c :: backtrace))
        as (steps & -> & Htr); [split; lia|lia|].
      eexists (steps ++ [_]). split; [by rewrite <-app_assoc|].
      eapply traced_snoc; [done|by split|done|..]; simpl.
      * by rewrite (take_S_drop _ _ _ Ha).
      * by rewrite (take_S_drop _ _ _ Hb).
      * lia.
      * lia.
      * rewrite <-Hcum, Hcell. done.
Qed.

Lemma get_one_backtrace_traced :
  ∃ steps,
    chart.get_one_backtrace analysis matrix = Some steps ∧
    traced analysis (length (chart.target analysis)) (length (chart.source analysis))
      steps.
Proof.
  unfold chart.get_one_backtrace.
  destruct (backtrace_loop_traced
              (length (chart.source analysis) + length (chart.target analysis))
              (length (chart.target analysis))
              (length (chart.source analysis)) [])
    as (steps & Hrun & Htr); [done|lia|].
  exists steps. by rewrite app_nil_r in Hrun.
Qed.

End chart_backtrace.

(** ** xducer.py: the memo *)
Section xducer_memo.
Context {E : Type} `{EqDecision E}.
Variable args : @xducer.Arguments E.

Abbreviation xs := (xducer.source args).
Abbreviation xt := (xducer.target args).
Abbreviation expected i j :=
  (paths (xducer.cost_functions args) (xducer.just_one args)
     (drop i xs) (drop j xt)).

Lemma memo_ok_empty : memo_ok args ∅.
Proof. intros i j ps. by rewrite lookup_empty. Qed.

Lemma memo_ok_insert memory i j ps :
  memo_ok args memory → expected i j = Some ps →
  memo_ok args (<[(i, j) := ps]> memory).
Proof.
  intros Hok Hps i' j' ps'.
  destruct (decide ((i, j) = (i', j'))) as [[= <- <-]|Hne].
  - rewrite lookup_insert_eq. by intros [= <-].
  - rewrite lookup_insert_ne by done. apply Hok.
Qed.

Lemma try_op_sub relate memory memory' i j a b tail :
  xs !! i = Some a → xt !! j = Some b →
  relate memory (Some (S i, S j)) = Some (tail, memory') →
  xducer.try_op relate args memory (i, j) xducer.SUB =
  new ← prepend (sub_cell (xducer.cost_functions args) a b) tail;
  Some (new, memory').
Proof.
  intros Ha Hb Hrel. unfold xducer.try_op, xducer.op_cost; simpl.
  rewrite !Nat.add_1_r, Hrel. simpl. rewrite Ha, Hb. simpl.
  unfold prepend, sub_cell. destruct tail; [done|]. simpl.
  by destruct (_ ≫= _).
Qed.

Lemma try_op_del relate memory memory' i j a tail :
  xs !! i = Some a →
  relate memory (Some (S i, j)) = Some (tail, memory') →
  xducer.try_op relate args memory (i, j) xducer.DEL =
  new ← prepend (del_cell (xducer.cost_functions args) a) tail;
  Some (new, memory').
Proof.
  intros Ha Hrel. unfold xducer.try_op, xducer.op_cost; simpl.
  rewrite Nat.add_1_r, Nat.add_0_r, Hrel. simpl. rewrite Ha. simpl.
  unfold prepend, del_cell. destruct tail; [done|]. simpl.
  by destruct (_ ≫= _).
Qed.

Lemma try_op_ins relate memory memory' i j b tail :
  xt !! j = Some b →
  relate memory (Some (i, S j)) = Some (tail, memory') →
  xducer.try_op relate args memory (i, j) xducer.INS =
  new ← prepend (ins_cell (xducer.cost_functions args) b) tail;
  Some (new, memory').
Proof.
  intros Hb Hrel. unfold xducer.try_op, xducer.op_cost; simpl.
  rewrite Nat.add_1_r, Nat.add_0_r, Hrel. simpl. rewrite Hb. simpl.
  unfold prepend, ins_cell. destruct tail; [done|]. simpl.
  by destruct (_ ≫= _).
Qed.

Lemma paths_nil_nil costs jo : @paths E costs jo [] [] = Some [].
Proof. done. Qed.

Lemma paths_nil_cons costs jo b t :
  @paths E costs jo [] (b :: t) =
  tail ← paths costs jo [] t;
  new_ins ← prepend (ins_cell costs b) tail;
  keep_optimal jo new_ins.
Proof. done. Qed.

Lemma paths_cons_nil costs jo a s :
  @paths E costs jo (a :: s) [] =
  tail ← paths costs jo s [];
  new_del ← prepend (del_cell costs a) tail;
  keep_optimal jo new_del.
Proof. done. Qed.

Lemma paths_cons_cons costs jo a s b t :
  @paths E costs jo (a :: s) (b :: t) =
  tail ← paths costs jo s t;
  new_sub ← prepend (sub_cell costs a b) tail;
  tail ← paths costs jo s (b :: t);
  new_del ← prepend (del_cell costs a) tail;
  tail ← paths costs jo (a :: s) t;
  new_ins ← prepend (ins_cell costs b) tail;
  keep_optimal jo ((new_sub ++ new_del) ++ new_ins).
Proof. done. Qed.

Lemma drop_lookup_None (l : list E) k :
  (k ≤ length l)%nat → l !! k = None → drop k l = [] ∧ k = length l.
Proof.
  intros Hk Hnone%lookup_ge_None. split; [apply drop_ge|]; lia.
Qed.

Section parse.
Variable relate :
  gmap (nat * nat) (list (list (@xducer.Cell E))) → option (nat * nat) →
  option (list (list (@xducer.Cell E)) *
          gmap (nat * nat) (list (list (@xducer.Cell E)))).
Variable i j : nat.
Hypothesis relate_expected : ∀ memory i' j' ps,
  memo_ok args memory →
  (i' ≤ length xs)%nat → (j' ≤ length xt)%nat → (i + j < i' + j')%nat →
  expected i' j' = Some ps →
  ∃ memory', relate memory (Some (i', j')) = Some (ps, memory') ∧
             memo_ok args memory'.

Lemma parse_expected memory ps :
  memo_ok args memory →
  (i ≤ length xs)%nat → (j ≤ length xt)%nat →
  expected i j = Some ps →
  ∃ memory', xducer.parse relate args memory (i, j) = Some (ps, memory') ∧
             memo_ok args memory'.
Proof.
  intros Hok Hi Hj Hexp. unfold xducer.parse.
  cbn [xducer.coord_source xducer.coord_target fst snd].
  destruct (xs !! i) as [a|] eqn:Ha; destruct (xt !! j) as [b|] eqn:Hb.
  - (* both sequences have elements left *)
    pose proof (lookup_lt_Some _ _ _ Ha) as Hlti.
    pose proof (lookup_lt_Some _ _ _ Hb) as Hltj.
    assert (expected i j =
            tail ← expected (S i) (S j);
            new_sub ← prepend (sub_cell (xducer.cost_functions args) a b) tail;
            tail ← expected (S i) j;
            new_del ← prepend (del_cell (xducer.cost_functions args) a) tail;
            tail ← expected i (S j);
            new_ins ← prepend (ins_cell (xducer.cost_functions args) b) tail;
            keep_optimal (xducer.just_one args)
              ((new_sub ++ new_del) ++ new_ins)) as Hunfold.
    { by rewrite (drop_S _ _ _ Ha), (drop_S _ _ _ Hb), paths_cons_cons. }
    rewrite Hunfold in Hexp. clear Hunfold.
    destruct (expected (S i) (S j)) as [tail_sub|] eqn:Hsub; [|done].
    simpl in Hexp.
    destruct (prepend _ tail_sub) as [new_sub|] eqn:Hnsub; [|done].
    simpl in Hexp.
    destruct (expected (S i) j) as [tail_del|] eqn:Hdel; [|done].
    simpl in Hexp.
    destruct (prepend _ tail_del) as [new_del|] eqn:Hndel; [|done].
    simpl in Hexp.
    destruct (expected i (S j)) as [tail_ins|] eqn:Hins; [|done].
    simpl in Hexp.
    destruct (prepend _ tail_ins) as [new_ins|] eqn:Hnins; [|done].
    simpl in Hexp.
    destruct (relate_expected memory (S i) (S j) tail_sub)
      as (m1 & Hr1 & Hok1); [done|lia..|done|].
    destruct (relate_expected m1 (S i) j tail_del)
      as (m2 & Hr2 & Hok2); [done|lia..|done|].
    destruct (relate_expected m2 i (S j) tail_ins)
      as (m3 & Hr3 & Hok3); [done|lia..|done|].
    rewrite bool_decide_eq_false_2 by lia. cbn [andb].
    rewrite !bool_decide_eq_true_2 by lia. cbn [andb].
    rewrite (try_op_sub _ _ _ _ _ _ _ _ Ha Hb Hr1), Hnsub. simpl.
    rewrite (try_op_del _ _ _ _ _ _ _ Ha Hr2), Hndel. simpl.
    rewrite (try_op_ins _ _ _ _ _ _ _ Hb Hr3), Hnins. simpl.
    exists m3. split; [|done].
    unfold keep_optimal in Hexp. by rewrite Hexp.
  - (* only source elements are left *)
    pose proof (lookup_lt_Some _ _ _ Ha) as Hlti.
    destruct (drop_lookup_None _ _ Hj Hb) as [Hnil Hlen].
    assert (expected i j =
            tail ← expected (S i) j;
            new_del ← prepend (del_cell (xducer.cost_functions args) a) tail;
            keep_optimal (xducer.just_one args) new_del) as Hunfold.
    { by rewrite (drop_S _ _ _ Ha), Hnil, paths_cons_nil. }
    rewrite Hunfold in Hexp. clear Hunfold.
    destruct (expected (S i) j) as [tail_del|] eqn:Hdel; [|done].
    simpl in Hexp.
    destruct (prepend _ tail_del) as [new_del|] eqn:Hndel; [|done].
    simpl in Hexp.
    destruct (relate_expected memory (S i) j tail_del)
      as (m2 & Hr2 & Hok2); [done|lia..|done|].
    rewrite (bool_decide_eq_false_2 (_ - Z.of_nat i = 0)) by lia.
    rewrite (bool_decide_eq_true_2 (_ - Z.of_nat i ≠ 0)) by lia.
    rewrite (bool_decide_eq_false_2 (_ - Z.of_nat j ≠ 0)) by lia.
    cbn [andb]. simpl.
    rewrite (try_op_del _ _ _ _ _ _ _ Ha Hr2), Hndel. simpl.
    exists m2. split; [|done].
    unfold keep_optimal in Hexp. by rewrite Hexp.
  - (* only target elements are left *)
    pose proof (lookup_lt_Some _ _ _ Hb) as Hltj.
    destruct (drop_lookup_None _ _ Hi Ha) as [Hnil Hlen].
    assert (expected i j =
            tail ← expected i (S j);
            new_ins ← prepend (ins_cell (xducer.cost_functions args) b) tail;
            keep_optimal (xducer.just_one args) new_ins) as Hunfold.
    { by rewrite (drop_S _ _ _ Hb), Hnil, paths_nil_cons. }
    rewrite Hunfold in Hexp. clear Hunfold.
    destruct (expected i (S j)) as [tail_ins|] eqn:Hins; [|done].
    simpl in Hexp.
    destruct (prepend _ tail_ins) as [new_ins|] eqn:Hnins; [|done].
    simpl in Hexp.
    destruct (relate_expected memory i (S j) tail_ins)
      as (m3 & Hr3 & Hok3); [done|lia..|done|].
    rewrite (bool_decide_eq_true_2 (_ - Z.of_nat i = 0)) by lia.
    rewrite (bool_decide_eq_false_2 (_ - Z.of_nat i ≠ 0)) by lia.
    rewrite (bool_decide_eq_false_2 (_ - Z.of_nat j = 0)) by lia.
    rewrite (bool_decide_eq_true_2 (_ - Z.of_nat j ≠ 0)) by lia.
    cbn [andb]. simpl.
    rewrite (try_op_ins _ _ _ _ _ _ _ Hb Hr3), Hnins. simpl.
    exists m3. split; [|done].
    unfold keep_optimal in Hexp. by rewrite Hexp.
  - (* both sequences are used up *)
    destruct (drop_lookup_None _ _ Hi Ha) as [Hnili Hleni].
    destruct (drop_lookup_None _ _ Hj Hb) as [Hnilj Hlenj].
    rewrite Hnili, Hnilj, paths_nil_nil in Hexp.
    injection Hexp as <-.
    rewrite !bool_decide_eq_true_2 by lia.
    exists memory. done.
Qed.
End parse.

Lemma relate_expected fuel : ∀ memory i j ps,
  memo_ok args memory →
  (i ≤ length xs)%nat → (j ≤ length xt)%nat →
  (length xs - i + (length xt - j) < fuel)%nat →
  expected i j = Some ps →
  ∃ memory', xducer.relate fuel args memory (Some (i, j)) = Some (ps, memory') ∧
             memo_ok args memory'.
Proof.
  induction fuel as [|fuel IH]; intros memory i j ps Hok Hi Hj Hfuel Hexp;
    [lia|].
  cbn [xducer.relate default from_option id].
  destruct (memory !! (i, j)) as [hit|] eqn:Hmem.
  - apply Hok in Hmem. rewrite Hexp in Hmem. injection Hmem as <-.
    by exists memory.
  - destruct (parse_expected (xducer.relate fuel args) i j) with memory ps
      as (m & -> & Hokm); [|done..|].
    { intros m i' j' ps' Hokm Hi' Hj' Hlt Hexp'.
      apply IH; [done..|lia|done]. }
    simpl. eexists. split; [done|]. by apply memo_ok_insert.
Qed.

End xducer_memo.

(** ** xducer.py: the parses *)
Section parses.
Context {E : Type}.
Variable costs : @xducer.CostFunctions E.

Abbreviation opt :=
  (opt_cost (xducer.insert costs) (xducer.delete costs)
     (xducer.substitute costs)).

Lemma py_min_spec (l : list Z) :
  l ≠ [] → ∃ m, py_min l = Some m ∧ m ∈ l ∧ ∀ x, x ∈ l → m ≤ x.
Proof.
  destruct l as [|x l]; [done|]. intros _.
  exists (foldl Z.min x l). split; [done|].
  revert x. induction l as [|y l IH]; intros x; simpl.
  - split; [by left|]. intros z ->%list_elem_of_singleton. lia.
  - destruct (IH (Z.min x y)) as [Hin Hle]. split.
    + apply elem_of_cons in Hin as [->|Hin].
      * destruct (Z.min_spec x y) as [[_ ->]|[_ ->]].
        -- by left.
        -- right. by left.
      * right. by right.
    + intros z Hz.
      assert (foldl Z.min (Z.min x y) l ≤ Z.min x y) by (apply Hle; by left).
      apply elem_of_cons in Hz as [->|Hz]; [lia|].
      apply elem_of_cons in Hz as [->|Hz]; [lia|].
      apply Hle. by right.
Qed.

Lemma mapM_ext_Some {A B : Type} (f : A → option B) (g : A → B) l :
  (∀ x, x ∈ l → f x = Some (g x)) → mapM f l = Some (g <$> l).
Proof.
  intros Hf. apply mapM_Some_2. induction l as [|x l IH]; simpl.
  - constructor.
  - constructor; [apply Hf; by left|]. apply IH. intros y Hy.
    apply Hf. by right.
Qed.

Lemma parse_cost_cons (c : @xducer.Cell E) (p : list (@xducer.Cell E)) :
  xducer.parse_cost (c :: p) = Some (xducer.cumul_cost c).
Proof. done. Qed.

Lemma parse_cost_cumulative (p : list (@xducer.Cell E)) :
  p ≠ [] → suffix_cumulative p →
  xducer.parse_cost p = Some (path_cost p).
Proof. destruct p as [|c p]; [done|]. intros _ [Hc _]. simpl. by rewrite <-Hc. Qed.

Lemma prepend_suffixes (cell : @xducer.Cell E)
    (tail : list (list (@xducer.Cell E))) d :
  xducer.cumul_cost cell = xducer.this_cost cell →
  (∀ p, p ∈ tail → p ≠ []) →
  (∀ p, p ∈ suffixes tail → suffix_cumulative p ∧ path_cost p = d) →
  prepend cell tail = Some (cons (with_suffix cell d) <$> suffixes tail).
Proof.
  intros Hcell Hne Hd. destruct tail as [|p0 tail].
  - destruct (Hd []) as [_ Hzero]; [by left|].
    simpl. do 3 f_equal. destruct cell. unfold with_suffix. simpl in *.
    f_equal. unfold path_cost in Hzero. simpl in Hzero. lia.
  - unfold prepend. apply mapM_ext_Some. intros p Hp.
    destruct (Hd p Hp) as [Hcum Hcost].
    rewrite (parse_cost_cumulative p (Hne p Hp) Hcum). simpl.
    by rewrite Hcost.
Qed.

Lemma remove_suboptimal_minimum (cands : list (list (@xducer.Cell E)))
    just_one m :
  cands ≠ [] →
  (∀ p, p ∈ cands → ∃ c, xducer.parse_cost p = Some c ∧ m ≤ c) →
  (∃ p, p ∈ cands ∧ xducer.parse_cost p = Some m) →
  xducer.remove_suboptimal_parses cands just_one =
  Some (let minimal := filter (λ p, xducer.parse_cost p = Some m) cands in
        if just_one then take 1 minimal else minimal).
Proof.
  intros Hne Hall (p0 & Hp0 & Hc0). unfold xducer.remove_suboptimal_parses.
  destruct (mapM_is_Some_2 (@xducer.parse_cost E) cands) as [cs Hcs].
  { apply Forall_forall. intros p Hp. destruct (Hall p Hp) as (c & Hc & _).
    simpl. rewrite Hc. by eexists. }
  rewrite Hcs. simpl. apply mapM_Some_1 in Hcs.
  destruct (py_min_spec cs) as (m' & -> & Hin & Hle).
  { intros ->. apply Forall2_nil_inv_r in Hcs. done. }
  simpl.
  assert (m' = m) as ->.
  { apply Z.le_antisymm.
    - apply list_elem_of_lookup in Hp0 as [k Hk].
      destruct (Forall2_lookup_l _ _ _ _ _ Hcs Hk) as (c & Hc & Hpc).
      rewrite Hc0 in Hpc. injection Hpc as <-.
      apply Hle. by eapply list_elem_of_lookup_2.
    - apply list_elem_of_lookup in Hin as [k Hk].
      destruct (Forall2_lookup_r _ _ _ _ _ Hcs Hk) as (p & Hp & Hpc).
      destruct (Hall p) as (c & Hc & Hmc); [by eapply list_elem_of_lookup_2|].
      rewrite Hc in Hpc. by injection Hpc as <-. }
  destruct just_one; [|done].
  destruct (filter _ cands) as [|p1 rest] eqn:Hfilter; [|done].
  exfalso. eapply (not_elem_of_nil p0). rewrite <-Hfilter.
  apply list_elem_of_filter. done.
Qed.

Lemma path_cost_cons (c : @xducer.Cell E) p :
  path_cost (c :: p) = xducer.this_cost c + path_cost p.
Proof. done. Qed.

Lemma suffixes_nonempty (ps : list (list (@xducer.Cell E))) :
  suffixes ps ≠ [].
Proof. by destruct ps. Qed.

Lemma path_of_nil : path_of costs 0 [] [] [].
Proof. by split. Qed.

(** One branch of [parse]: the step [cell], then every suffix. *)
Lemma branch_paths cell tail d s' t' s t :
  xducer.cumul_cost cell = xducer.this_cost cell →
  step_ok costs cell →
  option_list (xducer.cell_source cell) ++ s' = s →
  option_list (xducer.cell_target cell) ++ t' = t →
  (∀ p, p ∈ tail → p ≠ []) →
  (∀ p, p ∈ suffixes tail → path_of costs d s' t' p) →
  ∃ new, prepend cell tail = Some new ∧ new ≠ [] ∧
         ∀ p, p ∈ new → p ≠ [] ∧ path_of costs (d + xducer.this_cost cell) s t p.
Proof.
  intros Hcum Hstep Hs Ht Hne Htail.
  rewrite (prepend_suffixes cell tail d Hcum Hne).
  2:{ intros p Hp. destruct (Htail p Hp). done. }
  eexists. split; [done|]. split.
  { intros Hnil%fmap_nil_inv. by apply suffixes_nonempty in Hnil. }
  intros p (p' & -> & Hp')%list_elem_of_fmap. split; [done|].
  destruct (Htail p' Hp') as [Hsrc Htgt Htot Hsuf Hsteps]. split.
  - rewrite <-Hs, <-Hsrc. simpl. by destruct (xducer.cell_source cell).
  - rewrite <-Ht, <-Htgt. simpl. by destruct (xducer.cell_target cell).
  - rewrite path_cost_cons, Htot. simpl. lia.
  - split; [|done]. rewrite path_cost_cons, Htot. simpl. lia.
  - constructor; [|done]. unfold step_ok in *. simpl.
    by destruct (xducer.cell_source cell), (xducer.cell_target cell).
Qed.

Lemma keep_optimal_paths just_one (cands : list (list (@xducer.Cell E)))
    m s t :
  cands ≠ [] →
  (∀ p, p ∈ cands → p ≠ [] ∧ ∃ c, path_of costs c s t p ∧ m ≤ c) →
  (∃ p c, p ∈ cands ∧ path_of costs c s t p ∧ c = m) →
  ∃ ps, keep_optimal just_one cands = Some ps ∧ ps ≠ [] ∧
        (∀ p, p ∈ ps → p ≠ [] ∧ path_of costs m s t p) ∧
        ps = (let minimal :=
                filter (λ p, xducer.parse_cost p = Some m) cands in
              if just_one then take 1 minimal else minimal).
Proof.
  intros Hne Hall (p0 & c0 & Hp0 & Hpath0 & ->).
  assert (∀ p c, p ∈ cands → path_of costs c s t p →
                 xducer.parse_cost p = Some c) as Hcost.
  { intros p c Hp Hpath. destruct (Hall p Hp) as [Hpne _].
    rewrite (parse_cost_cumulative p Hpne (path_cumulative _ _ _ _ _ Hpath)).
    by rewrite (path_total _ _ _ _ _ Hpath). }
  unfold keep_optimal.
  rewrite (remove_suboptimal_minimum cands just_one m Hne).
  2:{ intros p Hp. destruct (Hall p Hp) as (_ & c & Hpath & Hle).
      exists c. split; [by apply Hcost|done]. }
  2:{ exists p0. split; [done|]. by apply Hcost. }
  destruct cands as [|p1 cands]; [done|].
  eexists. split; [done|].
  assert (p0 ∈ filter (λ p, xducer.parse_cost p = Some m) (p1 :: cands))
    as Hin by (apply list_elem_of_filter; split; [by apply Hcost|done]).
  split_and!; [| |done].
  - cbv zeta. destruct (filter _ (p1 :: cands)) as [|q rest];
      [by apply not_elem_of_nil in Hin|]. by destruct just_one.
  - intros p Hp.
    assert (p ∈ filter (λ p, xducer.parse_cost p = Some m) (p1 :: cands))
      as [Hpc Hpin]%list_elem_of_filter.
    { cbv zeta in Hp. destruct just_one; [|done].
      by apply (subseteq_take 1) in Hp. }
    destruct (Hall p Hpin) as (Hpne & c & Hpath & _). split; [done|].
    rewrite (Hcost p c Hpin Hpath) in Hpc. by injection Hpc as ->.
Qed.

Lemma result_for_suffixes s t ps :
  ps ≠ [] → (∀ p, p ∈ ps → p ≠ [] ∧ path_of costs (opt s t) s t p) →
  (s ≠ [] ∨ t ≠ []) → result_for costs s t ps.
Proof.
  intros Hne Hps Hst. split.
  - split; [done|]. intros [-> ->]. by destruct Hst.
  - intros p Hp. by destruct (Hps p Hp).
  - intros p Hp. destruct ps; [done|]. by destruct (Hps p Hp).
Qed.

Lemma paths_result just_one s : ∀ t,
  ∃ ps, paths costs just_one s t = Some ps ∧ result_for costs s t ps.
Proof.
  induction s as [|a s IHs]; intros t.
  - induction t as [|b t IHt].
    + exists []. split; [done|]. split; [done|by intros p ?%not_elem_of_nil|].
      intros p ->%list_elem_of_singleton. apply path_of_nil.
    + destruct IHt as (tail & Htail & [_ Hne Hpaths]).
      rewrite paths_nil_cons, Htail. cbn [mbind option_bind].
      destruct (branch_paths (ins_cell costs b) tail (opt [] t) [] t [] (b :: t))
        as (new & -> & Hnew & Hnewp); [done..|]. cbn [mbind option_bind].
      destruct (keep_optimal_paths just_one new (opt [] (b :: t)) [] (b :: t))
        as (ps & -> & Hps & Hpsp & _); [done|..].
      { intros p Hp. destruct (Hnewp p Hp) as [? Hpath]. split; [done|].
        eexists. split; [done|]. rewrite opt_cost_nil_cons. simpl. lia. }
      { destruct new as [|p new]; [done|]. exists p. eexists.
        destruct (Hnewp p) as [? Hpath]; [by left|].
        split; [by left|]. split; [done|]. by rewrite opt_cost_nil_cons. }
      exists ps. split; [done|]. apply result_for_suffixes; auto.
  - induction t as [|b t IHt].
    + destruct (IHs []) as (tail & Htail & [_ Hne Hpaths]).
      rewrite paths_cons_nil, Htail. cbn [mbind option_bind].
      destruct (branch_paths (del_cell costs a) tail (opt s []) s [] (a :: s) [])
        as (new & -> & Hnew & Hnewp); [done..|]. cbn [mbind option_bind].
      destruct (keep_optimal_paths just_one new (opt (a :: s) []) (a :: s) [])
        as (ps & -> & Hps & Hpsp & _); [done|..].
      { intros p Hp. destruct (Hnewp p Hp) as [? Hpath]. split; [done|].
        eexists. split; [done|]. rewrite opt_cost_cons_nil. simpl. lia. }
      { destruct new as [|p new]; [done|]. exists p. eexists.
        destruct (Hnewp p) as [? Hpath]; [by left|].
        split; [by left|]. split; [done|]. by rewrite opt_cost_cons_nil. }
      exists ps. split; [done|]. apply result_for_suffixes; auto.
    + destruct (IHs t) as (tail_sub & Hsub & [_ Hne_sub Hp_sub]).
      destruct (IHs (b :: t)) as (tail_del & Hdel & [_ Hne_del Hp_del]).
      destruct IHt as (tail_ins & Hins & [_ Hne_ins Hp_ins]).
      rewrite paths_cons_cons, Hsub. cbn [mbind option_bind].
      destruct (branch_paths (sub_cell costs a b) tail_sub (opt s t)
                  s t (a :: s) (b :: t))
        as (new_sub & -> & Hnew_sub & Hnewp_sub); [done..|]. cbn [mbind option_bind].
      rewrite Hdel. cbn [mbind option_bind].
      destruct (branch_paths (del_cell costs a) tail_del (opt s (b :: t))
                  s (b :: t) (a :: s) (b :: t))
        as (new_del & -> & Hnew_del & Hnewp_del); [done..|]. cbn [mbind option_bind].
      rewrite Hins. cbn [mbind option_bind].
      destruct (branch_paths (ins_cell costs b) tail_ins (opt (a :: s) t)
                  (a :: s) t (a :: s) (b :: t))
        as (new_ins & -> & Hnew_ins & Hnewp_ins); [done..|]. cbn [mbind option_bind].
      destruct (keep_optimal_paths just_one ((new_sub ++ new_del) ++ new_ins)
                  (opt (a :: s) (b :: t)) (a :: s) (b :: t))
        as (ps & -> & Hps & Hpsp & _).
      { by destruct new_sub. }
      { intros p [[Hp|Hp]%elem_of_app|Hp]%elem_of_app.
        - destruct (Hnewp_sub p Hp) as [? Hpath]. split; [done|].
          eexists. split; [done|]. rewrite opt_cost_cons_cons. simpl. lia.
        - destruct (Hnewp_del p Hp) as [? Hpath]. split; [done|].
          eexists. split; [done|]. rewrite opt_cost_cons_cons. simpl. lia.
        - destruct (Hnewp_ins p Hp) as [? Hpath]. split; [done|].
          eexists. split; [done|]. rewrite opt_cost_cons_cons. simpl. lia. }
      { destruct new_sub as [|p1 ?]; [done|].
        destruct new_del as [|p2 ?]; [done|].
        destruct new_ins as [|p3 ?]; [done|].
        destruct (Hnewp_sub p1) as [_ Hpath1]; [by left|].
        destruct (Hnewp_del p2) as [_ Hpath2]; [by left|].
        destruct (Hnewp_ins p3) as [_ Hpath3]; [by left|].
        assert (opt (a :: s) (b :: t) =
                  opt s t + xducer.this_cost (sub_cell costs a b) ∨
                opt (a :: s) (b :: t) =
                  opt s (b :: t) + xducer.this_cost (del_cell costs a) ∨
                opt (a :: s) (b :: t) =
                  opt (a :: s) t + xducer.this_cost (ins_cell costs b))
          as [Hm|[Hm|Hm]] by (rewrite opt_cost_cons_cons; simpl; lia).
        - exists p1. eexists. split; [|done].
          rewrite !elem_of_app. left. left. by left.
        - exists p2. eexists. split; [|done].
          rewrite !elem_of_app. left. right. by left.
        - exists p3. eexists. split; [|done].
          rewrite !elem_of_app. right. by left. }
      exists ps. split; [done|]. apply result_for_suffixes; auto.
Qed.

(** With [just_one], what is kept of one, and of three, candidates. *)
Lemma keep_first_of_one (p1 : list (@xducer.Cell E)) c1 :
  xducer.parse_cost p1 = Some c1 →
  keep_optimal true [p1] = Some [p1].
Proof.
  intros H1. unfold keep_optimal.
  rewrite (remove_suboptimal_minimum [p1] true c1); [|done|..].
  - cbv zeta. rewrite filter_cons_True by done. done.
  - intros p ->%list_elem_of_singleton. exists c1. split; [done|lia].
  - exists p1. split; [by left|done].
Qed.

Lemma keep_first_of_three (p1 p2 p3 : list (@xducer.Cell E)) c1 c2 c3 :
  xducer.parse_cost p1 = Some c1 →
  xducer.parse_cost p2 = Some c2 →
  xducer.parse_cost p3 = Some c3 →
  keep_optimal true [p1; p2; p3] =
  Some [if decide (c1 = Z.min (Z.min c1 c2) c3) then p1
        else if decide (c2 = Z.min (Z.min c1 c2) c3) then p2
        else p3].
Proof.
  intros H1 H2 H3. unfold keep_optimal.
  rewrite (remove_suboptimal_minimum [p1; p2; p3] true
             (Z.min (Z.min c1 c2) c3)); [|done|..].
  - cbv zeta. destruct (decide (c1 = Z.min (Z.min c1 c2) c3)) as [?|?].
    { rewrite filter_cons_True by (rewrite H1; congruence). done. }
    rewrite filter_cons_False by (rewrite H1; congruence).
    destruct (decide (c2 = Z.min (Z.min c1 c2) c3)) as [?|?].
    { rewrite filter_cons_True by (rewrite H2; congruence). done. }
    rewrite filter_cons_False by (rewrite H2; congruence).
    rewrite filter_cons_True by (rewrite H3; f_equal; lia). done.
  - intros p [-> | [-> | ->%list_elem_of_singleton]%elem_of_cons]%elem_of_cons;
      eexists; (split; [done|lia]).
  - destruct (decide (c1 = Z.min (Z.min c1 c2) c3)) as [<-|].
    { exists p1. split; [by left|done]. }
    destruct (decide (c2 = Z.min (Z.min c1 c2) c3)) as [<-|].
    { exists p2. split; [right; by left|done]. }
    exists p3. split; [right; right; by left|].
    rewrite H3. f_equal. lia.
Qed.

Lemma canonical_nil_cons b t :
  canonical costs [] (b :: t) =
  xducer.mkCell None (Some b) (xducer.insert costs b)
    (xducer.insert costs b + path_cost (canonical costs [] t))
  :: canonical costs [] t.
Proof. done. Qed.

Lemma canonical_cons_nil a s :
  canonical costs (a :: s) [] =
  xducer.mkCell (Some a) None (xducer.delete costs a)
    (xducer.delete costs a + path_cost (canonical costs s []))
  :: canonical costs s [].
Proof. done. Qed.

Lemma canonical_cons_cons a s b t :
  canonical costs (a :: s) (b :: t) =
  let by_sub := xducer.substitute costs a b
                + path_cost (canonical costs s t) in
  let by_del := xducer.delete costs a
                + path_cost (canonical costs s (b :: t)) in
  let by_ins := xducer.insert costs b
                + path_cost (canonical costs (a :: s) t) in
  let minimum := Z.min (Z.min by_sub by_del) by_ins in
  if decide (by_sub = minimum)
  then xducer.mkCell (Some a) (Some b) (xducer.substitute costs a b) by_sub
       :: canonical costs s t
  else if decide (by_del = minimum)
  then xducer.mkCell (Some a) None (xducer.delete costs a) by_del
       :: canonical costs s (b :: t)
  else xducer.mkCell None (Some b) (xducer.insert costs b) by_ins
       :: canonical costs (a :: s) t.
Proof. done. Qed.

(** With [just_one] the result is the canonical path, and no path at
    the end of both sequences. *)
Lemma paths_just_one s : ∀ t,
  ∃ ps, paths costs true s t = Some ps ∧
        suffixes ps = [canonical costs s t].
Proof.
  induction s as [|a s IHs]; intros t.
  - induction t as [|b t IHt]; [by exists []|].
    destruct IHt as (tail & Htail & Hcanon).
    destruct (paths_result true [] t) as (tail' & Htail' & [_ Hne Hpaths]).
    rewrite Htail in Htail'. injection Htail' as <-.
    rewrite paths_nil_cons, Htail. cbn [mbind option_bind].
    rewrite (prepend_suffixes _ tail (opt [] t)); [|done|done|].
    2:{ intros p Hp. by destruct (Hpaths p Hp). }
    rewrite Hcanon. cbn [fmap list_fmap mbind option_bind].
    destruct (Hpaths (canonical costs [] t)) as [_ _ Htot _ _];
      [rewrite Hcanon; by left|].
    erewrite keep_first_of_one by done.
    eexists. split; [done|].
    by rewrite canonical_nil_cons, Htot.
  - induction t as [|b t IHt].
    + destruct (IHs []) as (tail & Htail & Hcanon).
      destruct (paths_result true s []) as (tail' & Htail' & [_ Hne Hpaths]).
      rewrite Htail in Htail'. injection Htail' as <-.
      rewrite paths_cons_nil, Htail. cbn [mbind option_bind].
      rewrite (prepend_suffixes _ tail (opt s [])); [|done|done|].
      2:{ intros p Hp. by destruct (Hpaths p Hp). }
      rewrite Hcanon. cbn [fmap list_fmap mbind option_bind].
      destruct (Hpaths (canonical costs s [])) as [_ _ Htot _ _];
        [rewrite Hcanon; by left|].
      erewrite keep_first_of_one by done.
      eexists. split; [done|].
      by rewrite canonical_cons_nil, Htot.
    + destruct (IHs t) as (tail1 & Htail1 & Hcanon1).
      destruct (IHs (b :: t)) as (tail2 & Htail2 & Hcanon2).
      destruct IHt as (tail3 & Htail3 & Hcanon3).
      destruct (paths_result true s t) as (? & Heq & [_ Hne1 Hpaths1]).
      rewrite Htail1 in Heq. injection Heq as <-.
      destruct (paths_result true s (b :: t)) as (? & Heq & [_ Hne2 Hpaths2]).
      rewrite Htail2 in Heq. injection Heq as <-.
      destruct (paths_result true (a :: s) t) as (? & Heq & [_ Hne3 Hpaths3]).
      rewrite Htail3 in Heq. injection Heq as <-.
      rewrite paths_cons_cons, Htail1. cbn [mbind option_bind].
      rewrite (prepend_suffixes _ tail1 (opt s t)); [|done|done|].
      2:{ intros p Hp. by destruct (Hpaths1 p Hp). }
      cbn [mbind option_bind]. rewrite Htail2. cbn [mbind option_bind].
      rewrite (prepend_suffixes _ tail2 (opt s (b :: t))); [|done|done|].
      2:{ intros p Hp. by destruct (Hpaths2 p Hp). }
      cbn [mbind option_bind]. rewrite Htail3. cbn [mbind option_bind].
      rewrite (prepend_suffixes _ tail3 (opt (a :: s) t)); [|done|done|].
      2:{ intros p Hp. by destruct (Hpaths3 p Hp). }
      cbn [mbind option_bind].
      rewrite Hcanon1, Hcanon2, Hcanon3. cbn [fmap list_fmap app].
      destruct (Hpaths1 (canonical costs s t)) as [_ _ Htot1 _ _];
        [rewrite Hcanon1; by left|].
      destruct (Hpaths2 (canonical costs s (b :: t))) as [_ _ Htot2 _ _];
        [rewrite Hcanon2; by left|].
      destruct (Hpaths3 (canonical costs (a :: s) t)) as [_ _ Htot3 _ _];
        [rewrite Hcanon3; by left|].
      erewrite keep_first_of_three by done.
      eexists. split; [done|].
      rewrite canonical_cons_cons.
      cbv zeta. rewrite Htot1, Htot2, Htot3.
      unfold with_suffix, sub_cell, del_cell, ins_cell.
      cbn [xducer.cumul_cost xducer.this_cost xducer.cell_source
           xducer.cell_target suffixes].
      repeat case_decide; done.
Qed.

End parses.

(** ** xducer.py: a call from the origin *)
Section relate_from_origin.
Context {E : Type} `{EqDecision E}.
Variable s t : list E.
Variable costs : @xducer.CostFunctions E.
Variable just_one : bool.

(** [relate(arguments(s, t, costs, just_one))], with enough fuel. *)
Lemma relate_from_origin fuel :
  (length s + length t < fuel)%nat →
  ∃ ps memory,
    xducer.relate fuel (xducer.arguments s t costs just_one).1
      (xducer.arguments s t costs just_one).2 None = Some (ps, memory) ∧
    paths costs just_one s t = Some ps ∧
    result_for costs s t ps.
Proof.
  intros Hfuel.
  destruct (paths_result costs just_one s t) as (ps & Hps & Hres).
  destruct (relate_expected (xducer.mkArguments s t costs just_one) fuel
              ∅ 0%nat 0%nat ps) as (memory & Hrel & _).
  - apply memo_ok_empty.
  - simpl. lia.
  - simpl. lia.
  - simpl. lia.
  - done.
  - exists ps, memory. split; [|done].
    destruct fuel; [lia|]. exact Hrel.
Qed.

End relate_from_origin.

(** ** chart.py: a call of [levenshtein] *)
Section levenshtein_call.
Context {E Char : Type} `{EqDecision E}.
Variable str : E → list Char.
Variable is_mark : Char → bool.
Variable s t : list E.
Variable ins del : E → Z.
Variable sub : E → E → Z.

Lemma greatest_width_nil : chart.greatest_width str is_mark [] = None.
Proof. done. Qed.

Lemma greatest_width_cons e l :
  is_Some (chart.greatest_width str is_mark (e :: l)).
Proof. by eexists. Qed.

Lemma levenshtein_empty_source matrix :
  chart.levenshtein str is_mark [] t ins del sub matrix = None.
Proof. done. Qed.

Lemma levenshtein_empty_target matrix :
  chart.levenshtein str is_mark s [] ins del sub matrix = None.
Proof.
  unfold chart.levenshtein. by destruct (chart.greatest_width str is_mark s).
Qed.

(** What a successful call returns. *)
Lemma levenshtein_returns matrix analysis matrix' :
  origin_cell matrix →
  chart.levenshtein str is_mark s t ins del sub matrix
    = Some (analysis, matrix') →
  chart.source analysis = s ∧ chart.target analysis = t ∧
  chart.ins_cost analysis = ins ∧ chart.del_cost analysis = del ∧
  chart.sub_cost analysis = sub ∧
  chart.greatest_width str is_mark s = Some (chart.source_widest analysis) ∧
  chart.greatest_width str is_mark t = Some (chart.target_widest analysis) ∧
  known analysis matrix'
    (λ i j, (i ≤ length t)%nat ∧ (j ≤ length s)%nat).
Proof.
  intros Horigin. unfold chart.levenshtein.
  destruct (chart.greatest_width str is_mark s) as [ws|]; [|done].
  destruct (chart.greatest_width str is_mark t) as [wt|]; [|done].
  cbn [mbind option_bind].
  destruct (compute_min_edit_distance_known
              (chart.mkPairAnalysis s ws t wt ins del sub) matrix Horigin)
    as (m & -> & Hknown).
  cbn [mbind option_bind]. intros [= <- <-]. done.
Qed.

(** The call succeeds exactly when neither sequence is empty. *)
Lemma levenshtein_succeeds matrix :
  origin_cell matrix → s ≠ [] → t ≠ [] →
  ∃ analysis matrix',
    chart.levenshtein str is_mark s t ins del sub matrix
      = Some (analysis, matrix').
Proof.
  intros Horigin Hs Ht. unfold chart.levenshtein.
  destruct s as [|a s']; [done|]. destruct t as [|b t']; [done|].
  destruct (greatest_width_cons a s') as [ws ->].
  destruct (greatest_width_cons b t') as [wt ->].
  cbn [mbind option_bind].
  destruct (compute_min_edit_distance_known
              (chart.mkPairAnalysis (a :: s') ws (b :: t') wt ins del sub)
              matrix Horigin) as (m & -> & _).
  by eexists _, _.
Qed.

Lemma levenshtein_keeps_origin matrix analysis matrix' :
  origin_cell matrix →
  chart.levenshtein str is_mark s t ins del sub matrix
    = Some (analysis, matrix') →
  origin_cell matrix'.
Proof.
  intros Horigin Hcall.
  destruct (levenshtein_returns _ _ _ Horigin Hcall)
    as (_ & _ & _ & _ & _ & _ & _ & Hknown).
  apply (Hknown 0%nat 0%nat). split; lia.
Qed.

Lemma min_edit_distance_optimal analysis matrix :
  chart.source analysis = s → chart.target analysis = t →
  chart.ins_cost analysis = ins → chart.del_cost analysis = del →
  chart.sub_cost analysis = sub →
  known analysis matrix (λ i j, (i ≤ length t)%nat ∧ (j ≤ length s)%nat) →
  chart.min_edit_distance analysis matrix = Some (opt_cost ins del sub s t).
Proof.
  intros Hs Ht Hi Hd Hsub Hknown. unfold chart.min_edit_distance.
  rewrite (Hknown (length (chart.target analysis))
             (length (chart.source analysis))) by (rewrite Hs, Ht; lia).
  cbn [mbind option_bind].
  rewrite expected_cell_cumulative by lia.
  by rewrite prefix_cost_corner, Hs, Ht, Hi, Hd, Hsub.
Qed.

End levenshtein_call.

(** ** levenshtein.py: the same matrix, with fewer fields

    The engine object of [levenshtein.py] fills a private dict with the
    cumulative cost and the tag of each cell that [chart.py] computes from
    a matrix holding the origin only. *)
Section levenshtein_py.
Context {E Char : Type} `{EqDecision E}.
Variable str : E → list Char.
Variable is_mark : Char → bool.
Variable ins del : E → Z.
Variable sub : E → E → Z.

Lemma for_each_simulation {A B S1 S2 : Type} (R : S1 → S2 → Prop)
    (Q : A → B → Prop) (l1 : list A) (l2 : list B)
    (body1 : A → S1 → option S1) (body2 : B → S2 → option S2) :
  Forall2 Q l1 l2 →
  (∀ x y st1 st1' st2, Q x y → R st1 st2 → body1 x st1 = Some st1' →
     ∃ st2', body2 y st2 = Some st2' ∧ R st1' st2') →
  ∀ st1 st1' st2, R st1 st2 → for_each l1 body1 st1 = Some st1' →
    ∃ st2', for_each l2 body2 st2 = Some st2' ∧ R st1' st2'.
Proof.
  intros Hl Hbody. induction Hl as [|x y l1 l2 Hxy _ IH];
    intros st1 st1' st2 HR Hrun; simpl in *.
  - injection Hrun as <-. eauto.
  - destruct (body1 x st1) as [st1m|] eqn:Hb1; [|done]. simpl in Hrun.
    destruct (Hbody _ _ _ _ _ Hxy HR Hb1) as (st2m & -> & HRm). simpl.
    by eapply IH.
Qed.

Lemma enumerate1_enumerate (l : list E) :
  Forall2 (λ p q, p.1 = S q.1 ∧ p.2 = q.2) (chart.enumerate1 l) (imap pair l).
Proof.
  apply Forall2_same_length_lookup. split.
  - unfold chart.enumerate1. by rewrite !length_imap.
  - intros k p q. unfold chart.enumerate1. rewrite !list_lookup_imap.
    destruct (l !! k); [|done]. by intros [= <-] [= <-].
Qed.

Lemma make_edited_cell_ins_eq (analysis : @chart.PairAnalysis E) matrix i j b :
  chart.make_edited_cell analysis matrix (S i, j) None (Some b) =
  before ← matrix !! (i, j);
  Some (chart.mkCell (chart.ins_cost analysis b)
          (chart.cumulative_cost before + chart.ins_cost analysis b) chart.INS).
Proof.
  unfold chart.make_edited_cell; simpl. rewrite !Nat.sub_0_r.
  by destruct (matrix !! (i, j)).
Qed.

Lemma make_edited_cell_del_eq (analysis : @chart.PairAnalysis E) matrix i j a :
  chart.make_edited_cell analysis matrix (i, S j) (Some a) None =
  before ← matrix !! (i, j);
  Some (chart.mkCell (chart.del_cost analysis a)
          (chart.cumulative_cost before + chart.del_cost analysis a) chart.DEL).
Proof.
  unfold chart.make_edited_cell; simpl. rewrite !Nat.sub_0_r.
  by destruct (matrix !! (i, j)).
Qed.

Lemma make_edited_cell_sub_eq (analysis : @chart.PairAnalysis E) matrix i j a b :
  chart.make_edited_cell analysis matrix (S i, S j) (Some a) (Some b) =
  before ← matrix !! (i, j);
  Some (chart.mkCell (chart.sub_cost analysis a b)
          (chart.cumulative_cost before + chart.sub_cost analysis a b) chart.SUB).
Proof.
  unfold chart.make_edited_cell; simpl. rewrite !Nat.sub_0_r.
  by destruct (matrix !! (i, j)).
Qed.

Lemma projects_lookup matrix distance c :
  projects matrix distance → distance !! c = lev_cell <$> matrix !! c.
Proof. intros ->. apply lookup_fmap. Qed.

Lemma projects_insert matrix distance c cell :
  projects matrix distance →
  projects (<[c := cell]> matrix) (<[c := lev_cell cell]> distance).
Proof. intros ->. unfold projects. by rewrite fmap_insert. Qed.

Ltac project_insert :=
  match goal with
  | |- projects (<[_ := ?c]> _) _ =>
    replace (levenshtein.mkCell _ _) with (lev_cell c);
      [by apply projects_insert|]
  end.

Lemma compute_simulation (self : @levenshtein.Levenshtein E)
    (analysis : @chart.PairAnalysis E) matrix :
  chart.source analysis = levenshtein.sequence1 self →
  chart.target analysis = levenshtein.sequence2 self →
  chart.ins_cost analysis = ins → chart.del_cost analysis = del →
  chart.sub_cost analysis = sub →
  chart.compute_min_edit_distance analysis chart.default_matrix = Some matrix →
  ∃ d,
    levenshtein._compute_min_edit_distance ins del sub self =
    Some (d, levenshtein.mkLevenshtein (levenshtein.sequence1 self)
               (levenshtein.sequence2 self) (Some (lev_cell <$> matrix))
               (levenshtein.widest_sequence1_char self)
               (levenshtein.widest_sequence2_char self)) ∧
    chart.min_edit_distance analysis matrix = Some d.
Proof.
  intros Hs Ht Hi Hd Hsub Hrun.
  destruct (compute_min_edit_distance_known analysis chart.default_matrix)
    as (m' & Hm' & Hknown); [done|].
  rewrite Hrun in Hm'. injection Hm' as <-.
  revert Hrun. unfold chart.compute_min_edit_distance.
  unfold levenshtein._compute_min_edit_distance. rewrite Hs, Ht.
  intros Hrun.
  match type of Hrun with
  | for_each ?l ?body ?st ≫= _ = _ =>
    destruct (for_each l body st) as [m1|] eqn:Hrun1; [|done]
  end.
  cbn [mbind option_bind] in Hrun.
  match type of Hrun with
  | for_each ?l ?body ?st ≫= _ = _ =>
    destruct (for_each l body st) as [m2|] eqn:Hrun2; [|done]
  end.
  cbn [mbind option_bind] in Hrun.
  (* the target margin *)
  eapply (for_each_simulation projects _ _ _ _ _
            (enumerate1_enumerate (levenshtein.sequence2 self))) in Hrun1
    as (d1 & -> & Hd1); [| |by unfold projects, chart.default_matrix;
                               rewrite map_fmap_singleton].
  2:{ intros [k1 x] [k0 y] st1 st1' st2 [Hk Hxy] HR. simpl in Hk, Hxy.
      subst k1 y. rewrite make_edited_cell_ins_eq.
      rewrite (projects_lookup _ _ _ HR).
      destruct (st1 !! (k0, 0%nat)) as [before|]; [|done]. simpl.
      intros [= <-]. eexists. split; [done|].
      rewrite Nat.add_1_r, Hi. project_insert. done. }
  cbn [mbind option_bind].
  (* the source margin *)
  eapply (for_each_simulation projects _ _ _ _ _
            (enumerate1_enumerate (levenshtein.sequence1 self))) in Hrun2
    as (d2 & -> & Hd2); [| |exact Hd1].
  2:{ intros [k1 x] [k0 y] st1 st1' st2 [Hk Hxy] HR. simpl in Hk, Hxy.
      subst k1 y. rewrite make_edited_cell_del_eq.
      rewrite (projects_lookup _ _ _ HR).
      destruct (st1 !! (0%nat, k0)) as [before|]; [|done]. simpl.
      intros [= <-]. eexists. split; [done|].
      rewrite Nat.add_1_r, Hd. project_insert. done. }
  cbn [mbind option_bind].
  (* the body *)
  eapply (for_each_simulation projects _ _ _ _ _
            (enumerate1_enumerate (levenshtein.sequence2 self))) in Hrun
    as (d3 & -> & Hd3); [| |exact Hd2].
  2:{ intros [i1 b] [i0 y] st1 st1' st2 [Hk Hxy] HR. simpl in Hk, Hxy.
      subst i1 y. intros Hinner.
      eapply (for_each_simulation projects _ _ _ _ _
                (enumerate1_enumerate (levenshtein.sequence1 self))) in Hinner
        as (d' & Hd' & HR'); [by eauto| |exact HR].
      intros [j1 a] [j0 y] m m' d [Hk Hxy] HRm. simpl in Hk, Hxy.
      subst j1 y.
      rewrite make_edited_cell_ins_eq, make_edited_cell_sub_eq,
        make_edited_cell_del_eq.
      rewrite !Nat.add_1_r, !(projects_lookup _ _ _ HRm).
      destruct (m !! (i0, S j0)) as [above|]; [|done].
      destruct (m !! (i0, j0)) as [diagonal|]; [|done].
      destruct (m !! (S i0, j0)) as [left|]; [|done].
      simpl. rewrite Hi, Hd, Hsub. intros [= <-].
      eexists. split; [done|].
      project_insert. unfold lev_cell. repeat case_decide; simpl in *; f_equal; lia. }
  cbn [mbind option_bind]. unfold projects in Hd3. subst d3.
  unfold levenshtein.min_edit_distance, chart.min_edit_distance.
  cbn [levenshtein.distance levenshtein.sequence1 levenshtein.sequence2
       mbind option_bind].
  rewrite lookup_fmap, Hs, Ht.
  rewrite <-Hs, <-Ht, (Hknown _ _ (conj (le_n _) (le_n _))).
  simpl. by eexists.
Qed.

Lemma alignment_loop_simulation (self : @levenshtein.Levenshtein E)
    (analysis : @chart.PairAnalysis E)
    (matrix : gmap (nat * nat) chart.Cell) fuel :
  chart.source analysis = levenshtein.sequence1 self →
  chart.target analysis = levenshtein.sequence2 self →
  ∀ position1 position2 (backtrace : list (@chart.EditStep E)),
    levenshtein.alignment_loop fuel self (Some (lev_cell <$> matrix))
      position1 position2 (unit_of <$> backtrace) =
    (fmap (M:=list) unit_of) <$>
      chart.backtrace_loop fuel analysis matrix position1 position2 backtrace.
Proof.
  intros Hs Ht. induction fuel as [|fuel IH]; intros j i bt.
  - by destruct j, i.
  - destruct j as [|j], i as [|i]; simpl; [done|..];
      rewrite lookup_fmap; (destruct (matrix !! _) as [c|]; [|done]); simpl;
      destruct (chart.operation c); simpl; try done;
      rewrite <-?Hs, <-?Ht;
      repeat match goal with
             | |- context [?l !! ?k ≫= _] =>
               destruct (l !! k); simpl; [|done]
             end;
      match goal with
      | |- _ = _ <$> chart.backtrace_loop _ _ _ ?j' ?i' (?st :: _) =>
        exact (IH j' i' (st :: bt))
      end.
Qed.

(** [set_pair] on any engine object: the value it returns and the state it
    leaves, in terms of the matrix of [chart.py]. *)
Lemma set_pair_simulation (self : @levenshtein.Levenshtein E) s t :
  ∃ matrix,
    chart.compute_min_edit_distance (chart.mkPairAnalysis s 0 t 0 ins del sub)
      chart.default_matrix = Some matrix ∧
    known (chart.mkPairAnalysis s 0 t 0 ins del sub) matrix
      (λ i j, (i ≤ length t)%nat ∧ (j ≤ length s)%nat) ∧
    levenshtein.set_pair str is_mark ins del sub self s t =
    Some (opt_cost ins del sub s t,
          levenshtein.mkLevenshtein s t (Some (lev_cell <$> matrix))
            (Some (levenshtein.greatest_width str is_mark s))
            (Some (levenshtein.greatest_width str is_mark t))).
Proof.
  destruct (compute_min_edit_distance_known
              (chart.mkPairAnalysis s 0 t 0 ins del sub) chart.default_matrix)
    as (matrix & Hrun & Hknown); [done|].
  exists matrix. split; [done|]. split; [done|].
  unfold levenshtein.set_pair.
  destruct (compute_simulation
              (levenshtein.mkLevenshtein s t (levenshtein.distance self)
                 (Some (levenshtein.greatest_width str is_mark s))
                 (Some (levenshtein.greatest_width str is_mark t)))
              (chart.mkPairAnalysis s 0 t 0 ins del sub) matrix)
    as (d & -> & Hd); [done..|].
  rewrite (min_edit_distance_optimal s t ins del sub) in Hd by done.
  by injection Hd as <-.
Qed.

(** [alignment_facts] after [set_pair]: the backtrace of [chart.py], each
    step with the cumulative cost of its cell. *)
Lemma alignment_facts_simulation (self : @levenshtein.Levenshtein E) s t :
  ∃ d self' matrix steps,
    levenshtein.set_pair str is_mark ins del sub self s t = Some (d, self') ∧
    d = opt_cost ins del sub s t ∧
    levenshtein.sequence1 self' = s ∧ levenshtein.sequence2 self' = t ∧
    levenshtein.distance self' = Some (lev_cell <$> matrix) ∧
    known (chart.mkPairAnalysis s 0 t 0 ins del sub) matrix
      (λ i j, (i ≤ length t)%nat ∧ (j ≤ length s)%nat) ∧
    chart.get_one_backtrace (chart.mkPairAnalysis s 0 t 0 ins del sub) matrix
      = Some steps ∧
    traced (chart.mkPairAnalysis s 0 t 0 ins del sub) (length t) (length s)
      steps ∧
    levenshtein.alignment_facts self' = Some (unit_of <$> steps).
Proof.
  destruct (set_pair_simulation self s t) as (matrix & _ & Hknown & Hset).
  destruct (get_one_backtrace_traced
              (chart.mkPairAnalysis s 0 t 0 ins del sub) matrix Hknown)
    as (steps & Hbt & Htraced).
  eexists _, _, matrix, steps. split; [exact Hset|].
  split_and!; [done..|].
  unfold levenshtein.alignment_facts.
  cbn [levenshtein.distance levenshtein.sequence1 levenshtein.sequence2
       mbind option_bind].
  change (@nil (@levenshtein.AlignmentUnit E))
    with (unit_of <$> (@nil (@chart.EditStep E))).
  rewrite (alignment_loop_simulation _
             (chart.mkPairAnalysis s 0 t 0 ins del sub)) by done.
  unfold chart.get_one_backtrace in Hbt. simpl in Hbt. by rewrite Hbt.
Qed.

End levenshtein_py.

(** ** xducer.py: one of the sequences is empty *)
Section one_sequence_empty.
Context {E : Type}.
Variable costs : @xducer.CostFunctions E.
Variable just_one : bool.

Lemma keep_only_candidate (p1 : list (@xducer.Cell E)) c1 :
  xducer.parse_cost p1 = Some c1 →
  keep_optimal just_one [p1] = Some [p1].
Proof.
  intros H1. unfold keep_optimal.
  rewrite (remove_suboptimal_minimum [p1] just_one c1); [|done|..].
  - cbv zeta. rewrite filter_cons_True by done. by destruct just_one.
  - intros p ->%list_elem_of_singleton. exists c1. split; [done|lia].
  - exists p1. split; [by left|done].
Qed.

Lemma paths_empty_source b t :
  paths costs just_one [] (b :: t) = Some [canonical costs [] (b :: t)].
Proof.
  revert b. induction t as [|b' t IH]; intros b.
  - rewrite paths_nil_cons, paths_nil_nil. cbn [mbind option_bind prepend].
    erewrite keep_only_candidate by done. rewrite canonical_nil_cons.
    do 3 f_equal. unfold ins_cell. f_equal.
    change (path_cost (canonical costs [] [])) with 0. lia.
  - rewrite paths_nil_cons, IH. cbn [mbind option_bind prepend mapM].
    rewrite canonical_nil_cons at 1. cbn [mbind option_bind mret option_ret
      xducer.parse_cost lookup list_lookup xducer.cumul_cost].
    erewrite keep_only_candidate by done.
    rewrite (canonical_nil_cons _ b (b' :: t)). reflexivity.
Qed.

Lemma paths_empty_target a s :
  paths costs just_one (a :: s) [] = Some [canonical costs (a :: s) []].
Proof.
  revert a. induction s as [|a' s IH]; intros a.
  - rewrite paths_cons_nil, paths_nil_nil. cbn [mbind option_bind prepend].
    erewrite keep_only_candidate by done. rewrite canonical_cons_nil.
    do 3 f_equal. unfold del_cell. f_equal.
    change (path_cost (canonical costs [] [])) with 0. lia.
  - rewrite paths_cons_nil, IH. cbn [mbind option_bind prepend mapM].
    rewrite canonical_cons_nil at 1. cbn [mbind option_bind mret option_ret
      xducer.parse_cost lookup list_lookup xducer.cumul_cost].
    erewrite keep_only_candidate by done.
    rewrite (canonical_cons_nil _ a (a' :: s)). reflexivity.
Qed.

(** The steps of the canonical path when one sequence is empty. *)
Lemma canonical_all_inserts t :
  xducer.cell_source <$> canonical costs [] t = (λ _, None) <$> t ∧
  xducer.cell_target <$> canonical costs [] t = Some <$> t ∧
  xducer.this_cost <$> canonical costs [] t = xducer.insert costs <$> t.
Proof.
  induction t as [|b t (IH1 & IH2 & IH3)]; [done|].
  rewrite canonical_nil_cons, !fmap_cons, IH1, IH2, IH3. done.
Qed.

Lemma canonical_all_deletes s :
  xducer.cell_source <$> canonical costs s [] = Some <$> s ∧
  xducer.cell_target <$> canonical costs s [] = (λ _, None) <$> s ∧
  xducer.this_cost <$> canonical costs s [] = xducer.delete costs <$> s.
Proof.
  induction s as [|a s (IH1 & IH2 & IH3)]; [done|].
  rewrite canonical_cons_nil, !fmap_cons, IH1, IH2, IH3. done.
Qed.

End one_sequence_empty.

(** ** Non-negative costs, and a sequence against itself *)
Section nonnegative_costs.
Context {E : Type}.
Variable ins del : E → Z.
Variable sub : E → E → Z.
Hypothesis ins_nonneg : ∀ b, 0 ≤ ins b.
Hypothesis del_nonneg : ∀ a, 0 ≤ del a.
Hypothesis sub_nonneg : ∀ a b, 0 ≤ sub a b.
Hypothesis sub_same : ∀ a, sub a a = 0.

Lemma align_nonneg s t c : align ins del sub s t c → 0 ≤ c.
Proof.
  induction 1 as [|a b s t c _ IH|a s t c _ IH|b s t c _ IH]; [done|..].
  - pose proof (sub_nonneg a b). lia.
  - pose proof (del_nonneg a). lia.
  - pose proof (ins_nonneg b). lia.
Qed.

Lemma opt_cost_nonneg s t : 0 ≤ opt_cost ins del sub s t.
Proof. eapply align_nonneg, opt_cost_attained. Qed.

Lemma align_self s : align ins del sub s s 0.
Proof.
  induction s as [|a s IH]; [constructor|].
  replace 0 with (0 + sub a a) by (rewrite sub_same; lia). by constructor.
Qed.

Lemma opt_cost_self s : opt_cost ins del sub s s = 0.
Proof.
  apply Z.le_antisymm; [|apply opt_cost_nonneg].
  apply opt_cost_least, align_self.
Qed.

Lemma prefix_cost_nonneg s t i j : 0 ≤ prefix_cost s t ins del sub i j.
Proof. apply opt_cost_nonneg. Qed.

Lemma prefix_cost_diagonal s k : prefix_cost s s ins del sub k k = 0.
Proof. apply opt_cost_self. Qed.

Lemma expected_cell_diagonal s k a :
  s !! k = Some a →
  expected_cell s s ins del sub (S k) (S k) = chart.mkCell 0 0 chart.SUB.
Proof.
  intros Ha. cbn [expected_cell]. rewrite Ha. cbv zeta.
  rewrite prefix_cost_diagonal, sub_same.
  pose proof (prefix_cost_nonneg s s k (S k)).
  pose proof (prefix_cost_nonneg s s (S k) k).
  pose proof (ins_nonneg a). pose proof (del_nonneg a).
  rewrite decide_True by lia. done.
Qed.

End nonnegative_costs.

Section self_identity.
Context {E : Type} `{EqDecision E}.
Variable analysis : @chart.PairAnalysis E.
Variable matrix : gmap (nat * nat) chart.Cell.
Variable s : list E.
Hypothesis analysis_source : chart.source analysis = s.
Hypothesis analysis_target : chart.target analysis = s.
Hypothesis analysis_ins : chart.ins_cost analysis = chart.lev_ins_function.
Hypothesis analysis_del : chart.del_cost analysis = chart.lev_del_function.
Hypothesis analysis_sub : chart.sub_cost analysis = chart.lev_sub_function.
Hypothesis matrix_known :
  known analysis matrix
    (λ i j, (i ≤ length s)%nat ∧ (j ≤ length s)%nat).

Lemma lev_sub_function_same (a : E) : chart.lev_sub_function a a = 0.
Proof. unfold chart.lev_sub_function. by rewrite decide_True. Qed.

Lemma lev_sub_function_nonneg (a b : E) : 0 ≤ chart.lev_sub_function a b.
Proof. unfold chart.lev_sub_function. case_decide; lia. Qed.

Lemma backtrace_loop_diagonal k : ∀ fuel backtrace,
  (k ≤ length s)%nat → (2 * k ≤ fuel)%nat →
  ∃ steps,
    chart.backtrace_loop fuel analysis matrix k k backtrace
      = Some (steps ++ backtrace) ∧
    length steps = k ∧ Forall keeps_element steps.
Proof.
  induction k as [|k IH]; intros fuel bt Hk Hfuel.
  - exists []. split; [by destruct fuel|]. by split.
  - destruct fuel as [|fuel]; [lia|].
    destruct (lookup_lt_is_Some_2 s k) as [a Ha]; [lia|].
    cbn [chart.backtrace_loop].
    rewrite (matrix_known (S k) (S k)) by (split; lia).
    cbn [mbind option_bind].
    rewrite analysis_source, analysis_target, analysis_ins, analysis_del,
      analysis_sub.
    rewrite (expected_cell_diagonal chart.lev_ins_function
               chart.lev_del_function chart.lev_sub_function
               (λ _, Z.le_0_1) (λ _, Z.le_0_1)
               lev_sub_function_nonneg lev_sub_function_same s k a Ha).
    cbn [chart.operation]. rewrite Ha. cbn [mbind option_bind].
    destruct (IH fuel (chart.mkEditStep (Some a) (Some a)
                         (chart.mkCell 0 0 chart.SUB) :: bt))
      as (steps & -> & Hlen & Hall); [lia..|].
    exists (steps ++ [chart.mkEditStep (Some a) (Some a)
                        (chart.mkCell 0 0 chart.SUB)]).
    split; [by rewrite <-app_assoc|]. split.
    + rewrite length_app. simpl. lia.
    + apply Forall_app. split; [done|]. constructor; [|done].
      split; [done|]. split; [done|]. by exists a.
Qed.

Lemma get_one_backtrace_self :
  ∃ steps, chart.get_one_backtrace analysis matrix = Some steps ∧
           length steps = length s ∧ Forall keeps_element steps.
Proof.
  unfold chart.get_one_backtrace.
  rewrite analysis_source, analysis_target. cbv zeta.
  destruct (backtrace_loop_diagonal (length s) (length s + length s) [])
    as (steps & Hrun & Hlen & Hall); [lia..|].
  exists steps. by rewrite app_nil_r in Hrun.
Qed.

End self_identity.

(** ** chart.py: the steps of the backtrace *)
Section backtrace_steps.
Context {E : Type} `{EqDecision E}.
Variable analysis : @chart.PairAnalysis E.
Variable matrix : gmap (nat * nat) chart.Cell.
Hypothesis matrix_known :
  known analysis matrix
    (λ i j, (i ≤ length (chart.target analysis))%nat ∧
            (j ≤ length (chart.source analysis))%nat).

Abbreviation costed :=
  (costed_step (chart.ins_cost analysis) (chart.del_cost analysis)
     (chart.sub_cost analysis)).

Lemma backtrace_loop_costed fuel : ∀ i j backtrace steps,
  (i ≤ length (chart.target analysis))%nat →
  (j ≤ length (chart.source analysis))%nat →
  chart.backtrace_loop fuel analysis matrix j i backtrace = Some steps →
  Forall costed backtrace → Forall costed steps.
Proof.
  induction fuel as [|fuel IH]; intros i j bt steps Hi Hj Hrun Hbt.
  - destruct j, i; simpl in Hrun; [by injection Hrun as <-|done..].
  - destruct (decide (i = 0%nat ∧ j = 0%nat)) as [[-> ->]|Hpos].
    { simpl in Hrun. by injection Hrun as <-. }
    pose proof (expected_cell_operation analysis i j (conj Hi Hj)) as Hop.
    assert (matrix !! (i, j) = Some (cell_at analysis i j)) as Hcell
      by (by apply matrix_known).
    remember (cell_at analysis i j) as c eqn:Hc.
    destruct j as [|j], i as [|i]; [lia|..]; cbn [chart.backtrace_loop] in Hrun;
      rewrite Hcell in Hrun; cbn [mbind option_bind] in Hrun;
      destruct (chart.operation c) eqn:Htag;
      repeat match type of Hrun with
             | context [?l !! ?k ≫= _] =>
               destruct (l !! k) eqn:?; cbn [mbind option_bind] in Hrun
             end; try done;
      try (destruct Hop as [? ?]; lia);
      (eapply IH; [| |exact Hrun|]; [lia..|]); constructor; try done;
      unfold costed_step; cbn [chart.step_source chart.step_target chart.cell].
    + destruct Hop as (i' & b & [= <-] & Hb & ->). split; [done|].
      simpl. congruence.
    + destruct Hop as (j' & a & [= <-] & Ha & ->). split; [done|].
      simpl. congruence.
    + destruct Hop as (i' & b & [= <-] & Hb & ->). split; [done|].
      simpl. congruence.
    + destruct Hop as (j' & a & [= <-] & Ha & ->). split; [done|].
      simpl. congruence.
    + destruct Hop as (i' & j' & a & b & [= <-] & [= <-] & Ha & Hb & ->).
      split; [done|]. simpl. congruence.
Qed.

Lemma get_one_backtrace_costed steps :
  chart.get_one_backtrace analysis matrix = Some steps →
  Forall costed steps.
Proof.
  intros Hrun. by eapply backtrace_loop_costed.
Qed.

End backtrace_steps.

Lemma costed_steps_length {E : Type} (ins del : E → Z) (sub : E → E → Z)
    (steps : list (@chart.EditStep E)) :
  Forall (costed_step ins del sub) steps →
  (length steps ≤ length (omap chart.step_source steps)
                  + length (omap chart.step_target steps))%nat ∧
  (length (omap chart.step_source steps) ≤ length steps)%nat ∧
  (length (omap chart.step_target steps) ≤ length steps)%nat.
Proof.
  induction 1 as [|st steps Hst _ IH]; [simpl; lia|].
  unfold costed_step in Hst. cbn [omap list_omap].
  destruct (chart.step_source st), (chart.step_target st);
    simpl; try done; lia.
Qed.


Section backtrace_costs.
Context {E : Type} `{EqDecision E}.
Variable analysis : @chart.PairAnalysis E.
Variable matrix : gmap (nat * nat) chart.Cell.
Hypothesis matrix_known :
  known analysis matrix
    (λ i j, (i ≤ length (chart.target analysis))%nat ∧
            (j ≤ length (chart.source analysis))%nat).

(** The loop puts every cell in front of the steps that follow it, and
    the cell adds its own cost to the cumulative cost of the cell it was
    computed from, which is the cell the loop reads next. *)
Lemma backtrace_loop_running fuel : ∀ i j backtrace steps,
  (i ≤ length (chart.target analysis))%nat →
  (j ≤ length (chart.source analysis))%nat →
  chart.backtrace_loop fuel analysis matrix j i backtrace = Some steps →
  running_costs (cost_at analysis i j) backtrace → running_costs 0 steps.
Proof.
  induction fuel as [|fuel IH]; intros i j bt steps Hi Hj Hrun Hbt.
  - destruct j, i; simpl in Hrun; [by injection Hrun as <-|done..].
  - destruct (decide (i = 0%nat ∧ j = 0%nat)) as [[-> ->]|Hpos].
    { simpl in Hrun. by injection Hrun as <-. }
    pose proof (expected_cell_operation analysis i j (conj Hi Hj)) as Hop.
    pose proof (expected_cell_cumulative _ _ (chart.ins_cost analysis)
                  (chart.del_cost analysis) (chart.sub_cost analysis)
                  i j Hi Hj) as Hcum.
    assert (matrix !! (i, j) = Some (cell_at analysis i j)) as Hcell
      by (by apply matrix_known).
    remember (cell_at analysis i j) as c eqn:Hc.
    rewrite <-Hcum in Hbt.
    destruct j as [|j], i as [|i]; [lia|..]; cbn [chart.backtrace_loop] in Hrun;
      rewrite Hcell in Hrun; cbn [mbind option_bind] in Hrun;
      destruct (chart.operation c) eqn:Htag;
      repeat match type of Hrun with
             | context [?l !! ?k ≫= _] =>
               destruct (l !! k) eqn:?; cbn [mbind option_bind] in Hrun
             end; try done;
      try (destruct Hop as [? ?]; lia);
      (eapply IH; [| |exact Hrun|]; [lia..|]);
      (split; [|done]); cbn [chart.cell].
    + destruct Hop as (i' & b & [= <-] & Hb & ->). done.
    + destruct Hop as (j' & a & [= <-] & Ha & ->). done.
    + destruct Hop as (i' & b & [= <-] & Hb & ->). done.
    + destruct Hop as (j' & a & [= <-] & Ha & ->). done.
    + destruct Hop as (i' & j' & a & b & [= <-] & [= <-] & Ha & Hb & ->).
      done.
Qed.

Lemma get_one_backtrace_running steps :
  chart.get_one_backtrace analysis matrix = Some steps →
  running_costs 0 steps.
Proof.
  intros Hrun. by eapply backtrace_loop_running.
Qed.

End backtrace_costs.

(** The costs [Levenshtein.alignment] prints, the differences of the
    cumulative costs, are the incremental costs of the steps. *)
Lemma printed_costs_running {E : Type} (steps : list (@chart.EditStep E))
    (before : Z) :
  running_costs before steps →
  levenshtein.printed_costs before (unit_of <$> steps)
  = (λ st, chart.this_cost (chart.cell st)) <$> steps.
Proof.
  revert before. induction steps as [|st steps IH]; intros before; [done|].
  intros [Hcum Hrest]. rewrite !fmap_cons.
  cbn [levenshtein.printed_costs unit_of levenshtein.cost].
  rewrite (IH _ Hrest). f_equal. lia.
Qed.

Lemma unit_op_cost_costed {E : Type} (ins del : E → Z) (sub : E → E → Z)
    (steps : list (@chart.EditStep E)) :
  Forall (costed_step ins del sub) steps →
  mapM (unit_op_cost ins del sub) (unit_of <$> steps)
  = Some ((λ st, chart.this_cost (chart.cell st)) <$> steps).
Proof.
  induction 1 as [|st steps Hst _ IH]; [done|].
  rewrite !fmap_cons. cbn [mapM]. rewrite IH.
  unfold costed_step in Hst. unfold unit_op_cost, unit_of.
  cbn [levenshtein.unit1 levenshtein.unit2].
  destruct (chart.step_source st), (chart.step_target st); try done;
    destruct Hst as [_ ->]; done.
Qed.

(** ** Costs within the range of exact floats *)
Section cost_magnitudes.
Context {E : Type}.
Variable ins del : E → Z.
Variable sub : E → E → Z.

Lemma foldr_max_bound (l : list Z) :
  0 ≤ foldr Z.max 0 l ∧ ∀ x, x ∈ l → x ≤ foldr Z.max 0 l.
Proof.
  induction l as [|y l [IH0 IH]]; simpl.
  - split; [lia|]. by intros x ?%not_elem_of_nil.
  - split; [lia|]. intros x [->|Hx]%elem_of_cons; [lia|].
    specialize (IH x Hx). lia.
Qed.

Lemma greatest_cost_nonneg s t : 0 ≤ greatest_cost ins del sub s t.
Proof. apply (proj1 (foldr_max_bound _)). Qed.

Lemma greatest_cost_ins s t b :
  b ∈ t → Z.abs (ins b) ≤ greatest_cost ins del sub s t.
Proof.
  intros Hb. apply (proj2 (foldr_max_bound _)). apply elem_of_app. left.
  apply list_elem_of_fmap. by exists b.
Qed.

Lemma greatest_cost_del s t a :
  a ∈ s → Z.abs (del a) ≤ greatest_cost ins del sub s t.
Proof.
  intros Ha. apply (proj2 (foldr_max_bound _)). apply elem_of_app. right.
  apply elem_of_app. left. apply list_elem_of_fmap. by exists a.
Qed.

Lemma greatest_cost_sub s t a b :
  a ∈ s → b ∈ t → Z.abs (sub a b) ≤ greatest_cost ins del sub s t.
Proof.
  intros Ha Hb. apply (proj2 (foldr_max_bound _)). apply elem_of_app. right.
  apply elem_of_app. right. apply list_elem_of_bind. exists a.
  split; [|done]. apply list_elem_of_fmap. by exists b.
Qed.

(** An optimal cost is a sum of at most [length s + length t] costs. *)
Lemma opt_cost_magnitude (bound : Z) s : ∀ t,
  0 ≤ bound →
  (∀ b, b ∈ t → Z.abs (ins b) ≤ bound) →
  (∀ a, a ∈ s → Z.abs (del a) ≤ bound) →
  (∀ a b, a ∈ s → b ∈ t → Z.abs (sub a b) ≤ bound) →
  Z.abs (opt_cost ins del sub s t) ≤ Z.of_nat (length s + length t) * bound.
Proof.
  induction s as [|a s IHs]; intros t Hbound Hins Hdel Hsub.
  - clear Hdel Hsub. induction t as [|b t IHt].
    + rewrite opt_cost_nil_l. simpl. lia.
    + rewrite opt_cost_nil_cons.
      pose proof (Hins b (list_elem_of_here _ _)) as Hb.
      assert (Z.abs (opt_cost ins del sub [] t)
              ≤ Z.of_nat (length (@nil E) + length t) * bound) as IH.
      { apply IHt. intros b' Hb'. apply Hins. by right. }
      replace (Z.of_nat (length (@nil E) + length (b :: t)))
        with (Z.of_nat (length (@nil E) + length t) + 1)
        by (cbn [length]; lia).
      rewrite Z.mul_add_distr_r. lia.
  - induction t as [|b t IHt].
    + rewrite opt_cost_cons_nil.
      pose proof (Hdel a (list_elem_of_here _ _)) as Ha.
      assert (Z.abs (opt_cost ins del sub s [])
              ≤ Z.of_nat (length s + length (@nil E)) * bound) as IH.
      { apply IHs; [done|done| |].
        - intros a' Ha'. apply Hdel. by right.
        - intros a' b' Ha' Hb'. by apply not_elem_of_nil in Hb'. }
      replace (Z.of_nat (length (a :: s) + length (@nil E)))
        with (Z.of_nat (length s + length (@nil E)) + 1)
        by (cbn [length]; lia).
      rewrite Z.mul_add_distr_r. lia.
    + rewrite opt_cost_cons_cons.
      pose proof (Hins b (list_elem_of_here _ _)) as Hb.
      pose proof (Hdel a (list_elem_of_here _ _)) as Ha.
      pose proof (Hsub a b (list_elem_of_here _ _) (list_elem_of_here _ _))
        as Hab.
      assert (Z.abs (opt_cost ins del sub (a :: s) t)
              ≤ Z.of_nat (length (a :: s) + length t) * bound) as IH1.
      { apply IHt.
        - intros b' Hb'. apply Hins. by right.
        - intros a' b' Ha' Hb'. apply Hsub; [done|by right]. }
      assert (Z.abs (opt_cost ins del sub s t)
              ≤ Z.of_nat (length s + length t) * bound) as IH2.
      { apply IHs; [done| | |].
        - intros b' Hb'. apply Hins. by right.
        - intros a' Ha'. apply Hdel. by right.
        - intros a' b' Ha' Hb'. apply Hsub; by right. }
      assert (Z.abs (opt_cost ins del sub s (b :: t))
              ≤ Z.of_nat (length s + length (b :: t)) * bound) as IH3.
      { apply IHs; [done|done| |].
        - intros a' Ha'. apply Hdel. by right.
        - intros a' b' Ha' Hb'. apply Hsub; [by right|done]. }
      replace (Z.of_nat (length (a :: s) + length (b :: t)))
        with (Z.of_nat (length s + length t) + 2)
        by (cbn [length]; lia).
      replace (Z.of_nat (length (a :: s) + length t))
        with (Z.of_nat (length s + length t) + 1) in IH1
        by (cbn [length]; lia).
      replace (Z.of_nat (length s + length (b :: t)))
        with (Z.of_nat (length s + length t) + 1) in IH3
        by (cbn [length]; lia).
      rewrite Z.mul_add_distr_r in *. lia.
Qed.

(** The cell at [(i, j)] is within [i + j] times the greatest cost. *)
Lemma prefix_cost_magnitude s t i j :
  Z.abs (prefix_cost s t ins del sub i j)
  ≤ Z.of_nat (i + j) * greatest_cost ins del sub s t.
Proof.
  unfold prefix_cost.
  pose proof (greatest_cost_nonneg s t) as Hnonneg.
  pose proof (opt_cost_magnitude (greatest_cost ins del sub s t)
                (reverse (take j s)) (reverse (take i t)) Hnonneg) as Hmag.
  rewrite !length_reverse, !length_take in Hmag.
  etrans; [apply Hmag|].
  - intros b Hb. rewrite elem_of_reverse, elem_of_take in Hb.
    destruct Hb as (k & Hk & _).
    by eapply greatest_cost_ins, list_elem_of_lookup_2.
  - intros a Ha. rewrite elem_of_reverse, elem_of_take in Ha.
    destruct Ha as (k & Hk & _).
    by eapply greatest_cost_del, list_elem_of_lookup_2.
  - intros a b Ha Hb. rewrite elem_of_reverse, elem_of_take in Ha, Hb.
    destruct Ha as (k & Hk & _). destruct Hb as (l & Hl & _).
    apply greatest_cost_sub; by eapply list_elem_of_lookup_2.
  - apply Z.mul_le_mono_nonneg_r; [done|lia].
Qed.

(** Within the range of exact floats, every cell of the matrix is. *)
Lemma prefix_cost_exact s t i j :
  float_exact ins del sub s t → (i ≤ length t)%nat → (j ≤ length s)%nat →
  Z.abs (prefix_cost s t ins del sub i j) ≤ 2 ^ 53.
Proof.
  unfold float_exact. intros Hexact Hi Hj.
  pose proof (prefix_cost_magnitude s t i j) as Hmag.
  pose proof (greatest_cost_nonneg s t) as Hnonneg.
  etrans; [exact Hmag|]. etrans; [|exact Hexact].
  apply Z.mul_le_mono_nonneg_r; [done|lia].
Qed.

End cost_magnitudes.

(** [set_pair] on costs that [levenshtein.py] adds without rounding: the
    distance it returns is an integer that a float holds. *)
Lemma set_pair_exact {E Char : Type} `{EqDecision E}
    (str : E → list Char) (is_mark : Char → bool)
    (ins del : E → Z) (sub : E → E → Z)
    (self : @levenshtein.Levenshtein E) (s t : list E) :
  float_exact ins del sub s t →
  ∃ self',
    levenshtein.set_pair str is_mark ins del sub self s t
    = Some (opt_cost ins del sub s t, self') ∧
    Z.abs (opt_cost ins del sub s t) ≤ 2 ^ 53.
Proof.
  intros Hexact.
  destruct (set_pair_simulation str is_mark ins del sub self s t)
    as (m & _ & _ & Hset).
  eexists. split; [exact Hset|].
  rewrite <-(prefix_cost_corner s t ins del sub).
  by apply prefix_cost_exact.
Qed.

(** * The claims *)

Lemma relate_arguments_paths {E : Type} `{EqDecision E} (s t : list E)
    (costs : @xducer.CostFunctions E) (just_one : bool) (fuel : nat) :
  (length s + length t < fuel)%nat →
  ∃ ps, relate_arguments fuel s t costs just_one = Some ps ∧
        paths costs just_one s t = Some ps ∧ result_for costs s t ps.
Proof.
  intros Hfuel.
  destruct (relate_from_origin s t costs just_one fuel Hfuel)
    as (ps & memory & Hrel & Hps & Hres).
  exists ps. unfold relate_arguments. simpl in *. by rewrite Hrel.
Qed.

Lemma tabular_distance_optimal {E Char : Type} `{EqDecision E}
    (str : E → list Char) (is_mark : Char → bool) (s t : list E)
    (costs : @xducer.CostFunctions E) (matrix : gmap (nat * nat) chart.Cell) :
  s ≠ [] → t ≠ [] → origin_cell matrix →
  tabular_distance str is_mark s t costs matrix =
  Some (opt_cost (xducer.insert costs) (xducer.delete costs)
          (xducer.substitute costs) s t).
Proof.
  intros Hs Ht Horigin. unfold tabular_distance.
  destruct (levenshtein_succeeds str is_mark s t (xducer.insert costs)
              (xducer.delete costs) (xducer.substitute costs) matrix)
    as (analysis & matrix' & Hcall); [done..|].
  rewrite Hcall. cbn [mbind option_bind].
  destruct (levenshtein_returns _ _ _ _ _ _ _ _ _ _ Horigin Hcall)
    as (? & ? & ? & ? & ? & _ & _ & Hknown).
  by apply min_edit_distance_optimal.
Qed.

(** C1: [chart.levenshtein] raises on an empty sequence.  When the source
    or the target is empty, and not both, the enumerator returns paths, all
    of one cost, and [chart.py] has no distance to compare it with:
    [greatest_width] takes [max()] of the empty sequence and raises
    [ValueError] before the matrix is filled.  [Levenshtein.set_pair] of
    [levenshtein.py] returns the cost of the paths for the same pair, for
    costs that it adds without rounding, an integer within 2^53.  When
    neither sequence is empty, [chart.py] computes that cost as well, and
    the engines agree as the claim has it.  The cost functions return
    integers. *)
Theorem C1_chart_raises_on_an_empty_sequence {E Char : Type} `{EqDecision E}
    (str : E → list Char) (is_mark : Char → bool) (s t : list E)
    (costs : @xducer.CostFunctions E) (just_one : bool)
    (matrix : gmap (nat * nat) chart.Cell)
    (self : @levenshtein.Levenshtein E) (fuel : nat) :
  s ≠ [] ∨ t ≠ [] → origin_cell matrix → (length s + length t < fuel)%nat →
  ∃ d ps,
    relate_arguments fuel s t costs just_one = Some ps ∧
    ps ≠ [] ∧
    (∀ p, p ∈ ps → xducer.parse_cost p = Some d ∧ path_cost p = d) ∧
    (s = [] ∨ t = [] →
     tabular_distance str is_mark s t costs matrix = None) ∧
    (s ≠ [] → t ≠ [] →
     tabular_distance str is_mark s t costs matrix = Some d) ∧
    (float_exact (xducer.insert costs) (xducer.delete costs)
       (xducer.substitute costs) s t →
     ∃ self',
       levenshtein.set_pair str is_mark (xducer.insert costs)
         (xducer.delete costs) (xducer.substitute costs) self s t
       = Some (d, self') ∧
       Z.abs d ≤ 2 ^ 53).
Proof.
  intros Hst Horigin Hfuel.
  destruct (relate_arguments_paths s t costs just_one fuel Hfuel)
    as (ps & Hrel & _ & [Hempty Hne Hpaths]).
  exists (opt_cost (xducer.insert costs) (xducer.delete costs)
            (xducer.substitute costs) s t), ps.
  split; [done|]. split.
  { intros Hnil. apply Hempty in Hnil as [-> ->]. by destruct Hst. }
  split.
  { intros p Hp.
    assert (p ∈ suffixes ps) as Hsuf
      by (destruct ps; [by apply not_elem_of_nil in Hp|done]).
    destruct (Hpaths p Hsuf) as [_ _ Htot Hcum _].
    rewrite (parse_cost_cumulative p (Hne p Hp) Hcum). by rewrite Htot. }
  split.
  { unfold tabular_distance. intros [-> | ->].
    - by rewrite levenshtein_empty_source.
    - by rewrite levenshtein_empty_target. }
  split; [intros Hs Ht; by apply tabular_distance_optimal|].
  apply set_pair_exact.
Qed.

(** The failing input: the empty source against "a". *)
Lemma C1_witness :
  ∃ ps,
    relate_arguments 2 [] ["a"%char] xducer.default_costs false = Some ps ∧
    ps ≠ [] ∧
    (∀ p, p ∈ ps → xducer.parse_cost p = Some 1 ∧ path_cost p = 1) ∧
    tabular_distance char_str ascii_is_mark [] ["a"%char]
      xducer.default_costs chart.default_matrix = None ∧
    ∃ self',
      levenshtein.set_pair char_str ascii_is_mark
        (xducer.insert xducer.default_costs)
        (xducer.delete xducer.default_costs)
        (xducer.substitute xducer.default_costs) levenshtein.__init__
        [] ["a"%char] = Some (1, self') ∧
      Z.abs 1 ≤ 2 ^ 53.
Proof.
  destruct (C1_chart_raises_on_an_empty_sequence char_str ascii_is_mark
              [] ["a"%char] xducer.default_costs false chart.default_matrix
              levenshtein.__init__ 2)
    as (d & ps & Hrel & Hne & Hcost & Hnone & _ & Hlev);
    [by right|reflexivity|simpl; lia|].
  destruct Hlev as (self' & Hset & Hexact); [by vm_compute|].
  assert (d = 1) as -> by (vm_compute in Hset; congruence).
  exists ps. split; [exact Hrel|]. split; [exact Hne|].
  split; [exact Hcost|]. split; [apply Hnone; by left|].
  exists self'. split; [exact Hset|exact Hexact].
Defined.




(** C3: the matrix of [chart.py] is shared between calls.  After
    [first = levenshtein('a', 'b')] the distance of [first] is 2; the later
    call [levenshtein('a', 'a')] writes into the same dict, and the distance
    read from [first] becomes 0.  After [levenshtein('ab', 'ab')] and then
    [levenshtein('a', 'a')] the matrix of the second result holds nine
    cells, the cell at (2, 2) among them, where a matrix built for the
    second pair alone would hold four.  The memo of [xducer.arguments]
    starts empty at every call. *)
Theorem C3_matrix_shared_between_calls :
  ('(first, matrix) ←
      chart.levenshtein char_str ascii_is_mark ["a"%char] ["b"%char]
        chart.lev_ins_function chart.lev_del_function chart.lev_sub_function
        chart.default_matrix;
    let before := chart.min_edit_distance first matrix in
    '(second, matrix) ←
      chart.levenshtein char_str ascii_is_mark ["a"%char] ["a"%char]
        chart.lev_ins_function chart.lev_del_function chart.lev_sub_function
        matrix;
    let after := chart.min_edit_distance first matrix in
    Some (before, after)) = Some (Some 2, Some 0) ∧
  ('(first, matrix) ←
      chart.levenshtein char_str ascii_is_mark ["a"; "b"]%char ["a"; "b"]%char
        chart.lev_ins_function chart.lev_del_function chart.lev_sub_function
        chart.default_matrix;
    '(second, matrix) ←
      chart.levenshtein char_str ascii_is_mark ["a"%char] ["a"%char]
        chart.lev_ins_function chart.lev_del_function chart.lev_sub_function
        matrix;
    Some (size matrix, matrix !! (2%nat, 2%nat)))
  = Some (9%nat, Some (chart.mkCell 0 0 chart.SUB)) ∧
  (xducer.arguments ["a"%char] ["a"%char] xducer.default_costs false).2 = ∅.
Proof. split; [|split]; vm_compute; reflexivity. Qed.

(** C4 as stated fails for the enumerator: on "cat" against the empty
    sequence the last step carries 1, and the steps add up to 3. *)
Lemma C4_counterexample :
  ¬ (∀ ps p,
       relate_arguments 4 ["c"; "a"; "t"]%char [] xducer.default_costs false
         = Some ps →
       p ∈ ps → last_step_carries_total p).
Proof.
  intros Hall.
  specialize (Hall _ _ eq_refl (list_elem_of_here _ _) _ eq_refl).
  discriminate Hall.
Qed.

(** C4, as amended.  The cost functions return integers.

    [chart.py], on two non-empty sequences: the backtrace has a last
    step, the incremental cost of every step is the cost the cost model
    gives the operation of the step on its elements, and the cumulative
    cost of the last step is the sum of the incremental costs.

    [levenshtein.py], on two sequences that are not both empty, with
    costs it adds without rounding: [alignment_facts] has a last unit, the
    cost that [alignment] prints for a unit, the difference of its
    cumulative cost and that of the unit before it, is the cost the cost
    model gives the operation of the unit, and the cumulative cost of the
    last unit is the sum of these costs and the distance [set_pair]
    returned, an integer within 2^53.

    [xducer.py], on two sequences that are not both empty: there is a
    path, no path is empty, the incremental cost of every step is the cost
    of its operation, and every step carries as cumulative cost the cost
    of the path from that step on, so that the first step carries the sum
    of all incremental costs. *)
Theorem C4_cumulative_costs {E Char : Type} `{EqDecision E}
    (str : E → list Char) (is_mark : Char → bool) (s t : list E)
    (costs : @xducer.CostFunctions E) (just_one : bool)
    (matrix : gmap (nat * nat) chart.Cell)
    (self : @levenshtein.Levenshtein E) (fuel : nat) :
  origin_cell matrix → (length s + length t < fuel)%nat →
  (s ≠ [] → t ≠ [] →
   ∃ analysis matrix' steps st,
     chart.levenshtein str is_mark s t (xducer.insert costs)
       (xducer.delete costs) (xducer.substitute costs) matrix
       = Some (analysis, matrix') ∧
     chart.get_one_backtrace analysis matrix' = Some steps ∧
     last steps = Some st ∧
     Forall (costed_step (xducer.insert costs) (xducer.delete costs)
               (xducer.substitute costs)) steps ∧
     chart.cumulative_cost (chart.cell st)
     = total ((λ st, chart.this_cost (chart.cell st)) <$> steps)) ∧
  (s ≠ [] ∨ t ≠ [] →
   float_exact (xducer.insert costs) (xducer.delete costs)
     (xducer.substitute costs) s t →
   ∃ d self' units u step_costs,
     levenshtein.set_pair str is_mark (xducer.insert costs)
       (xducer.delete costs) (xducer.substitute costs) self s t
       = Some (d, self') ∧
     levenshtein.alignment_facts self' = Some units ∧
     last units = Some u ∧
     mapM (unit_op_cost (xducer.insert costs) (xducer.delete costs)
             (xducer.substitute costs)) units = Some step_costs ∧
     levenshtein.printed_costs 0 units = step_costs ∧
     levenshtein.cost u = total step_costs ∧
     levenshtein.cost u = d ∧
     Z.abs d ≤ 2 ^ 53) ∧
  (s ≠ [] ∨ t ≠ [] →
   ∃ ps,
     relate_arguments fuel s t costs just_one = Some ps ∧
     ps ≠ [] ∧
     ∀ p, p ∈ ps →
       Forall (step_ok costs) p ∧
       suffix_cumulative p ∧
       ∃ c, head p = Some c ∧ xducer.cumul_cost c = path_cost p).
Proof.
  intros Horigin Hfuel. split; [|split].
  - intros Hs Ht.
    destruct (levenshtein_succeeds str is_mark s t (xducer.insert costs)
                (xducer.delete costs) (xducer.substitute costs) matrix)
      as (analysis & matrix' & Hcall); [done..|].
    destruct (levenshtein_returns _ _ _ _ _ _ _ _ _ _ Horigin Hcall)
      as (Hsrc & Htgt & Hins & Hdel & Hsub & _ & _ & Hknown).
    rewrite <-Hsrc, <-Htgt in Hknown.
    destruct (get_one_backtrace_traced analysis matrix' Hknown)
      as (steps & Hbt & [_ _ Htot Hlast Hnil]).
    pose proof (get_one_backtrace_costed analysis matrix' Hknown steps Hbt)
      as Hcosted.
    rewrite Hins, Hdel, Hsub in Hcosted.
    destruct (last steps) as [st|] eqn:Hst.
    2:{ apply last_None in Hst. destruct (Hnil Hst) as [Hlen _].
        rewrite Htgt in Hlen. by destruct t. }
    exists analysis, matrix', steps, st. split_and!; [done..|].
    rewrite Htot, (Hlast st eq_refl). by apply expected_cell_cumulative.
  - intros Hst Hexact.
    destruct (alignment_facts_simulation str is_mark (xducer.insert costs)
                (xducer.delete costs) (xducer.substitute costs) self s t)
      as (d & self' & m & steps & Hset & Hd & _ & _ & _ & Hknown & Hbt
          & Htraced & Hfacts).
    pose proof (get_one_backtrace_costed _ m Hknown steps Hbt) as Hcosted.
    pose proof (get_one_backtrace_running _ m Hknown steps Hbt) as Hrunning.
    destruct Htraced as [_ _ Htot Hlast Hnil].
    cbn [chart.source chart.target chart.ins_cost chart.del_cost
         chart.sub_cost] in *.
    destruct (last steps) as [st|] eqn:Hlast_step.
    2:{ apply last_None in Hlast_step. destruct (Hnil Hlast_step) as [Ht Hs].
        destruct s, t; try done. by destruct Hst. }
    exists d, self', (unit_of <$> steps), (unit_of st),
      ((λ st, chart.this_cost (chart.cell st)) <$> steps).
    split; [done|]. split; [done|].
    split; [by rewrite fmap_last, Hlast_step|].
    split; [by apply unit_op_cost_costed|].
    split; [by apply printed_costs_running|].
    cbn [unit_of levenshtein.cost].
    rewrite (Hlast st eq_refl), expected_cell_cumulative by done.
    cbn [chart.source chart.target chart.ins_cost chart.del_cost
         chart.sub_cost].
    split; [by rewrite Htot|]. rewrite Hd, prefix_cost_corner.
    split; [done|].
    rewrite <-(prefix_cost_corner s t (xducer.insert costs)
                 (xducer.delete costs) (xducer.substitute costs)).
    by apply prefix_cost_exact.
  - intros Hst.
    destruct (relate_arguments_paths s t costs just_one fuel Hfuel)
      as (ps & Hrel & _ & [Hempty Hne Hpaths]).
    exists ps. split; [done|]. split.
    { intros Hnil. apply Hempty in Hnil as [-> ->]. by destruct Hst. }
    intros p Hp.
    assert (p ∈ suffixes ps) as Hsuf
      by (destruct ps; [by apply not_elem_of_nil in Hp|done]).
    destruct (Hpaths p Hsuf) as [_ _ _ Hcum Hsteps].
    split; [done|]. split; [done|].
    destruct p as [|c p]; [by apply Hne in Hp|].
    exists c. split; [done|]. by destruct Hcum.
Qed.

Lemma C4_witness :
  (∃ analysis matrix' steps st,
     chart.levenshtein char_str ascii_is_mark
       ["d"; "a"; "g"]%char ["d"; "o"; "g"; "e"]%char
       (xducer.insert xducer.default_costs)
       (xducer.delete xducer.default_costs)
       (xducer.substitute xducer.default_costs) chart.default_matrix
       = Some (analysis, matrix') ∧
     chart.get_one_backtrace analysis matrix' = Some steps ∧
     last steps = Some st ∧
     Forall (costed_step (xducer.insert xducer.default_costs)
               (xducer.delete xducer.default_costs)
               (xducer.substitute xducer.default_costs)) steps ∧
     chart.cumulative_cost (chart.cell st)
     = total ((λ st, chart.this_cost (chart.cell st)) <$> steps)) ∧
  (∃ d self' units u step_costs,
     levenshtein.set_pair char_str ascii_is_mark
       (xducer.insert xducer.default_costs)
       (xducer.delete xducer.default_costs)
       (xducer.substitute xducer.default_costs) levenshtein.__init__
       ["d"; "a"; "g"]%char ["d"; "o"; "g"; "e"]%char
       = Some (d, self') ∧
     levenshtein.alignment_facts self' = Some units ∧
     last units = Some u ∧
     mapM (unit_op_cost (xducer.insert xducer.default_costs)
             (xducer.delete xducer.default_costs)
             (xducer.substitute xducer.default_costs)) units
       = Some step_costs ∧
     levenshtein.printed_costs 0 units = step_costs ∧
     levenshtein.cost u = total step_costs ∧
     levenshtein.cost u = d ∧
     Z.abs d ≤ 2 ^ 53) ∧
  (∃ ps,
     relate_arguments 8 ["d"; "a"; "g"]%char ["d"; "o"; "g"; "e"]%char
       xducer.default_costs false = Some ps ∧
     ps ≠ [] ∧
     ∀ p, p ∈ ps →
       Forall (step_ok xducer.default_costs) p ∧
       suffix_cumulative p ∧
       ∃ c, head p = Some c ∧ xducer.cumul_cost c = path_cost p).
Proof.
  destruct (C4_cumulative_costs char_str ascii_is_mark
              ["d"; "a"; "g"]%char ["d"; "o"; "g"; "e"]%char
              xducer.default_costs false chart.default_matrix
              levenshtein.__init__ 8)
    as (Hchart & Hlev & Hxducer); [reflexivity|simpl; lia|].
  split; [apply Hchart; discriminate|]. split.
  - apply Hlev; [left; discriminate|by vm_compute].
  - apply Hxducer. left. discriminate.
Defined.

(** C5.  On two empty sequences the enumerator returns no path.  On "cat"
    against the empty sequence it returns one path of three steps, each
    with a source element, no target element and incremental cost 1; the
    cost of the path is 3. *)
Theorem C5_boundary {E : Type} `{EqDecision E}
    (costs : @xducer.CostFunctions E) (just_one : bool) (fuel : nat) :
  (3 < fuel)%nat →
  relate_arguments fuel (@nil E) [] costs just_one = Some [] ∧
  ∃ p,
    relate_arguments fuel ["c"; "a"; "t"]%char [] xducer.default_costs just_one
      = Some [p] ∧
    p = [xducer.mkCell (Some "c"%char) None 1 3;
         xducer.mkCell (Some "a"%char) None 1 2;
         xducer.mkCell (Some "t"%char) None 1 1] ∧
    xducer.parse_cost p = Some 3 ∧ path_cost p = 3.
Proof.
  intros Hfuel. split.
  - destruct (relate_arguments_paths (@nil E) [] costs just_one fuel)
      as (ps & -> & Hps & _); [simpl; lia|].
    rewrite paths_nil_nil in Hps. by injection Hps as <-.
  - destruct (relate_arguments_paths ["c"; "a"; "t"]%char []
                xducer.default_costs just_one fuel)
      as (ps & -> & Hps & _); [simpl; lia|].
    rewrite paths_empty_target in Hps. injection Hps as <-.
    eexists. split; [reflexivity|]. split; [reflexivity|].
    split; reflexivity.
Qed.

Lemma C5_witness :
  relate_arguments 4 (@nil ascii) [] xducer.default_costs false = Some [] ∧
  ∃ p,
    relate_arguments 4 ["c"; "a"; "t"]%char [] xducer.default_costs false
      = Some [p] ∧
    p = [xducer.mkCell (Some "c"%char) None 1 3;
         xducer.mkCell (Some "a"%char) None 1 2;
         xducer.mkCell (Some "t"%char) None 1 1] ∧
    xducer.parse_cost p = Some 3 ∧ path_cost p = 3.
Proof. apply (C5_boundary xducer.default_costs false 4). lia. Defined.

(** C6 as stated fails on two empty sequences: the enumerator returns no
    path there, and so not the one empty path. *)
Lemma C6_counterexample :
  relate_arguments 1 (@nil ascii) [] xducer.default_costs false ≠ Some [[]].
Proof. discriminate. Qed.

(** C6, as amended.  On two empty sequences the enumerator returns no path.
    On an empty source and a non-empty target it returns one path, whose
    steps have no source element and carry the target elements in order,
    each at its insertion cost; on a non-empty source and an empty target,
    one path whose steps carry the source elements in order and no target
    element, each at its deletion cost. *)
Theorem C6_one_sequence_empty {E : Type} `{EqDecision E}
    (costs : @xducer.CostFunctions E) (just_one : bool) (s t : list E)
    (fuel : nat) :
  (length s + length t < fuel)%nat →
  relate_arguments fuel (@nil E) [] costs just_one = Some [] ∧
  (t ≠ [] →
   ∃ p, relate_arguments fuel [] t costs just_one = Some [p] ∧
        xducer.cell_source <$> p = (λ _, None) <$> t ∧
        xducer.cell_target <$> p = Some <$> t ∧
        xducer.this_cost <$> p = xducer.insert costs <$> t) ∧
  (s ≠ [] →
   ∃ p, relate_arguments fuel s [] costs just_one = Some [p] ∧
        xducer.cell_source <$> p = Some <$> s ∧
        xducer.cell_target <$> p = (λ _, None) <$> s ∧
        xducer.this_cost <$> p = xducer.delete costs <$> s).
Proof.
  intros Hfuel. split; [|split].
  - destruct (relate_arguments_paths (@nil E) [] costs just_one fuel)
      as (ps & -> & Hps & _); [simpl; lia|].
    rewrite paths_nil_nil in Hps. by injection Hps as <-.
  - intros Ht. destruct t as [|b t]; [done|].
    destruct (relate_arguments_paths [] (b :: t) costs just_one fuel)
      as (ps & Hrel & Hps & _); [simpl in *; lia|].
    rewrite paths_empty_source in Hps.
    exists (canonical costs [] (b :: t)).
    split; [congruence|apply canonical_all_inserts].
  - intros Hs. destruct s as [|a s]; [done|].
    destruct (relate_arguments_paths (a :: s) [] costs just_one fuel)
      as (ps & Hrel & Hps & _); [simpl in *; lia|].
    rewrite paths_empty_target in Hps.
    exists (canonical costs (a :: s) []).
    split; [congruence|apply canonical_all_deletes].
Qed.

Lemma C6_witness :
  relate_arguments 4 (@nil ascii) [] xducer.default_costs false = Some [] ∧
  (["c"; "a"; "t"]%char ≠ [] →
   ∃ p, relate_arguments 4 [] ["c"; "a"; "t"]%char xducer.default_costs false
          = Some [p] ∧
        xducer.cell_source <$> p = (λ _, None) <$> ["c"; "a"; "t"]%char ∧
        xducer.cell_target <$> p = Some <$> ["c"; "a"; "t"]%char ∧
        xducer.this_cost <$> p
          = xducer.insert xducer.default_costs <$> ["c"; "a"; "t"]%char) ∧
  (["d"; "o"; "g"]%char ≠ [] →
   ∃ p, relate_arguments 4 ["d"; "o"; "g"]%char [] xducer.default_costs false
          = Some [p] ∧
        xducer.cell_source <$> p = Some <$> ["d"; "o"; "g"]%char ∧
        xducer.cell_target <$> p = (λ _, None) <$> ["d"; "o"; "g"]%char ∧
        xducer.this_cost <$> p
          = xducer.delete xducer.default_costs <$> ["d"; "o"; "g"]%char).
Proof.
  pose proof (C6_one_sequence_empty xducer.default_costs false
                ["d"; "o"; "g"]%char ["c"; "a"; "t"]%char 7) as Hboth.
  pose proof (C6_one_sequence_empty xducer.default_costs false
                ["d"; "o"; "g"]%char [] 4) as Hsource.
  pose proof (C6_one_sequence_empty xducer.default_costs false
                [] ["c"; "a"; "t"]%char 4) as Htarget.
  split; [apply Hsource; simpl; lia|]. split.
  - apply Htarget. simpl; lia.
  - apply Hsource. simpl; lia.
Defined.




(** C8: [xducer.vertical_align] counts marks.  For the source
    [['é', 'a']] with a decomposed "é", aligned with itself, the one path
    has the source elements 'é' and 'a', each of printable width 1, and
    [biggest_length_in_parse] gives the column the width 2; [chart.py] and
    [levenshtein.py] give it the width 1.  The decomposed and the
    precomposed "é" have the same [print_len] and different
    [element_length]. *)
Theorem C8_enumerator_counts_marks :
  (ps ← relate_arguments 5 [e_acute_decomposed; letter_a]
          [e_acute_decomposed; letter_a] xducer.default_costs false;
   p ← head ps;
   Some (length ps, xducer.cell_source <$> p,
         xducer.biggest_length_in_parse unicode_str unicode_truthy p
           xducer.source_name,
         chart.greatest_width unicode_str combining_mark
           (omap xducer.cell_source p)))
  = Some (1%nat, [Some e_acute_decomposed; Some letter_a],
          Some 2%nat, Some 1%nat) ∧
  ('(analysis, _) ←
      chart.levenshtein unicode_str combining_mark
        [e_acute_decomposed; letter_a] [e_acute_decomposed; letter_a]
        chart.lev_ins_function chart.lev_del_function chart.lev_sub_function
        chart.default_matrix;
    Some (chart.source_widest analysis, chart.target_widest analysis))
  = Some (1%nat, 1%nat) ∧
  levenshtein.greatest_width unicode_str combining_mark
    [e_acute_decomposed; letter_a] = 1%nat ∧
  chart.print_len unicode_str combining_mark e_acute_decomposed
    = chart.print_len unicode_str combining_mark e_acute_precomposed ∧
  xducer.element_length unicode_str unicode_truthy
    (xducer.mkCell (Some e_acute_decomposed) None 1 1) xducer.source_name
    = 2%nat ∧
  xducer.element_length unicode_str unicode_truthy
    (xducer.mkCell (Some e_acute_precomposed) None 1 1) xducer.source_name
    = 1%nat.
Proof. repeat split; vm_compute; reflexivity. Qed.

Lemma omap_unit_of {E : Type} (steps : list (@chart.EditStep E)) :
  omap levenshtein.unit1 (unit_of <$> steps) = omap chart.step_source steps ∧
  omap levenshtein.unit2 (unit_of <$> steps) = omap chart.step_target steps.
Proof.
  induction steps as [|st steps [IH1 IH2]]; [done|].
  rewrite fmap_cons. cbn [omap list_omap]. rewrite IH1, IH2. done.
Qed.

(** C9.  In every path an engine returns, the source elements of the steps
    that have one are the source sequence, and the target elements of the
    steps that have one are the target sequence: for the backtrace of a
    call of [chart.levenshtein] that returns, as it does on two non-empty
    sequences, for [alignment_facts] after [set_pair], and for every path
    of the enumerator, which returns at least one path unless both
    sequences are empty, and no empty path. *)
Theorem C9_reconstruction {E Char : Type} `{EqDecision E}
    (str : E → list Char) (is_mark : Char → bool) (s t : list E)
    (costs : @xducer.CostFunctions E) (just_one : bool)
    (matrix : gmap (nat * nat) chart.Cell)
    (self : @levenshtein.Levenshtein E) (fuel : nat) :
  origin_cell matrix → (length s + length t < fuel)%nat →
  (s ≠ [] → t ≠ [] →
   is_Some (chart.levenshtein str is_mark s t (xducer.insert costs)
              (xducer.delete costs) (xducer.substitute costs) matrix)) ∧
  (∀ analysis matrix',
     chart.levenshtein str is_mark s t (xducer.insert costs)
       (xducer.delete costs) (xducer.substitute costs) matrix
       = Some (analysis, matrix') →
     ∃ steps,
       chart.get_one_backtrace analysis matrix' = Some steps ∧
       omap chart.step_source steps = s ∧
       omap chart.step_target steps = t) ∧
  (∃ d self' units,
     levenshtein.set_pair str is_mark (xducer.insert costs)
       (xducer.delete costs) (xducer.substitute costs) self s t
       = Some (d, self') ∧
     levenshtein.alignment_facts self' = Some units ∧
     omap levenshtein.unit1 units = s ∧ omap levenshtein.unit2 units = t) ∧
  (∃ ps,
     relate_arguments fuel s t costs just_one = Some ps ∧
     (ps = [] ↔ s = [] ∧ t = []) ∧
     ∀ p, p ∈ ps →
       p ≠ [] ∧
       omap xducer.cell_source p = s ∧ omap xducer.cell_target p = t).
Proof.
  intros Horigin Hfuel. split; [|split; [|split]].
  - intros Hs Ht.
    destruct (levenshtein_succeeds str is_mark s t (xducer.insert costs)
                (xducer.delete costs) (xducer.substitute costs) matrix)
      as (analysis & matrix' & ->); done.
  - intros analysis matrix' Hcall.
    destruct (levenshtein_returns _ _ _ _ _ _ _ _ _ _ Horigin Hcall)
      as (Hs & Ht & _ & _ & _ & _ & _ & Hknown).
    rewrite <-Hs, <-Ht in Hknown.
    destruct (get_one_backtrace_traced analysis matrix' Hknown)
      as (steps & Hbt & [Hsrc Htgt _ _ _]).
    exists steps. rewrite firstn_all in Hsrc, Htgt. by rewrite <-Hs, <-Ht.
  - destruct (alignment_facts_simulation str is_mark (xducer.insert costs)
                (xducer.delete costs) (xducer.substitute costs) self s t)
      as (d & self' & m & steps & Hset & _ & _ & _ & _ & _ & _ & Htraced
          & Hfacts).
    exists d, self', (unit_of <$> steps). split; [done|]. split; [done|].
    destruct (omap_unit_of steps) as [-> ->].
    destruct Htraced as [Hsrc Htgt _ _ _].
    cbn [chart.source chart.target] in Hsrc, Htgt.
    by rewrite firstn_all in Hsrc, Htgt.
  - destruct (relate_arguments_paths s t costs just_one fuel Hfuel)
      as (ps & Hrel & _ & [Hempty Hne Hpaths]).
    exists ps. split; [done|]. split; [done|]. intros p Hp.
    assert (p ∈ suffixes ps) as Hsuf
      by (destruct ps; [by apply not_elem_of_nil in Hp|done]).
    split; [by apply Hne|].
    by destruct (Hpaths p Hsuf) as [? ? _ _ _].
Qed.

Lemma C9_witness :
  (∃ analysis matrix' steps,
     chart.levenshtein char_str ascii_is_mark
       ["d"; "a"; "g"]%char ["d"; "o"; "g"; "e"]%char
       (xducer.insert xducer.default_costs)
       (xducer.delete xducer.default_costs)
       (xducer.substitute xducer.default_costs) chart.default_matrix
       = Some (analysis, matrix') ∧
     chart.get_one_backtrace analysis matrix' = Some steps ∧
     omap chart.step_source steps = ["d"; "a"; "g"]%char ∧
     omap chart.step_target steps = ["d"; "o"; "g"; "e"]%char) ∧
  (∃ d self' units,
     levenshtein.set_pair char_str ascii_is_mark
       (xducer.insert xducer.default_costs)
       (xducer.delete xducer.default_costs)
       (xducer.substitute xducer.default_costs) levenshtein.__init__
       ["d"; "a"; "g"]%char ["d"; "o"; "g"; "e"]%char
       = Some (d, self') ∧
     levenshtein.alignment_facts self' = Some units ∧
     omap levenshtein.unit1 units = ["d"; "a"; "g"]%char ∧
     omap levenshtein.unit2 units = ["d"; "o"; "g"; "e"]%char) ∧
  (∃ ps p,
     relate_arguments 8 ["d"; "a"; "g"]%char ["d"; "o"; "g"; "e"]%char
       xducer.default_costs false = Some ps ∧
     head ps = Some p ∧
     p ≠ [] ∧
     omap xducer.cell_source p = ["d"; "a"; "g"]%char ∧
     omap xducer.cell_target p = ["d"; "o"; "g"; "e"]%char ∧
     ∀ p, p ∈ ps →
       p ≠ [] ∧
       omap xducer.cell_source p = ["d"; "a"; "g"]%char ∧
       omap xducer.cell_target p = ["d"; "o"; "g"; "e"]%char).
Proof.
  destruct (C9_reconstruction char_str ascii_is_mark
              ["d"; "a"; "g"]%char ["d"; "o"; "g"; "e"]%char
              xducer.default_costs false chart.default_matrix
              levenshtein.__init__ 8)
    as (Hreturns & Hchart & Hlev & ps & Hrel & Hempty & Hpaths);
    [reflexivity|simpl; lia|].
  split; [|split; [exact Hlev|]].
  - destruct Hreturns as [[analysis matrix'] Hcall]; [discriminate..|].
    destruct (Hchart analysis matrix' Hcall) as (steps & Hbt & Hsrc & Htgt).
    exists analysis, matrix', steps. split; [exact Hcall|].
    split; [exact Hbt|]. split; [exact Hsrc|exact Htgt].
  - destruct ps as [|p ps]; [destruct (proj1 Hempty eq_refl); discriminate|].
    exists (p :: ps), p. split; [exact Hrel|]. split; [reflexivity|].
    destruct (Hpaths p (list_elem_of_here _ _)) as (Hne & Hsrc & Htgt).
    split; [exact Hne|]. split; [exact Hsrc|]. split; [exact Htgt|].
    exact Hpaths.
Defined.

(** C10: [chart.levenshtein] raises on the empty sequence.  On two empty
    sequences [chart.levenshtein] raises [ValueError], as [greatest_width]
    takes [max()] of an empty sequence, and so returns neither a distance
    nor a backtrace.  For a non-empty sequence against itself, under the
    default cost model, it gives the distance 0 and a backtrace of one
    step per element, each a substitution of an element for itself at no
    cost.  [Levenshtein.set_pair] and [alignment_facts] of
    [levenshtein.py] do so for every sequence, the empty one too, for
    which the distance is 0 and there is no unit. *)
Theorem C10_chart_raises_on_the_empty_sequence {E Char : Type}
    `{EqDecision E} (str : E → list Char) (is_mark : Char → bool)
    (s : list E) (matrix : gmap (nat * nat) chart.Cell)
    (self : @levenshtein.Levenshtein E) :
  origin_cell matrix →
  chart.greatest_width str is_mark (@nil E) = None ∧
  chart.levenshtein str is_mark (@nil E) [] chart.lev_ins_function
    chart.lev_del_function chart.lev_sub_function matrix = None ∧
  (s ≠ [] →
   ∃ analysis matrix' steps,
     chart.levenshtein str is_mark s s chart.lev_ins_function
       chart.lev_del_function chart.lev_sub_function matrix
       = Some (analysis, matrix') ∧
     chart.min_edit_distance analysis matrix' = Some 0 ∧
     chart.get_one_backtrace analysis matrix' = Some steps ∧
     length steps = length s ∧ Forall keeps_element steps) ∧
  (∃ self' units,
     levenshtein.set_pair str is_mark levenshtein.default_ins_cost
       levenshtein.default_del_cost levenshtein.default_sub_cost self s s
     = Some (0, self') ∧
     levenshtein.alignment_facts self' = Some units ∧
     length units = length s ∧
     Forall (λ u, ∃ e, levenshtein.unit1 u = Some e ∧
                       levenshtein.unit2 u = Some e) units).
Proof.
  intros Horigin. split; [done|]. split; [done|]. split.
  - intros Hs.
    destruct (levenshtein_succeeds str is_mark s s chart.lev_ins_function
                chart.lev_del_function chart.lev_sub_function matrix)
      as (analysis & matrix' & Hcall); [done..|].
    destruct (levenshtein_returns _ _ _ _ _ _ _ _ _ _ Horigin Hcall)
      as (Hsrc & Htgt & Hins & Hdel & Hsub & _ & _ & Hknown).
    destruct (get_one_backtrace_self analysis matrix' s)
      as (steps & Hbt & Hlen & Hall); [done..|].
    exists analysis, matrix', steps. split; [done|]. split; [|done].
    rewrite (min_edit_distance_optimal s s chart.lev_ins_function
               chart.lev_del_function chart.lev_sub_function) by done.
    f_equal. apply opt_cost_self.
    + intros. unfold chart.lev_ins_function. lia.
    + intros. unfold chart.lev_del_function. lia.
    + apply lev_sub_function_nonneg.
    + apply lev_sub_function_same.
  - destruct (alignment_facts_simulation str is_mark
                levenshtein.default_ins_cost levenshtein.default_del_cost
                levenshtein.default_sub_cost self s s)
      as (d & self' & m & steps & Hset & Hd & _ & _ & _ & Hknown & Hbt & _
          & Hfacts).
    destruct (get_one_backtrace_self
                (chart.mkPairAnalysis s 0 s 0 levenshtein.default_ins_cost
                   levenshtein.default_del_cost levenshtein.default_sub_cost)
                m s eq_refl eq_refl eq_refl eq_refl eq_refl Hknown)
      as (steps' & Hbt' & Hlen & Hall).
    rewrite Hbt in Hbt'. injection Hbt' as <-.
    exists self', (unit_of <$> steps).
    assert (d = 0) as ->.
    { rewrite Hd. apply opt_cost_self.
      + intros. unfold levenshtein.default_ins_cost. lia.
      + intros. unfold levenshtein.default_del_cost. lia.
      + intros a b. unfold levenshtein.default_sub_cost. case_decide; lia.
      + intros a. unfold levenshtein.default_sub_cost. by rewrite decide_True. }
    split; [done|]. split; [done|]. split; [by rewrite length_fmap|].
    apply Forall_fmap. eapply Forall_impl; [exact Hall|].
    intros st (_ & _ & e & He1 & He2). by exists e.
Qed.

(** The failing input, the empty sequence, and "cat". *)
Lemma C10_witness :
  chart.levenshtein char_str ascii_is_mark [] [] chart.lev_ins_function
    chart.lev_del_function chart.lev_sub_function chart.default_matrix
  = None ∧
  (∃ self',
     levenshtein.set_pair char_str ascii_is_mark levenshtein.default_ins_cost
       levenshtein.default_del_cost levenshtein.default_sub_cost
       levenshtein.__init__ [] [] = Some (0, self') ∧
     levenshtein.alignment_facts self' = Some []) ∧
  (∃ analysis matrix' steps,
     chart.levenshtein char_str ascii_is_mark
       ["c"; "a"; "t"]%char ["c"; "a"; "t"]%char chart.lev_ins_function
       chart.lev_del_function chart.lev_sub_function chart.default_matrix
       = Some (analysis, matrix') ∧
     chart.min_edit_distance analysis matrix' = Some 0 ∧
     chart.get_one_backtrace analysis matrix' = Some steps ∧
     length steps = length ["c"; "a"; "t"]%char ∧
     Forall keeps_element steps).
Proof.
  destruct (C10_chart_raises_on_the_empty_sequence char_str ascii_is_mark
              [] chart.default_matrix levenshtein.__init__)
    as (_ & Hraises & _ & self' & units & Hset & Hfacts & Hlen & _);
    [reflexivity|].
  destruct (C10_chart_raises_on_the_empty_sequence char_str ascii_is_mark
              ["c"; "a"; "t"]%char chart.default_matrix levenshtein.__init__)
    as (_ & _ & Hcat & _); [reflexivity|].
  split; [exact Hraises|]. split.
  - exists self'. split; [exact Hset|]. destruct units; [exact Hfacts|].
    discriminate Hlen.
  - apply Hcat. discriminate.
Defined.

(** * Further properties *)

(** ** Printable widths *)
Section widths.
Context {E Char : Type}.
Variable str : E → list Char.
Variable is_mark : Char → bool.

Lemma print_len_loop (l : list Char) (width : nat) :
  foldl (λ width character,
           if is_mark character then width else (width + 1)%nat) width l
  = (width + length (filter (λ c, is_mark c = false) l))%nat.
Proof.
  revert width. induction l as [|c l IH]; intros width; simpl; [lia|].
  rewrite IH. destruct (is_mark c) eqn:Hc.
  - by rewrite filter_cons_False by (rewrite Hc; done).
  - rewrite filter_cons_True by done. simpl. lia.
Qed.

Lemma print_len_agree (e : E) :
  levenshtein.print_len str is_mark e = chart.print_len str is_mark e.
Proof. unfold levenshtein.print_len. by rewrite print_len_loop. Qed.

Lemma marks_and_others (l : list Char) :
  (length (filter (λ c, is_mark c = false) l)
   + length (filter (λ c, is_mark c = true) l) = length l)%nat.
Proof.
  induction l as [|c l IH]; [done|]. destruct (is_mark c) eqn:Hc.
  - rewrite filter_cons_False, filter_cons_True by (rewrite Hc; done).
    simpl. lia.
  - rewrite filter_cons_True, filter_cons_False by (rewrite Hc; done).
    simpl. lia.
Qed.

Lemma no_marks_filter (l : list Char) :
  (∀ c, c ∈ l → is_mark c = false) →
  filter (λ c, is_mark c = true) l = [].
Proof.
  induction l as [|c l IH]; intros Hnone; [done|].
  rewrite filter_cons_False by (rewrite Hnone; [done|by left]).
  apply IH. intros c' Hc'. apply Hnone. by right.
Qed.

Lemma foldl_max_spec (l : list nat) (x : nat) :
  (x ≤ foldl Nat.max x l)%nat ∧
  (∀ y, y ∈ l → (y ≤ foldl Nat.max x l)%nat) ∧
  (foldl Nat.max x l = x ∨ foldl Nat.max x l ∈ l).
Proof.
  revert x. induction l as [|y l IH]; intros x; simpl.
  - split; [done|]. split; [by intros y ?%not_elem_of_nil|by left].
  - destruct (IH (Nat.max x y)) as (Hle & Hall & Hin). split; [lia|]. split.
    + intros z [->|Hz]%elem_of_cons; [lia|by apply Hall].
    + destruct Hin as [Heq|Hin]; [|right; by right].
      rewrite Heq. destruct (Nat.max_spec x y) as [[_ ->]|[_ ->]];
        [right; by left|by left].
Qed.

Lemma greatest_width_loop (l : list E) (widest : nat) :
  foldl (λ widest element,
           Nat.max widest (levenshtein.print_len str is_mark element))
        widest l
  = foldl Nat.max widest (chart.print_len str is_mark <$> l).
Proof.
  revert widest. induction l as [|e l IH]; intros widest; simpl; [done|].
  by rewrite IH, print_len_agree.
Qed.

Lemma greatest_width_agree (l : list E) (w : nat) :
  chart.greatest_width str is_mark l = Some w →
  levenshtein.greatest_width str is_mark l = w.
Proof.
  unfold chart.greatest_width, levenshtein.greatest_width.
  rewrite greatest_width_loop. destruct l as [|e l]; [done|].
  simpl. by intros [= <-].
Qed.

End widths.

(** X1.  Both modules count the printable width of an element the same way:
    the number of characters of [str(element)] that are not marks, which is
    the length of the string less the number of its marks. *)
Theorem print_len_counts_non_marks {E Char : Type} (str : E → list Char)
    (is_mark : Char → bool) (e : E) :
  chart.print_len str is_mark e = levenshtein.print_len str is_mark e ∧
  (chart.print_len str is_mark e
   + length (filter (λ c, is_mark c = true) (str e)) = length (str e))%nat ∧
  (chart.print_len str is_mark e = length (str e) ↔
   ∀ c, c ∈ str e → is_mark c = false).
Proof.
  split; [by rewrite print_len_agree|]. split; [apply marks_and_others|].
  pose proof (marks_and_others is_mark (str e)) as Hsum.
  unfold chart.print_len. split.
  - intros Hlen c Hc. destruct (is_mark c) eqn:Hmark; [|done].
    assert (c ∈ filter (λ c, is_mark c = true) (str e)) as Hin
      by (by apply list_elem_of_filter).
    destruct (filter (λ c, is_mark c = true) (str e));
      [by apply not_elem_of_nil in Hin|simpl in Hsum; lia].
  - intros Hnone.
    rewrite (no_marks_filter is_mark (str e) Hnone) in Hsum.
    simpl in Hsum. lia.
Qed.

(** X2.  [greatest_width] is the largest printable width among the
    elements.  On an empty sequence the one of [chart.py] raises
    [ValueError] and the one of [levenshtein.py] returns 0; on every other
    sequence the two return the same width. *)
Theorem greatest_width_is_maximum {E Char : Type} (str : E → list Char)
    (is_mark : Char → bool) (elements : list E) :
  (elements = [] →
   chart.greatest_width str is_mark elements = None ∧
   levenshtein.greatest_width str is_mark elements = 0%nat) ∧
  (elements ≠ [] →
   ∃ w, chart.greatest_width str is_mark elements = Some w ∧
        levenshtein.greatest_width str is_mark elements = w ∧
        (∀ e, e ∈ elements → (chart.print_len str is_mark e ≤ w)%nat) ∧
        ∃ e, e ∈ elements ∧ chart.print_len str is_mark e = w).
Proof.
  split; [by intros ->|]. intros Hne.
  destruct elements as [|e0 l]; [done|].
  destruct (greatest_width_cons str is_mark e0 l) as [w Hw].
  exists w. split; [done|]. split; [by apply greatest_width_agree|].
  unfold chart.greatest_width in Hw. rewrite fmap_cons in Hw.
  cbn [py_max] in Hw. injection Hw as <-.
  destruct (foldl_max_spec (chart.print_len str is_mark <$> l)
              (chart.print_len str is_mark e0)) as (Hle & Hall & Hin).
  split.
  - intros e [->|He]%elem_of_cons; [done|].
    apply Hall, list_elem_of_fmap. by exists e.
  - destruct Hin as [->|(e & -> & He)%list_elem_of_fmap].
    + exists e0. split; [by left|done].
    + exists e. split; [by right|done].
Qed.

(** ** The two tabular implementations side by side *)
Section tabular_agreement.
Context {E : Type} `{EqDecision E}.

(** The loop reads the sequences of the analysis and the cells at or
    before its position, and nothing else. *)
Lemma backtrace_loop_ext (analysis1 analysis2 : @chart.PairAnalysis E)
    (m1 m2 : gmap (nat * nat) chart.Cell) fuel :
  chart.source analysis1 = chart.source analysis2 →
  chart.target analysis1 = chart.target analysis2 →
  ∀ j i backtrace,
    (∀ i' j', (i' ≤ i)%nat → (j' ≤ j)%nat → m1 !! (i', j') = m2 !! (i', j')) →
    chart.backtrace_loop fuel analysis1 m1 j i backtrace =
    chart.backtrace_loop fuel analysis2 m2 j i backtrace.
Proof.
  intros Hs Ht. induction fuel as [|fuel IH]; intros j i bt Hm.
  - by destruct j, i.
  - destruct j as [|j], i as [|i]; simpl; [done|..];
      rewrite (Hm _ _ (le_n _) (le_n _));
      (destruct (m2 !! _) as [c|]; [|done]); simpl;
      destruct (chart.operation c); simpl; try done;
      rewrite ?Hs, ?Ht;
      repeat match goal with
             | |- context [?l !! ?k ≫= _] =>
               destruct (l !! k); simpl; [|done]
             end;
      apply IH; intros i' j' Hi' Hj'; apply Hm; lia.
Qed.

Lemma known_agree (analysis1 analysis2 : @chart.PairAnalysis E)
    (m1 m2 : gmap (nat * nat) chart.Cell) (K : nat → nat → Prop) :
  chart.source analysis1 = chart.source analysis2 →
  chart.target analysis1 = chart.target analysis2 →
  chart.ins_cost analysis1 = chart.ins_cost analysis2 →
  chart.del_cost analysis1 = chart.del_cost analysis2 →
  chart.sub_cost analysis1 = chart.sub_cost analysis2 →
  known analysis1 m1 K → known analysis2 m2 K →
  ∀ i j, K i j → m1 !! (i, j) = m2 !! (i, j).
Proof.
  intros Hs Ht Hi Hd Hsub H1 H2 i j HK.
  by rewrite (H1 i j HK), (H2 i j HK), Hs, Ht, Hi, Hd, Hsub.
Qed.

Lemma get_one_backtrace_agree (analysis1 analysis2 : @chart.PairAnalysis E)
    (m1 m2 : gmap (nat * nat) chart.Cell) :
  chart.source analysis1 = chart.source analysis2 →
  chart.target analysis1 = chart.target analysis2 →
  chart.ins_cost analysis1 = chart.ins_cost analysis2 →
  chart.del_cost analysis1 = chart.del_cost analysis2 →
  chart.sub_cost analysis1 = chart.sub_cost analysis2 →
  known analysis1 m1
    (λ i j, (i ≤ length (chart.target analysis1))%nat ∧
            (j ≤ length (chart.source analysis1))%nat) →
  known analysis2 m2
    (λ i j, (i ≤ length (chart.target analysis1))%nat ∧
            (j ≤ length (chart.source analysis1))%nat) →
  chart.get_one_backtrace analysis1 m1 = chart.get_one_backtrace analysis2 m2.
Proof.
  intros Hs Ht Hi Hd Hsub H1 H2. unfold chart.get_one_backtrace.
  rewrite <-Hs, <-Ht. cbv zeta. apply backtrace_loop_ext; [done..|].
  intros i j Hi' Hj'.
  by apply (known_agree analysis1 analysis2 m1 m2 _ Hs Ht Hi Hd Hsub H1 H2).
Qed.

End tabular_agreement.

(** X3.  The distance [chart.py] computes for two non-empty sequences is the
    least cost of an alignment: some sequence of insertions, deletions and
    substitutions that turns the source into the target has that cost, and
    none has a smaller one. *)
Theorem chart_distance_is_least_alignment_cost {E Char : Type}
    `{EqDecision E} (str : E → list Char) (is_mark : Char → bool)
    (s t : list E) (ins del : E → Z) (sub : E → E → Z)
    (matrix : gmap (nat * nat) chart.Cell) :
  s ≠ [] → t ≠ [] → origin_cell matrix →
  ∃ analysis matrix' d,
    chart.levenshtein str is_mark s t ins del sub matrix
      = Some (analysis, matrix') ∧
    chart.min_edit_distance analysis matrix' = Some d ∧
    align ins del sub s t d ∧
    ∀ c, align ins del sub s t c → d ≤ c.
Proof.
  intros Hs Ht Horigin.
  destruct (levenshtein_succeeds str is_mark s t ins del sub matrix)
    as (analysis & matrix' & Hcall); [done..|].
  destruct (levenshtein_returns _ _ _ _ _ _ _ _ _ _ Horigin Hcall)
    as (? & ? & ? & ? & ? & _ & _ & Hknown).
  exists analysis, matrix', (opt_cost ins del sub s t).
  split; [done|]. split; [by apply min_edit_distance_optimal|].
  split; [apply opt_cost_attained|apply opt_cost_least].
Qed.

Lemma chart_distance_is_least_alignment_cost_witness :
  ∃ analysis matrix' d,
    chart.levenshtein char_str ascii_is_mark
      ["d"; "a"; "g"]%char ["d"; "o"; "g"; "e"]%char
      chart.lev_ins_function chart.lev_del_function chart.lev_sub_function
      chart.default_matrix = Some (analysis, matrix') ∧
    chart.min_edit_distance analysis matrix' = Some d ∧
    align chart.lev_ins_function chart.lev_del_function
      chart.lev_sub_function ["d"; "a"; "g"]%char ["d"; "o"; "g"; "e"]%char d ∧
    ∀ c, align chart.lev_ins_function chart.lev_del_function
           chart.lev_sub_function
           ["d"; "a"; "g"]%char ["d"; "o"; "g"; "e"]%char c → d ≤ c.
Proof.
  apply (chart_distance_is_least_alignment_cost char_str ascii_is_mark);
    [done|done|reflexivity].
Defined.

(** X4.  For costs that [levenshtein.py] adds without rounding,
    [Levenshtein.set_pair] returns, for every pair of sequences, the least
    cost of an alignment; [min_edit_distance] then returns the same value;
    every cell of the matrix holds an integer within 2^53 in magnitude, at
    most the sum of its coordinates times the greatest cost; and the value
    and the state of the engine after the call are those of a new engine
    given the same pair, whatever pair the engine held before. *)
Theorem set_pair_distance_is_least_alignment_cost {E Char : Type}
    `{EqDecision E} (str : E → list Char) (is_mark : Char → bool)
    (ins del : E → Z) (sub : E → E → Z)
    (self : @levenshtein.Levenshtein E) (s t : list E) :
  float_exact ins del sub s t →
  ∃ d self' distance,
    levenshtein.set_pair str is_mark ins del sub self s t = Some (d, self') ∧
    levenshtein.min_edit_distance self' = Some d ∧
    align ins del sub s t d ∧
    (∀ c, align ins del sub s t c → d ≤ c) ∧
    levenshtein.distance self' = Some distance ∧
    (∀ i j, (i ≤ length t)%nat → (j ≤ length s)%nat →
       ∃ c, distance !! (i, j) = Some c ∧
            Z.abs (levenshtein.num c)
            ≤ Z.of_nat (i + j) * greatest_cost ins del sub s t ∧
            Z.abs (levenshtein.num c) ≤ 2 ^ 53) ∧
    levenshtein.set_pair str is_mark ins del sub levenshtein.__init__ s t
      = Some (d, self').
Proof.
  intros Hexact.
  destruct (set_pair_simulation str is_mark ins del sub self s t)
    as (matrix & Hrun & Hknown & Hset).
  destruct (set_pair_simulation str is_mark ins del sub levenshtein.__init__
              s t) as (matrix0 & Hrun0 & _ & Hset0).
  rewrite Hrun in Hrun0. injection Hrun0 as <-.
  eexists _, _, (lev_cell <$> matrix). split; [exact Hset|].
  split_and!; [|apply opt_cost_attained|apply opt_cost_least|done| |done].
  - pose proof (min_edit_distance_optimal s t ins del sub
                  (chart.mkPairAnalysis s 0 t 0 ins del sub) matrix
                  eq_refl eq_refl eq_refl eq_refl eq_refl Hknown) as Hmin.
    unfold chart.min_edit_distance in Hmin.
    cbn [chart.source chart.target] in Hmin.
    unfold levenshtein.min_edit_distance.
    cbn [levenshtein.distance levenshtein.sequence1 levenshtein.sequence2
         mbind option_bind].
    rewrite lookup_fmap.
    destruct (matrix !! (length t, length s)) as [c|]; [exact Hmin|done].
  - intros i j Hi Hj. eexists. rewrite lookup_fmap.
    rewrite (Hknown i j (conj Hi Hj)). split; [done|].
    cbn [lev_cell levenshtein.num].
    rewrite expected_cell_cumulative by done.
    cbn [chart.source chart.target chart.ins_cost chart.del_cost
         chart.sub_cost].
    split; [apply prefix_cost_magnitude|by apply prefix_cost_exact].
Qed.

Lemma set_pair_distance_is_least_alignment_cost_witness :
  ∃ d self' distance,
    levenshtein.set_pair char_str ascii_is_mark
      chart.lev_ins_function chart.lev_del_function chart.lev_sub_function
      levenshtein.__init__ ["d"; "a"; "g"]%char ["d"; "o"; "g"; "e"]%char
      = Some (d, self') ∧
    levenshtein.min_edit_distance self' = Some d ∧
    align chart.lev_ins_function chart.lev_del_function
      chart.lev_sub_function ["d"; "a"; "g"]%char ["d"; "o"; "g"; "e"]%char d ∧
    (∀ c, align chart.lev_ins_function chart.lev_del_function
            chart.lev_sub_function
            ["d"; "a"; "g"]%char ["d"; "o"; "g"; "e"]%char c → d ≤ c) ∧
    levenshtein.distance self' = Some distance ∧
    (∀ i j, (i ≤ length ["d"; "o"; "g"; "e"]%char)%nat →
            (j ≤ length ["d"; "a"; "g"]%char)%nat →
       ∃ c, distance !! (i, j) = Some c ∧
            Z.abs (levenshtein.num c)
            ≤ Z.of_nat (i + j)
              * greatest_cost chart.lev_ins_function chart.lev_del_function
                  chart.lev_sub_function
                  ["d"; "a"; "g"]%char ["d"; "o"; "g"; "e"]%char ∧
            Z.abs (levenshtein.num c) ≤ 2 ^ 53) ∧
    levenshtein.set_pair char_str ascii_is_mark
      chart.lev_ins_function chart.lev_del_function chart.lev_sub_function
      levenshtein.__init__ ["d"; "a"; "g"]%char ["d"; "o"; "g"; "e"]%char
      = Some (d, self').
Proof.
  apply (set_pair_distance_is_least_alignment_cost char_str ascii_is_mark).
  by vm_compute.
Defined.

(** X5.  On two non-empty sequences and the same cost functions, with
    costs that [levenshtein.py] adds without rounding, the two tabular
    implementations agree: [set_pair] returns the distance of
    [chart.min_edit_distance], an integer within 2^53, [alignment_facts]
    lists the steps of [chart.get_one_backtrace], each with its elements
    and the cumulative cost of its cell, and the engine holds the two
    column widths of the analysis. *)
Theorem tabular_engines_agree {E Char : Type} `{EqDecision E}
    (str : E → list Char) (is_mark : Char → bool) (s t : list E)
    (ins del : E → Z) (sub : E → E → Z)
    (matrix : gmap (nat * nat) chart.Cell)
    (self : @levenshtein.Levenshtein E) :
  s ≠ [] → t ≠ [] → origin_cell matrix → float_exact ins del sub s t →
  ∃ analysis matrix' d steps self',
    chart.levenshtein str is_mark s t ins del sub matrix
      = Some (analysis, matrix') ∧
    chart.min_edit_distance analysis matrix' = Some d ∧
    chart.get_one_backtrace analysis matrix' = Some steps ∧
    levenshtein.set_pair str is_mark ins del sub self s t = Some (d, self') ∧
    Z.abs d ≤ 2 ^ 53 ∧
    levenshtein.alignment_facts self'
      = Some ((λ st, levenshtein.mkAlignmentUnit (chart.step_source st)
                       (chart.step_target st)
                       (chart.cumulative_cost (chart.cell st))) <$> steps) ∧
    levenshtein.widest_sequence1_char self'
      = Some (chart.source_widest analysis) ∧
    levenshtein.widest_sequence2_char self'
      = Some (chart.target_widest analysis).
Proof.
  intros Hs Ht Horigin Hexact.
  destruct (levenshtein_succeeds str is_mark s t ins del sub matrix)
    as (analysis & matrix' & Hcall); [done..|].
  destruct (levenshtein_returns _ _ _ _ _ _ _ _ _ _ Horigin Hcall)
    as (Hsrc & Htgt & Hins & Hdel & Hsub & Hws & Hwt & Hknown).
  destruct (alignment_facts_simulation str is_mark ins del sub self s t)
    as (d & self' & m & steps & Hset & -> & _ & _ & _ & Hknown' & Hbt & _
        & Hfacts).
  destruct (set_pair_simulation str is_mark ins del sub self s t)
    as (m0 & _ & _ & Hset0).
  rewrite Hset in Hset0. injection Hset0 as ->.
  exists analysis, matrix', (opt_cost ins del sub s t), steps. eexists.
  split; [done|]. split; [by apply min_edit_distance_optimal|].
  split.
  { rewrite <-Hbt. apply get_one_backtrace_agree; try done.
    - by rewrite Hsrc, Htgt.
    - by rewrite Hsrc, Htgt. }
  split; [exact Hset|]. split.
  { rewrite <-(prefix_cost_corner s t ins del sub).
    by apply prefix_cost_exact. }
  split; [exact Hfacts|].
  cbn [levenshtein.widest_sequence1_char levenshtein.widest_sequence2_char].
  by rewrite (greatest_width_agree _ _ _ _ Hws),
    (greatest_width_agree _ _ _ _ Hwt).
Qed.

Lemma tabular_engines_agree_witness :
  ∃ analysis matrix' d steps self',
    chart.levenshtein char_str ascii_is_mark
      ["d"; "a"; "g"]%char ["d"; "o"; "g"; "e"]%char
      chart.lev_ins_function chart.lev_del_function chart.lev_sub_function
      chart.default_matrix = Some (analysis, matrix') ∧
    chart.min_edit_distance analysis matrix' = Some d ∧
    chart.get_one_backtrace analysis matrix' = Some steps ∧
    levenshtein.set_pair char_str ascii_is_mark
      chart.lev_ins_function chart.lev_del_function chart.lev_sub_function
      levenshtein.__init__ ["d"; "a"; "g"]%char ["d"; "o"; "g"; "e"]%char
      = Some (d, self') ∧
    Z.abs d ≤ 2 ^ 53 ∧
    levenshtein.alignment_facts self'
      = Some ((λ st, levenshtein.mkAlignmentUnit (chart.step_source st)
                       (chart.step_target st)
                       (chart.cumulative_cost (chart.cell st))) <$> steps) ∧
    levenshtein.widest_sequence1_char self'
      = Some (chart.source_widest analysis) ∧
    levenshtein.widest_sequence2_char self'
      = Some (chart.target_widest analysis).
Proof.
  apply (tabular_engines_agree char_str ascii_is_mark);
    [done|done|reflexivity|by vm_compute].
Defined.

(** X6.  The backtrace of [chart.py] for two non-empty sequences is an
    alignment of least cost: every step aligns at least one element and
    carries the tag and the cost of its operation on its elements, the
    costs of the steps add up to the minimum edit distance, and there are
    at least as many steps as the longer sequence has elements and at most
    as many as the two sequences together. *)
Theorem backtrace_is_least_cost_alignment {E Char : Type} `{EqDecision E}
    (str : E → list Char) (is_mark : Char → bool) (s t : list E)
    (ins del : E → Z) (sub : E → E → Z)
    (matrix : gmap (nat * nat) chart.Cell) :
  s ≠ [] → t ≠ [] → origin_cell matrix →
  ∃ analysis matrix' d steps,
    chart.levenshtein str is_mark s t ins del sub matrix
      = Some (analysis, matrix') ∧
    chart.min_edit_distance analysis matrix' = Some d ∧
    chart.get_one_backtrace analysis matrix' = Some steps ∧
    Forall (costed_step ins del sub) steps ∧
    total ((λ st, chart.this_cost (chart.cell st)) <$> steps) = d ∧
    (length s `max` length t ≤ length steps ≤ length s + length t)%nat.
Proof.
  intros Hs Ht Horigin.
  destruct (levenshtein_succeeds str is_mark s t ins del sub matrix)
    as (analysis & matrix' & Hcall); [done..|].
  destruct (levenshtein_returns _ _ _ _ _ _ _ _ _ _ Horigin Hcall)
    as (Hsrc & Htgt & Hins & Hdel & Hsub & _ & _ & Hknown).
  pose proof Hknown as Hknown'. rewrite <-Hsrc, <-Htgt in Hknown'.
  destruct (get_one_backtrace_traced analysis matrix' Hknown')
    as (steps & Hbt & [Hsources Htargets Htot _ _]).
  pose proof (get_one_backtrace_costed analysis matrix' Hknown' steps Hbt)
    as Hcosted.
  rewrite Hins, Hdel, Hsub in Hcosted.
  exists analysis, matrix', (opt_cost ins del sub s t), steps.
  split; [done|]. split; [by apply min_edit_distance_optimal|].
  split; [done|]. split; [done|]. split.
  - rewrite Htot, prefix_cost_corner. by rewrite Hsrc, Htgt, Hins, Hdel, Hsub.
  - destruct (costed_steps_length ins del sub steps Hcosted)
      as (Hle & Hsl & Htl).
    rewrite Hsources, Htargets, !firstn_all, Hsrc, Htgt in *. lia.
Qed.

Lemma backtrace_is_least_cost_alignment_witness :
  ∃ analysis matrix' d steps,
    chart.levenshtein char_str ascii_is_mark
      ["d"; "a"; "g"]%char ["d"; "o"; "g"; "e"]%char
      chart.lev_ins_function chart.lev_del_function chart.lev_sub_function
      chart.default_matrix = Some (analysis, matrix') ∧
    chart.min_edit_distance analysis matrix' = Some d ∧
    chart.get_one_backtrace analysis matrix' = Some steps ∧
    Forall (costed_step chart.lev_ins_function chart.lev_del_function
              chart.lev_sub_function) steps ∧
    total ((λ st, chart.this_cost (chart.cell st)) <$> steps) = d ∧
    (length ["d"; "a"; "g"]%char `max` length ["d"; "o"; "g"; "e"]%char
     ≤ length steps
     ≤ length ["d"; "a"; "g"]%char + length ["d"; "o"; "g"; "e"]%char)%nat.
Proof.
  apply (backtrace_is_least_cost_alignment char_str ascii_is_mark);
    [done|done|reflexivity].
Defined.

(** ** chart.py: what a call changes in the shared matrix *)

Lemma for_each_preserves {A St : Type} (P : St → Prop) (l : list A)
    (body : A → St → option St) (st st' : St) :
  for_each l body st = Some st' → P st →
  (∀ k x st0 st1, l !! k = Some x → body x st0 = Some st1 → P st0 → P st1) →
  P st'.
Proof.
  revert st. induction l as [|x l IH]; intros st Hrun HP Hbody; simpl in Hrun.
  - by injection Hrun as <-.
  - destruct (body x st) as [st1|] eqn:Hx; [|done]. simpl in Hrun.
    apply (IH st1); [done|by apply (Hbody 0%nat x st)|].
    intros k y st0 st2 Hk. by apply (Hbody (S k)).
Qed.

Section matrix_frame.
Context {E : Type} `{EqDecision E}.
Variable analysis : @chart.PairAnalysis E.
Variable matrix : gmap (nat * nat) chart.Cell.

Abbreviation untouched := (untouched_outside analysis matrix).

Lemma untouched_insert m i j c :
  untouched m →
  (i ≤ length (chart.target analysis))%nat →
  (j ≤ length (chart.source analysis))%nat →
  untouched (<[(i, j) := c]> m).
Proof.
  intros Hm Hi Hj i' j' Hout. rewrite lookup_insert_ne; [by apply Hm|].
  intros [= <- <-]. lia.
Qed.

Lemma compute_min_edit_distance_frame matrix' :
  chart.compute_min_edit_distance analysis matrix = Some matrix' →
  untouched matrix'.
Proof.
  unfold chart.compute_min_edit_distance. intros Hrun.
  match type of Hrun with
  | for_each ?l ?body ?st ≫= _ = _ =>
    destruct (for_each l body st) as [m1|] eqn:Hrun1; [|done]
  end.
  cbn [mbind option_bind] in Hrun.
  match type of Hrun with
  | for_each ?l ?body ?st ≫= _ = _ =>
    destruct (for_each l body st) as [m2|] eqn:Hrun2; [|done]
  end.
  cbn [mbind option_bind] in Hrun.
  assert (untouched m1) as H1.
  { eapply (for_each_preserves untouched); [exact Hrun1|by intros ? ?|].
    intros k p m m' [b [-> Hb]]%enumerate1_lookup Hbody Hm.
    apply lookup_lt_Some in Hb. simpl in Hbody.
    destruct (chart.make_edited_cell _ _ _ _ _) as [c|]; [|done].
    simpl in Hbody. injection Hbody as <-.
    apply untouched_insert; [done|lia..]. }
  assert (untouched m2) as H2.
  { eapply (for_each_preserves untouched); [exact Hrun2|done|].
    intros k p m m' [a [-> Ha]]%enumerate1_lookup Hbody Hm.
    apply lookup_lt_Some in Ha. simpl in Hbody.
    destruct (chart.make_edited_cell _ _ _ _ _) as [c|]; [|done].
    simpl in Hbody. injection Hbody as <-.
    apply untouched_insert; [done|lia..]. }
  eapply (for_each_preserves untouched); [exact Hrun|done|].
  intros k p m m' [b [-> Hb]]%enumerate1_lookup Hbody Hm.
  apply lookup_lt_Some in Hb.
  eapply (for_each_preserves untouched); [exact Hbody|done|].
  intros l q m0 m0' [a [-> Ha]]%enumerate1_lookup Hinner Hm0.
  apply lookup_lt_Some in Ha. simpl in Hinner.
  repeat match type of Hinner with
         | context [chart.make_edited_cell ?an ?mx ?co ?x ?y ≫= _] =>
           destruct (chart.make_edited_cell an mx co x y);
             cbn [mbind option_bind] in Hinner; [|done]
         end.
  injection Hinner as <-. apply untouched_insert; [done|lia..].
Qed.

End matrix_frame.

(** A finite map defined exactly on a rectangle of coordinates. *)
Lemma NoDup_list_prod (l1 l2 : list nat) :
  NoDup l1 → NoDup l2 → NoDup (list_prod l1 l2).
Proof.
  intros H1 H2. induction H1 as [|x l1 Hx _ IH]; simpl; [constructor|].
  apply NoDup_app. split_and!; [| |exact IH].
  - by apply (NoDup_fmap_2 (λ y, (x, y))).
  - intros [x' y] (y' & [= -> ->] & _)%list_elem_of_fmap
      [Hin _]%list_elem_of_In%List.in_prod_iff.
    by apply list_elem_of_In in Hin.
Qed.

Lemma size_rectangle {A : Type} (m : gmap (nat * nat) A) (rows cols : nat) :
  (∀ i j, is_Some (m !! (i, j)) ↔ (i ≤ rows)%nat ∧ (j ≤ cols)%nat) →
  size m = (S rows * S cols)%nat.
Proof.
  intros Hdom. rewrite <-(size_dom (D:=gset (nat * nat))).
  assert (dom m = list_to_set (list_prod (seq 0 (S rows)) (seq 0 (S cols))))
    as ->.
  { apply set_eq. intros [i j].
    rewrite elem_of_dom, Hdom, elem_of_list_to_set, list_elem_of_In,
      List.in_prod_iff, <-!list_elem_of_In, !elem_of_seq. lia. }
  rewrite size_list_to_set by (apply NoDup_list_prod; apply NoDup_seq).
  by rewrite List.length_prod, !length_seq.
Qed.

Lemma compute_from_default_domain {E : Type} `{EqDecision E}
    (analysis : @chart.PairAnalysis E) (m : gmap (nat * nat) chart.Cell) :
  chart.compute_min_edit_distance analysis chart.default_matrix = Some m →
  ∀ i j, is_Some (m !! (i, j)) ↔
         (i ≤ length (chart.target analysis))%nat ∧
         (j ≤ length (chart.source analysis))%nat.
Proof.
  intros Hrun i j.
  destruct (compute_min_edit_distance_known analysis chart.default_matrix)
    as (m' & Hrun' & Hknown); [done|].
  rewrite Hrun in Hrun'. injection Hrun' as <-.
  pose proof (compute_min_edit_distance_frame analysis _ m Hrun) as Hframe.
  split.
  - intros Hsome.
    destruct (decide (i ≤ length (chart.target analysis))%nat) as [Hi|Hi];
      [destruct (decide (j ≤ length (chart.source analysis))%nat)
         as [Hj|Hj]; [done|]|].
    + rewrite (Hframe i j) in Hsome by lia.
      unfold chart.default_matrix in Hsome.
      rewrite lookup_singleton_ne in Hsome by (intros [= <- <-]; lia).
      by destruct Hsome.
    + rewrite (Hframe i j) in Hsome by lia.
      unfold chart.default_matrix in Hsome.
      rewrite lookup_singleton_ne in Hsome by (intros [= <- <-]; lia).
      by destruct Hsome.
  - intros Hr. rewrite (Hknown i j Hr). by eexists.
Qed.

(** X7.  A call of [chart.levenshtein] writes the cells of its own
    rectangle and no other: a cell of the shared matrix at a row beyond
    the target or a column beyond the source is left as it was; the
    analysis returned and the cells inside the rectangle do not depend on
    what the matrix held before; and on a matrix that holds the origin
    cell only, as at the first call, the matrix ends with
    (|source| + 1) * (|target| + 1) cells. *)
Theorem levenshtein_writes_its_rectangle_only {E Char : Type}
    `{EqDecision E} (str : E → list Char) (is_mark : Char → bool)
    (s t : list E) (ins del : E → Z) (sub : E → E → Z)
    (matrix : gmap (nat * nat) chart.Cell) :
  s ≠ [] → t ≠ [] → origin_cell matrix →
  ∃ analysis matrix',
    chart.levenshtein str is_mark s t ins del sub matrix
      = Some (analysis, matrix') ∧
    (∀ i j, (length t < i)%nat ∨ (length s < j)%nat →
            matrix' !! (i, j) = matrix !! (i, j)) ∧
    (∀ other, origin_cell other →
       ∃ other',
         chart.levenshtein str is_mark s t ins del sub other
           = Some (analysis, other') ∧
         ∀ i j, (i ≤ length t)%nat → (j ≤ length s)%nat →
                is_Some (matrix' !! (i, j)) ∧
                other' !! (i, j) = matrix' !! (i, j)) ∧
    (matrix = chart.default_matrix →
     size matrix' = ((length s + 1) * (length t + 1))%nat).
Proof.
  intros Hs Ht Horigin.
  destruct (levenshtein_succeeds str is_mark s t ins del sub matrix)
    as (analysis & matrix' & Hcall); [done..|].
  destruct (levenshtein_returns _ _ _ _ _ _ _ _ _ _ Horigin Hcall)
    as (Hsrc & Htgt & Hins & Hdel & Hsub & Hws & Hwt & Hknown).
  exists analysis, matrix'. split; [done|].
  assert (chart.compute_min_edit_distance analysis matrix = Some matrix')
    as Hrun.
  { revert Hcall. unfold chart.levenshtein. rewrite Hws, Hwt.
    cbn [mbind option_bind].
    destruct (chart.compute_min_edit_distance _ matrix) as [m|] eqn:Hm;
      [|done].
    cbn [mbind option_bind]. intros [= <- <-]. done. }
  split_and!.
  - intros i j Hout.
    apply (compute_min_edit_distance_frame analysis matrix matrix' Hrun).
    by rewrite Hsrc, Htgt.
  - intros other Hother.
    destruct (levenshtein_succeeds str is_mark s t ins del sub other)
      as (analysis2 & other' & Hcall2); [done..|].
    destruct (levenshtein_returns _ _ _ _ _ _ _ _ _ _ Hother Hcall2)
      as (Hsrc2 & Htgt2 & Hins2 & Hdel2 & Hsub2 & Hws2 & Hwt2 & Hknown2).
    assert (analysis2 = analysis) as ->.
    { destruct analysis, analysis2. simpl in *. subst.
      rewrite Hws in Hws2. rewrite Hwt in Hwt2.
      injection Hws2 as ->. injection Hwt2 as ->. done. }
    exists other'. split; [done|]. intros i j Hi Hj.
    rewrite (Hknown i j (conj Hi Hj)), (Hknown2 i j (conj Hi Hj)).
    split; [by eexists|done].
  - intros ->.
    rewrite (size_rectangle matrix' (length t) (length s)); [lia|].
    intros i j. rewrite <-Hsrc, <-Htgt.
    by apply compute_from_default_domain.
Qed.

Lemma levenshtein_writes_its_rectangle_only_witness :
  ∃ analysis matrix',
    chart.levenshtein char_str ascii_is_mark
      ["d"; "a"; "g"]%char ["d"; "o"; "g"; "e"]%char
      chart.lev_ins_function chart.lev_del_function chart.lev_sub_function
      chart.default_matrix = Some (analysis, matrix') ∧
    (∀ i j, (length ["d"; "o"; "g"; "e"]%char < i)%nat ∨
            (length ["d"; "a"; "g"]%char < j)%nat →
            matrix' !! (i, j) = chart.default_matrix !! (i, j)) ∧
    (∀ other, origin_cell other →
       ∃ other',
         chart.levenshtein char_str ascii_is_mark
           ["d"; "a"; "g"]%char ["d"; "o"; "g"; "e"]%char
           chart.lev_ins_function chart.lev_del_function
           chart.lev_sub_function other = Some (analysis, other') ∧
         ∀ i j, (i ≤ length ["d"; "o"; "g"; "e"]%char)%nat →
                (j ≤ length ["d"; "a"; "g"]%char)%nat →
                is_Some (matrix' !! (i, j)) ∧
                other' !! (i, j) = matrix' !! (i, j)) ∧
    (chart.default_matrix = chart.default_matrix →
     size matrix'
     = ((length ["d"; "a"; "g"]%char + 1)
        * (length ["d"; "o"; "g"; "e"]%char + 1))%nat).
Proof.
  apply (levenshtein_writes_its_rectangle_only char_str ascii_is_mark);
    [done|done|reflexivity].
Defined.

(** X8.  After [Levenshtein.set_pair] the dict of the engine holds a cell
    at exactly the coordinates (i, j) with i up to the length of the second
    sequence and j up to the length of the first, so
    (|sequence1| + 1) * (|sequence2| + 1) cells whatever the engine held
    before; and the tag [START] is on the cell at (0, 0) and on no other
    cell. *)
Theorem set_pair_fills_the_matrix {E Char : Type} `{EqDecision E}
    (str : E → list Char) (is_mark : Char → bool)
    (ins del : E → Z) (sub : E → E → Z)
    (self : @levenshtein.Levenshtein E) (s t : list E) :
  ∃ d self' distance,
    levenshtein.set_pair str is_mark ins del sub self s t = Some (d, self') ∧
    levenshtein.distance self' = Some distance ∧
    (∀ i j, is_Some (distance !! (i, j)) ↔
            (i ≤ length t)%nat ∧ (j ≤ length s)%nat) ∧
    size distance = ((length s + 1) * (length t + 1))%nat ∧
    (∀ i j c, distance !! (i, j) = Some c →
       (levenshtein.operation c = levenshtein.START ↔
        i = 0%nat ∧ j = 0%nat)).
Proof.
  destruct (set_pair_simulation str is_mark ins del sub self s t)
    as (matrix & Hrun & Hknown & Hset).
  pose proof (compute_from_default_domain _ matrix Hrun) as Hdom.
  cbn [chart.source chart.target] in Hdom.
  eexists _, _, (lev_cell <$> matrix). split; [exact Hset|].
  split; [done|]. split_and!.
  - intros i j. rewrite lookup_fmap, fmap_is_Some. apply Hdom.
  - rewrite map_size_fmap, (size_rectangle matrix (length t) (length s));
      [lia|done].
  - intros i j c. rewrite lookup_fmap.
    destruct (matrix !! (i, j)) as [c0|] eqn:Hc0; [|done].
    intros [= <-].
    assert ((i ≤ length t)%nat ∧ (j ≤ length s)%nat) as Hr
      by (apply Hdom; by eexists).
    rewrite (Hknown i j Hr) in Hc0. injection Hc0 as <-.
    pose proof (expected_cell_operation
                  (chart.mkPairAnalysis s 0 t 0 ins del sub) i j Hr) as Hop.
    unfold lev_cell. cbn [levenshtein.operation].
    destruct (chart.operation _) eqn:Htag; cbn [tag_of].
    + done.
    + destruct Hop as (i' & ? & -> & _). split; [done|]. intros [? _]; lia.
    + destruct Hop as (j' & ? & -> & _). split; [done|]. intros [_ ?]; lia.
    + destruct Hop as (i' & j' & ? & ? & -> & -> & _).
      split; [done|]. intros [? _]; lia.
Qed.

(** ** xducer.py: the shape of the result *)

(** One branch of [parse]: [cell] in front of every suffix, with the cost
    [d] of the suffixes added to its cumulative cost. *)
Abbreviation branch cell d tail :=
  (cons (with_suffix cell d) <$> suffixes tail).

(** What [remove_suboptimal_parses] keeps of the parses of cost [m]. *)
Abbreviation kept just_one m cands :=
  (let minimal := filter (λ p, xducer.parse_cost p = Some m) cands in
   if just_one then take 1 minimal else minimal).

Section result_shape.
Context {E : Type}.
Variable costs : @xducer.CostFunctions E.

Abbreviation opt :=
  (opt_cost (xducer.insert costs) (xducer.delete costs)
     (xducer.substitute costs)).

Lemma branch_cost cell d (tail : list (list (@xducer.Cell E))) p :
  p ∈ branch cell d tail →
  xducer.parse_cost p = Some (xducer.this_cost cell + d).
Proof. by intros (p' & -> & _)%list_elem_of_fmap. Qed.

Lemma branch_nonempty cell d (tail : list (list (@xducer.Cell E))) :
  branch cell d tail ≠ [].
Proof. intros Hnil%fmap_nil_inv. by apply suffixes_nonempty in Hnil. Qed.

Lemma prepend_branch just_one s t cell tail :
  paths costs just_one s t = Some tail →
  xducer.cumul_cost cell = xducer.this_cost cell →
  prepend cell tail = Some (branch cell (opt s t) tail).
Proof.
  intros Htail Hcell.
  destruct (paths_result costs just_one s t) as (tail' & Htail' & [_ Hne Hp]).
  rewrite Htail in Htail'. injection Htail' as <-.
  apply prepend_suffixes; [done..|].
  intros p Hp'. by destruct (Hp p Hp').
Qed.

Lemma keep_optimal_kept just_one m (cands : list (list (@xducer.Cell E))) :
  cands ≠ [] →
  (∀ p, p ∈ cands → ∃ c, xducer.parse_cost p = Some c ∧ m ≤ c) →
  (∃ p, p ∈ cands ∧ xducer.parse_cost p = Some m) →
  keep_optimal just_one cands = Some (kept just_one m cands).
Proof.
  intros Hne Hall Hmin. unfold keep_optimal.
  rewrite (remove_suboptimal_minimum cands just_one m Hne Hall Hmin).
  by destruct cands.
Qed.

Lemma paths_shape_nil_cons just_one b t :
  ∃ tail,
    paths costs just_one [] t = Some tail ∧
    paths costs just_one [] (b :: t) =
    Some (kept just_one (opt [] (b :: t))
            (branch (ins_cell costs b) (opt [] t) tail)).
Proof.
  destruct (paths_result costs just_one [] t) as (tail & Htail & _).
  exists tail. split; [done|].
  rewrite paths_nil_cons, Htail. cbn [mbind option_bind].
  rewrite (prepend_branch just_one [] t) by done. cbn [mbind option_bind].
  apply keep_optimal_kept; [apply branch_nonempty|..].
  - intros p Hp. rewrite (branch_cost _ _ _ _ Hp). eexists. split; [done|].
    rewrite opt_cost_nil_cons. simpl. lia.
  - destruct (branch (ins_cell costs b) (opt [] t) tail) as [|p l] eqn:Hb;
      [by apply branch_nonempty in Hb|].
    exists p. split; [by left|].
    rewrite (branch_cost (ins_cell costs b) (opt [] t) tail p)
      by (rewrite Hb; by left).
    rewrite opt_cost_nil_cons. simpl. f_equal. lia.
Qed.

Lemma paths_shape_cons_nil just_one a s :
  ∃ tail,
    paths costs just_one s [] = Some tail ∧
    paths costs just_one (a :: s) [] =
    Some (kept just_one (opt (a :: s) [])
            (branch (del_cell costs a) (opt s []) tail)).
Proof.
  destruct (paths_result costs just_one s []) as (tail & Htail & _).
  exists tail. split; [done|].
  rewrite paths_cons_nil, Htail. cbn [mbind option_bind].
  rewrite (prepend_branch just_one s []) by done. cbn [mbind option_bind].
  apply keep_optimal_kept; [apply branch_nonempty|..].
  - intros p Hp. rewrite (branch_cost _ _ _ _ Hp). eexists. split; [done|].
    rewrite opt_cost_cons_nil. simpl. lia.
  - destruct (branch (del_cell costs a) (opt s []) tail) as [|p l] eqn:Hb;
      [by apply branch_nonempty in Hb|].
    exists p. split; [by left|].
    rewrite (branch_cost (del_cell costs a) (opt s []) tail p)
      by (rewrite Hb; by left).
    rewrite opt_cost_cons_nil. simpl. f_equal. lia.
Qed.

Lemma paths_shape_cons_cons just_one a s b t :
  ∃ tail_sub tail_del tail_ins,
    paths costs just_one s t = Some tail_sub ∧
    paths costs just_one s (b :: t) = Some tail_del ∧
    paths costs just_one (a :: s) t = Some tail_ins ∧
    paths costs just_one (a :: s) (b :: t) =
    Some (kept just_one (opt (a :: s) (b :: t))
            ((branch (sub_cell costs a b) (opt s t) tail_sub
              ++ branch (del_cell costs a) (opt s (b :: t)) tail_del)
             ++ branch (ins_cell costs b) (opt (a :: s) t) tail_ins)).
Proof.
  destruct (paths_result costs just_one s t) as (tail_sub & Hsub & _).
  destruct (paths_result costs just_one s (b :: t)) as (tail_del & Hdel & _).
  destruct (paths_result costs just_one (a :: s) t) as (tail_ins & Hins & _).
  exists tail_sub, tail_del, tail_ins. split_and!; [done..|].
  rewrite paths_cons_cons, Hsub. cbn [mbind option_bind].
  rewrite (prepend_branch just_one s t) by done. cbn [mbind option_bind].
  rewrite Hdel. cbn [mbind option_bind].
  rewrite (prepend_branch just_one s (b :: t)) by done.
  cbn [mbind option_bind]. rewrite Hins. cbn [mbind option_bind].
  rewrite (prepend_branch just_one (a :: s) t) by done.
  cbn [mbind option_bind].
  apply keep_optimal_kept.
  - intros [Hnil _]%app_eq_nil. apply app_eq_nil in Hnil as [Hnil _].
    by apply branch_nonempty in Hnil.
  - intros p [[Hp|Hp]%elem_of_app|Hp]%elem_of_app;
      rewrite (branch_cost _ _ _ _ Hp); (eexists; split; [done|]);
      rewrite opt_cost_cons_cons; simpl; lia.
  - destruct (branch (sub_cell costs a b) (opt s t) tail_sub)
      as [|p1 l1] eqn:Hb1; [by apply branch_nonempty in Hb1|].
    destruct (branch (del_cell costs a) (opt s (b :: t)) tail_del)
      as [|p2 l2] eqn:Hb2; [by apply branch_nonempty in Hb2|].
    destruct (branch (ins_cell costs b) (opt (a :: s) t) tail_ins)
      as [|p3 l3] eqn:Hb3; [by apply branch_nonempty in Hb3|].
    pose proof (branch_cost (sub_cell costs a b) (opt s t) tail_sub p1) as H1.
    pose proof (branch_cost (del_cell costs a) (opt s (b :: t)) tail_del p2)
      as H2.
    pose proof (branch_cost (ins_cell costs b) (opt (a :: s) t) tail_ins p3)
      as H3.
    rewrite Hb1 in H1. rewrite Hb2 in H2. rewrite Hb3 in H3.
    specialize (H1 (list_elem_of_here _ _)).
    specialize (H2 (list_elem_of_here _ _)).
    specialize (H3 (list_elem_of_here _ _)).
    simpl in H1, H2, H3.
    assert (opt (a :: s) (b :: t) = xducer.substitute costs a b + opt s t ∨
            opt (a :: s) (b :: t) = xducer.delete costs a + opt s (b :: t) ∨
            opt (a :: s) (b :: t) = xducer.insert costs b + opt (a :: s) t)
      as [Hm|[Hm|Hm]] by (rewrite opt_cost_cons_cons; lia); rewrite Hm.
    + exists p1. split; [|done]. rewrite !elem_of_app. left. left. by left.
    + exists p2. split; [|done]. rewrite !elem_of_app. left. right. by left.
    + exists p3. split; [|done]. rewrite !elem_of_app. right. by left.
Qed.

End result_shape.

(** ** xducer.py: every path of least cost is returned *)
Section complete_result.
Context {E : Type}.
Variable costs : @xducer.CostFunctions E.

Abbreviation ins := (xducer.insert costs).
Abbreviation del := (xducer.delete costs).
Abbreviation sub := (xducer.substitute costs).
Abbreviation opt := (opt_cost ins del sub).

Lemma filter_all {A : Type} (P : A → Prop) `{∀ x, Decision (P x)}
    (l : list A) :
  (∀ x, x ∈ l → P x) → filter P l = l.
Proof.
  induction l as [|x l IH]; intros Hall; [done|].
  rewrite filter_cons_True by (apply Hall; by left).
  f_equal. apply IH. intros y Hy. apply Hall. by right.
Qed.

Lemma filter_none {A : Type} (P : A → Prop) `{∀ x, Decision (P x)}
    (l : list A) :
  (∀ x, x ∈ l → ¬ P x) → filter P l = [].
Proof.
  induction l as [|x l IH]; intros Hall; [done|].
  rewrite filter_cons_False by (apply Hall; by left).
  apply IH. intros y Hy. apply Hall. by right.
Qed.

Lemma elem_of_suffixes (ps : list (list (@xducer.Cell E))) p :
  p ∈ ps → p ∈ suffixes ps.
Proof. destruct ps; [by intros ?%not_elem_of_nil|done]. Qed.

Lemma path_of_nil_inv c (p : list (@xducer.Cell E)) :
  path_of costs c [] [] p → p = [].
Proof.
  destruct p as [|cell p]; [done|]. intros [Hs Ht _ _ Hsteps].
  apply Forall_cons in Hsteps as [Hcell _]. unfold step_ok in Hcell.
  cbn [omap list_omap] in Hs, Ht.
  destruct (xducer.cell_source cell), (xducer.cell_target cell); done.
Qed.

(** The first step of a path, and the path that follows it. *)
Lemma path_of_cons_inv c s t cell (p : list (@xducer.Cell E)) :
  path_of costs c s t (cell :: p) →
  (∃ a b s' t', s = a :: s' ∧ t = b :: t' ∧
     cell = with_suffix (sub_cell costs a b) (path_cost p) ∧
     path_of costs (path_cost p) s' t' p ∧ c = sub a b + path_cost p) ∨
  (∃ a s', s = a :: s' ∧
     cell = with_suffix (del_cell costs a) (path_cost p) ∧
     path_of costs (path_cost p) s' t p ∧ c = del a + path_cost p) ∨
  (∃ b t', t = b :: t' ∧
     cell = with_suffix (ins_cell costs b) (path_cost p) ∧
     path_of costs (path_cost p) s t' p ∧ c = ins b + path_cost p).
Proof.
  intros [Hs Ht Htot [Hcum Hsuf] Hsteps].
  apply Forall_cons in Hsteps as [Hcell Hsteps].
  rewrite path_cost_cons in Htot, Hcum.
  unfold step_ok in Hcell. cbn [omap list_omap] in Hs, Ht.
  destruct cell as [src tgt this cumul]. simpl in *.
  destruct src as [a|], tgt as [b|]; simpl in *; [| | |done].
  - left. exists a, b, (omap xducer.cell_source p),
      (omap xducer.cell_target p).
    split_and!; [done|done| |by split|lia].
    unfold with_suffix, sub_cell. simpl. f_equal; lia.
  - right; left. exists a, (omap xducer.cell_source p).
    split_and!; [done| |by split|lia].
    unfold with_suffix, del_cell. simpl. f_equal; lia.
  - right; right. exists b, (omap xducer.cell_target p).
    split_and!; [done| |by split|lia].
    unfold with_suffix, ins_cell. simpl. f_equal; lia.
Qed.

Lemma opt_cost_by_del a s t :
  opt (a :: s) t ≤ opt s t + del a.
Proof.
  destruct t as [|b t]; [by rewrite opt_cost_cons_nil|].
  rewrite opt_cost_cons_cons. lia.
Qed.

Lemma opt_cost_by_ins b s t :
  opt s (b :: t) ≤ opt s t + ins b.
Proof.
  destruct s as [|a s]; [by rewrite opt_cost_nil_cons|].
  rewrite opt_cost_cons_cons. lia.
Qed.

Lemma opt_cost_by_sub a b s t :
  opt (a :: s) (b :: t) ≤ opt s t + sub a b.
Proof. rewrite opt_cost_cons_cons. lia. Qed.

(** No path costs less than the optimum. *)
Lemma path_of_lower_bound (p : list (@xducer.Cell E)) : ∀ c s t,
  path_of costs c s t p → opt s t ≤ c.
Proof.
  induction p as [|cell p IH]; intros c s t Hp.
  - destruct Hp as [<- <- <- _ _]. done.
  - apply path_of_cons_inv in Hp
      as [(a & b & s' & t' & -> & -> & _ & Hp & ->)|
          [(a & s' & -> & _ & Hp & ->)|(b & t' & -> & _ & Hp & ->)]];
      apply IH in Hp.
    + pose proof (opt_cost_by_sub a b s' t'). lia.
    + pose proof (opt_cost_by_del a s' t). lia.
    + pose proof (opt_cost_by_ins b s t'). lia.
Qed.

Lemma elem_of_branch cell d (tail : list (list (@xducer.Cell E))) p :
  p ∈ suffixes tail → with_suffix cell d :: p ∈ branch cell d tail.
Proof. intros Hp. apply list_elem_of_fmap. by exists p. Qed.

Lemma elem_of_kept m (cands : list (list (@xducer.Cell E))) p :
  p ∈ cands → xducer.parse_cost p = Some m →
  p ∈ suffixes (kept false m cands).
Proof.
  intros Hp Hc. apply elem_of_suffixes. cbv zeta.
  by apply list_elem_of_filter.
Qed.

Lemma paths_complete s : ∀ t ps,
  paths costs false s t = Some ps →
  ∀ p, path_of costs (opt s t) s t p → p ∈ suffixes ps.
Proof.
  induction s as [|a s IHs]; intros t.
  - induction t as [|b t IHt]; intros ps Hps p Hp.
    + rewrite paths_nil_nil in Hps. injection Hps as <-.
      apply path_of_nil_inv in Hp as ->. by left.
    + destruct (paths_shape_nil_cons costs false b t) as (tail & Htail & Heq).
      rewrite Heq in Hps. injection Hps as <-.
      destruct p as [|cell p]; [by destruct Hp|].
      apply path_of_cons_inv in Hp
        as [(? & ? & ? & ? & [=] & _)|
            [(? & ? & [=] & _)|(b' & t' & [= <- <-] & -> & Hp & Hc)]].
      pose proof (opt_cost_nil_cons ins del sub b t).
      assert (path_cost p = opt [] t) as Hd by lia. rewrite Hd in *.
      apply (elem_of_kept (opt [] (b :: t))).
      * apply elem_of_branch. by apply IHt.
      * rewrite parse_cost_cons.
           unfold with_suffix, sub_cell, del_cell, ins_cell.
           cbn [xducer.cumul_cost xducer.this_cost]. f_equal. lia.
  - induction t as [|b t IHt]; intros ps Hps p Hp.
    + destruct (paths_shape_cons_nil costs false a s) as (tail & Htail & Heq).
      rewrite Heq in Hps. injection Hps as <-.
      destruct p as [|cell p]; [by destruct Hp|].
      apply path_of_cons_inv in Hp
        as [(? & ? & ? & ? & _ & [=] & _)|
            [(a' & s' & [= <- <-] & -> & Hp & Hc)|(? & ? & [=] & _)]].
      pose proof (opt_cost_cons_nil ins del sub a s).
      assert (path_cost p = opt s []) as Hd by lia. rewrite Hd in *.
      apply (elem_of_kept (opt (a :: s) [])).
      * apply elem_of_branch. by apply (IHs []).
      * rewrite parse_cost_cons.
           unfold with_suffix, sub_cell, del_cell, ins_cell.
           cbn [xducer.cumul_cost xducer.this_cost]. f_equal. lia.
    + destruct (paths_shape_cons_cons costs false a s b t)
        as (tail_sub & tail_del & tail_ins & Hsub & Hdel & Hins & Heq).
      rewrite Heq in Hps. injection Hps as <-.
      destruct p as [|cell p]; [by destruct Hp|].
      apply path_of_cons_inv in Hp
        as [(a' & b' & s' & t' & [= <- <-] & [= <- <-] & -> & Hp & Hc)|
            [(a' & s' & [= <- <-] & -> & Hp & Hc)|
             (b' & t' & [= <- <-] & -> & Hp & Hc)]].
      * pose proof (path_of_lower_bound _ _ _ _ Hp).
        pose proof (opt_cost_by_sub a b s t).
        assert (path_cost p = opt s t) as Hd by lia. rewrite Hd in *.
        apply (elem_of_kept (opt (a :: s) (b :: t))).
        -- rewrite !elem_of_app. left. left. apply elem_of_branch.
           by apply (IHs t).
        -- rewrite parse_cost_cons.
           unfold with_suffix, sub_cell, del_cell, ins_cell.
           cbn [xducer.cumul_cost xducer.this_cost]. f_equal. lia.
      * pose proof (path_of_lower_bound _ _ _ _ Hp).
        pose proof (opt_cost_by_del a s (b :: t)).
        assert (path_cost p = opt s (b :: t)) as Hd by lia.
        rewrite Hd in *.
        apply (elem_of_kept (opt (a :: s) (b :: t))).
        -- rewrite !elem_of_app. left. right. apply elem_of_branch.
           by apply (IHs (b :: t)).
        -- rewrite parse_cost_cons.
           unfold with_suffix, sub_cell, del_cell, ins_cell.
           cbn [xducer.cumul_cost xducer.this_cost]. f_equal. lia.
      * pose proof (path_of_lower_bound _ _ _ _ Hp).
        pose proof (opt_cost_by_ins b (a :: s) t).
        assert (path_cost p = opt (a :: s) t) as Hd by lia.
        rewrite Hd in *.
        apply (elem_of_kept (opt (a :: s) (b :: t))).
        -- rewrite !elem_of_app. right. apply elem_of_branch.
           by apply IHt.
        -- rewrite parse_cost_cons.
           unfold with_suffix, sub_cell, del_cell, ins_cell.
           cbn [xducer.cumul_cost xducer.this_cost]. f_equal. lia.
Qed.

End complete_result.

(** ** xducer.py: no path twice, and the first path *)
Section first_path.
Context {E : Type}.
Variable costs : @xducer.CostFunctions E.

Abbreviation ins := (xducer.insert costs).
Abbreviation del := (xducer.delete costs).
Abbreviation sub := (xducer.substitute costs).
Abbreviation opt := (opt_cost ins del sub).

Lemma NoDup_suffixes (ps : list (list (@xducer.Cell E))) :
  NoDup ps → NoDup (suffixes ps).
Proof. destruct ps; [|done]. intros _. apply NoDup_singleton. Qed.

Lemma NoDup_branch cell d (tail : list (list (@xducer.Cell E))) :
  NoDup (suffixes tail) → NoDup (branch cell d tail).
Proof.
  intros Hnd. apply NoDup_fmap_2_strong; [|done].
  by intros p1 p2 _ _ [= ->].
Qed.

Lemma paths_NoDup s : ∀ t ps,
  paths costs false s t = Some ps → NoDup ps.
Proof.
  induction s as [|a s IHs]; intros t.
  - induction t as [|b t IHt]; intros ps Hps.
    + rewrite paths_nil_nil in Hps. injection Hps as <-. constructor.
    + destruct (paths_shape_nil_cons costs false b t) as (tail & Htail & Heq).
      rewrite Heq in Hps. injection Hps as <-. cbv zeta.
      apply NoDup_filter, NoDup_branch, NoDup_suffixes. by apply IHt.
  - induction t as [|b t IHt]; intros ps Hps.
    + destruct (paths_shape_cons_nil costs false a s) as (tail & Htail & Heq).
      rewrite Heq in Hps. injection Hps as <-. cbv zeta.
      apply NoDup_filter, NoDup_branch, NoDup_suffixes. by apply (IHs []).
    + destruct (paths_shape_cons_cons costs false a s b t)
        as (tail_sub & tail_del & tail_ins & Hsub & Hdel & Hins & Heq).
      rewrite Heq in Hps. injection Hps as <-. cbv zeta.
      apply NoDup_filter. apply NoDup_app. split_and!.
      * apply NoDup_app. split_and!.
        -- apply NoDup_branch, NoDup_suffixes. by apply (IHs t).
        -- intros p (p1 & -> & _)%list_elem_of_fmap
             (p2 & [=] & _)%list_elem_of_fmap.
        -- apply NoDup_branch, NoDup_suffixes. by apply (IHs (b :: t)).
      * intros p [(p1 & -> & _)%list_elem_of_fmap|
                  (p1 & -> & _)%list_elem_of_fmap]%elem_of_app
          (p2 & [=] & _)%list_elem_of_fmap.
      * apply NoDup_branch, NoDup_suffixes. by apply IHt.
Qed.

Lemma canonical_cost s t : path_cost (canonical costs s t) = opt s t.
Proof.
  destruct (paths_just_one costs s t) as (ps & Hps & Hcanon).
  destruct (paths_result costs true s t) as (ps' & Hps' & [_ _ Hpaths]).
  rewrite Hps in Hps'. injection Hps' as <-.
  destruct (Hpaths (canonical costs s t)) as [_ _ Htot _ _]; [|done].
  rewrite Hcanon. by left.
Qed.

Lemma head_branch cell d (tail : list (list (@xducer.Cell E))) p :
  head (suffixes tail) = Some p →
  head (branch cell d tail) = Some (with_suffix cell d :: p).
Proof. intros Hp. destruct (suffixes tail); [done|]. by injection Hp as ->. Qed.

Lemma head_app_nonempty {A : Type} (l1 l2 : list A) :
  l1 ≠ [] → head (l1 ++ l2) = head l1.
Proof. by destruct l1. Qed.

(** The parses of a branch cost the same, so that the filter keeps the
    whole branch or nothing of it. *)
Lemma filter_branch m cell d (tail : list (list (@xducer.Cell E))) :
  filter (λ p, xducer.parse_cost p = Some m) (branch cell d tail) =
  if decide (xducer.this_cost cell + d = m) then branch cell d tail else [].
Proof.
  case_decide as Hm.
  - apply filter_all. intros p Hp. rewrite (branch_cost _ _ _ _ Hp).
    by rewrite Hm.
  - apply filter_none. intros p Hp. rewrite (branch_cost _ _ _ _ Hp).
    by intros [= ?].
Qed.

Lemma head_kept_three m (c1 c2 c3 : @xducer.Cell E) d1 d2 d3
    (tail1 tail2 tail3 : list (list (@xducer.Cell E))) p1 p2 p3 :
  head (suffixes tail1) = Some p1 →
  head (suffixes tail2) = Some p2 →
  head (suffixes tail3) = Some p3 →
  head (suffixes
          (filter (λ p, xducer.parse_cost p = Some m)
             ((branch c1 d1 tail1 ++ branch c2 d2 tail2)
              ++ branch c3 d3 tail3))) =
  Some (if decide (xducer.this_cost c1 + d1 = m)
        then with_suffix c1 d1 :: p1
        else if decide (xducer.this_cost c2 + d2 = m)
        then with_suffix c2 d2 :: p2
        else if decide (xducer.this_cost c3 + d3 = m)
        then with_suffix c3 d3 :: p3
        else []).
Proof.
  intros H1 H2 H3. rewrite !filter_app, !filter_branch.
  apply (head_branch c1 d1) in H1. apply (head_branch c2 d2) in H2.
  apply (head_branch c3 d3) in H3.
  destruct (branch c1 d1 tail1) as [|q1 l1]; [done|].
  destruct (branch c2 d2 tail2) as [|q2 l2]; [done|].
  destruct (branch c3 d3 tail3) as [|q3 l3]; [done|].
  simpl in H1, H2, H3. injection H1 as ->. injection H2 as ->.
  injection H3 as ->.
  repeat case_decide; done.
Qed.

Lemma paths_head s : ∀ t ps,
  paths costs false s t = Some ps →
  head (suffixes ps) = Some (canonical costs s t).
Proof.
  induction s as [|a s IHs]; intros t.
  - induction t as [|b t IHt]; intros ps Hps.
    + rewrite paths_nil_nil in Hps. by injection Hps as <-.
    + destruct (paths_shape_nil_cons costs false b t) as (tail & Htail & Heq).
      rewrite Heq in Hps. injection Hps as <-. cbv zeta.
      rewrite filter_branch, decide_True by (simpl; lia).
      pose proof (head_branch (ins_cell costs b) (opt [] t) tail _
                    (IHt tail Htail)) as Hhead.
      destruct (branch _ _ tail) as [|p l]; [done|].
      cbn [suffixes]. rewrite Hhead, canonical_nil_cons, canonical_cost.
      done.
  - induction t as [|b t IHt]; intros ps Hps.
    + destruct (paths_shape_cons_nil costs false a s) as (tail & Htail & Heq).
      rewrite Heq in Hps. injection Hps as <-. cbv zeta.
      rewrite filter_branch, decide_True by (simpl; lia).
      pose proof (head_branch (del_cell costs a) (opt s []) tail _
                    (IHs [] tail Htail)) as Hhead.
      destruct (branch _ _ tail) as [|p l]; [done|].
      cbn [suffixes]. rewrite Hhead, canonical_cons_nil, canonical_cost.
      done.
    + destruct (paths_shape_cons_cons costs false a s b t)
        as (tail_sub & tail_del & tail_ins & Hsub & Hdel & Hins & Heq).
      rewrite Hps in Heq. injection Heq as ->.
      etrans.
      { apply (head_kept_three (opt (a :: s) (b :: t))
                 (sub_cell costs a b) (del_cell costs a) (ins_cell costs b)
                 (opt s t) (opt s (b :: t)) (opt (a :: s) t)
                 tail_sub tail_del tail_ins).
        - by apply IHs.
        - by apply IHs.
        - by apply IHt. }
      rewrite canonical_cons_cons, !canonical_cost. cbv zeta.
      pose proof (opt_cost_cons_cons ins del sub a s b t) as Hopt.
      unfold with_suffix, sub_cell, del_cell, ins_cell.
      cbn [xducer.this_cost xducer.cell_source xducer.cell_target].
      repeat case_decide; try lia; done.
Qed.

End first_path.

(** X9.  Without [just_one] the enumerator returns the paths of least cost,
    all of them and each once: a non-empty list of cells is in the result
    exactly when its steps spell the source and the target, each step has
    the cost of its operation, the cumulative costs run from each step to
    the end, and the total is the least cost of an alignment. *)
Theorem enumerator_returns_every_least_cost_path {E : Type} `{EqDecision E}
    (s t : list E) (costs : @xducer.CostFunctions E) (fuel : nat) :
  (length s + length t < fuel)%nat →
  ∃ ps,
    relate_arguments fuel s t costs false = Some ps ∧
    NoDup ps ∧
    ∀ p, p ∈ ps ↔
         p ≠ [] ∧
         path_of costs
           (opt_cost (xducer.insert costs) (xducer.delete costs)
              (xducer.substitute costs) s t) s t p.
Proof.
  intros Hfuel.
  destruct (relate_arguments_paths s t costs false fuel Hfuel)
    as (ps & Hrel & Hpaths & [_ Hne Hp]).
  exists ps. split; [done|]. split; [by eapply paths_NoDup|].
  intros p. split.
  - intros Hin. split; [by apply Hne|]. by apply Hp, elem_of_suffixes.
  - intros [Hpne Hpath].
    pose proof (paths_complete costs s t ps Hpaths p Hpath) as Hin.
    destruct ps; [|done]. by apply list_elem_of_singleton in Hin.
Qed.

Lemma enumerator_returns_every_least_cost_path_witness :
  ∃ ps,
    relate_arguments 8 ["d"; "a"; "g"]%char ["d"; "o"; "g"; "e"]%char
      xducer.default_costs false = Some ps ∧
    NoDup ps ∧
    ∀ p, p ∈ ps ↔
         p ≠ [] ∧
         path_of xducer.default_costs
           (opt_cost (xducer.insert xducer.default_costs)
              (xducer.delete xducer.default_costs)
              (xducer.substitute xducer.default_costs)
              ["d"; "a"; "g"]%char ["d"; "o"; "g"; "e"]%char)
           ["d"; "a"; "g"]%char ["d"; "o"; "g"; "e"]%char p.
Proof.
  apply (enumerator_returns_every_least_cost_path
           ["d"; "a"; "g"]%char ["d"; "o"; "g"; "e"]%char).
  simpl. lia.
Defined.

(** X10.  The one path the enumerator returns with [just_one] is the first
    of the paths it returns without, when the sequences are not both
    empty. *)
Theorem just_one_returns_the_first_path {E : Type} `{EqDecision E}
    (s t : list E) (costs : @xducer.CostFunctions E) (fuel : nat) :
  s ≠ [] ∨ t ≠ [] → (length s + length t < fuel)%nat →
  ∃ ps p,
    relate_arguments fuel s t costs false = Some ps ∧
    head ps = Some p ∧
    relate_arguments fuel s t costs true = Some [p].
Proof.
  intros Hst Hfuel.
  destruct (relate_arguments_paths s t costs false fuel Hfuel)
    as (ps & Hrel & Hpaths & [Hempty _ _]).
  destruct (relate_arguments_paths s t costs true fuel Hfuel)
    as (ps1 & Hrel1 & Hpaths1 & [Hempty1 _ _]).
  destruct (paths_just_one costs s t) as (ps1' & Hps1' & Hcanon).
  rewrite Hpaths1 in Hps1'. injection Hps1' as <-.
  pose proof (paths_head costs s t ps Hpaths) as Hhead.
  exists ps, (canonical costs s t). split; [done|]. split.
  - destruct ps; [|done]. destruct Hempty as [Hnil _].
    destruct (Hnil eq_refl) as [-> ->]. by destruct Hst.
  - rewrite Hrel1. f_equal. destruct ps1; [|done].
    destruct Hempty1 as [Hnil _].
    destruct (Hnil eq_refl) as [-> ->]. by destruct Hst.
Qed.

Lemma just_one_returns_the_first_path_witness :
  ∃ ps p,
    relate_arguments 8 ["d"; "a"; "g"]%char ["d"; "o"; "g"; "e"]%char
      xducer.default_costs false = Some ps ∧
    head ps = Some p ∧
    relate_arguments 8 ["d"; "a"; "g"]%char ["d"; "o"; "g"; "e"]%char
      xducer.default_costs true = Some [p].
Proof.
  apply (just_one_returns_the_first_path
           ["d"; "a"; "g"]%char ["d"; "o"; "g"; "e"]%char);
    [by left|simpl; lia].
Defined.

(** ** xducer.py: the memo, and other starts than the origin *)
Section relate_starts.
Context {E : Type} `{EqDecision E}.
Variable args : @xducer.Arguments E.

Lemma memo_ok_result_for memory i j ps :
  memo_ok args memory → memory !! (i, j) = Some ps →
  result_for (xducer.cost_functions args)
    (drop i (xducer.source args)) (drop j (xducer.target args)) ps.
Proof.
  intros Hok Hps%Hok.
  destruct (paths_result (xducer.cost_functions args) (xducer.just_one args)
              (drop i (xducer.source args)) (drop j (xducer.target args)))
    as (ps' & Hps' & Hres).
  rewrite Hps in Hps'. by injection Hps' as <-.
Qed.

(** A call that returns has its result in the memo. *)
Lemma relate_stores fuel memory i j ps memory' :
  xducer.relate fuel args memory (Some (i, j)) = Some (ps, memory') →
  memory' !! (i, j) = Some ps.
Proof.
  destruct fuel as [|fuel]; [done|].
  cbn [xducer.relate default from_option id].
  destruct (memory !! (i, j)) as [hit|] eqn:Hmem.
  - by intros [= <- <-].
  - destruct (xducer.parse _ args memory (i, j)) as [[parses m]|]; [|done].
    simpl. intros [= <- <-]. apply lookup_insert_eq.
Qed.

(** A start that the memo knows is answered from the memo. *)
Lemma relate_hit fuel memory i j ps :
  memory !! (i, j) = Some ps →
  xducer.relate (S fuel) args memory (Some (i, j)) = Some (ps, memory).
Proof.
  intros Hmem. cbn [xducer.relate default from_option id]. by rewrite Hmem.
Qed.

Lemma try_op_fails relate memory start opus :
  relate memory
    (Some ((xducer.coord_source start
            + match opus with
              | xducer.DEL | xducer.SUB => 1
              | xducer.INS => 0
              end)%nat,
           (xducer.coord_target start
            + match opus with
              | xducer.INS | xducer.SUB => 1
              | xducer.DEL => 0
              end)%nat)) = None →
  xducer.try_op relate args memory start opus = None.
Proof. intros Hrel. unfold xducer.try_op. cbv zeta. by rewrite Hrel. Qed.

(** From a start beyond the end of a sequence every call descends to a
    start that is beyond the end as well. *)
Lemma relate_beyond fuel : ∀ i j,
  (length (xducer.source args) < i)%nat ∨
  (length (xducer.target args) < j)%nat →
  xducer.relate fuel args ∅ (Some (i, j)) = None.
Proof.
  induction fuel as [|fuel IH]; intros i j Hout; [done|].
  cbn [xducer.relate default from_option id]. rewrite lookup_empty.
  assert (xducer.parse (xducer.relate fuel args) args ∅ (i, j) = None)
    as ->; [|done].
  unfold xducer.parse. cbn [xducer.coord_source xducer.coord_target fst snd].
  destruct (decide (Z.of_nat (length (xducer.source args)) - Z.of_nat i = 0))
    as [Hrs|Hrs];
    destruct (decide (Z.of_nat (length (xducer.target args)) - Z.of_nat j = 0))
    as [Hrt|Hrt].
  - lia.
  - rewrite (bool_decide_eq_true_2 _ Hrs), (bool_decide_eq_false_2 _ Hrt),
      (bool_decide_eq_false_2 (_ - Z.of_nat i ≠ 0)) by lia.
    rewrite (bool_decide_eq_true_2 (_ - Z.of_nat j ≠ 0)) by done.
    cbn [andb mbind option_bind].
    rewrite try_op_fails; [done|]. simpl. apply IH. lia.
  - rewrite (bool_decide_eq_false_2 _ Hrs), (bool_decide_eq_true_2 _ Hrt),
      (bool_decide_eq_true_2 (_ - Z.of_nat i ≠ 0)) by done.
    rewrite (bool_decide_eq_false_2 (_ - Z.of_nat j ≠ 0)) by lia.
    cbn [andb mbind option_bind].
    rewrite try_op_fails; [done|]. simpl. apply IH. lia.
  - rewrite (bool_decide_eq_false_2 _ Hrs).
    rewrite (bool_decide_eq_true_2 (_ - Z.of_nat i ≠ 0)) by done.
    rewrite (bool_decide_eq_true_2 (_ - Z.of_nat j ≠ 0)) by done.
    cbn [andb mbind option_bind].
    rewrite try_op_fails; [done|]. simpl. apply IH. lia.
Qed.

End relate_starts.

(** X11.  A call of [relate] from the origin leaves its result in the memo
    under the origin; every entry of the memo holds the paths of least cost
    for what is left of the two sequences from the coordinates of the
    entry; and a second call on the same arguments returns the same result
    from the memo, with no further recursion and no change to the memo. *)
Theorem relate_fills_and_reuses_the_memo {E : Type} `{EqDecision E}
    (s t : list E) (costs : @xducer.CostFunctions E) (just_one : bool)
    (fuel : nat) :
  (length s + length t < fuel)%nat →
  ∃ ps memory,
    xducer.relate fuel (xducer.arguments s t costs just_one).1
      (xducer.arguments s t costs just_one).2 None = Some (ps, memory) ∧
    memory !! (0%nat, 0%nat) = Some ps ∧
    (∀ i j ps', memory !! (i, j) = Some ps' →
                result_for costs (drop i s) (drop j t) ps') ∧
    xducer.relate 1 (xducer.arguments s t costs just_one).1 memory None
      = Some (ps, memory).
Proof.
  intros Hfuel.
  destruct (paths_result costs just_one s t) as (ps & Hps & Hres).
  destruct (relate_expected (xducer.mkArguments s t costs just_one) fuel
              ∅ 0%nat 0%nat ps) as (memory & Hrel & Hok);
    [apply memo_ok_empty|simpl; lia..|done|].
  pose proof (relate_stores _ _ _ _ _ _ _ Hrel) as Hmem.
  exists ps, memory. split_and!.
  - destruct fuel; [lia|]. exact Hrel.
  - done.
  - intros i j ps' Hps'.
    apply (memo_ok_result_for (xducer.mkArguments s t costs just_one)
             memory i j ps' Hok Hps').
  - by apply (relate_hit (xducer.mkArguments s t costs just_one) 0).
Qed.

Lemma relate_fills_and_reuses_the_memo_witness :
  ∃ ps memory,
    xducer.relate 8
      (xducer.arguments ["d"; "a"; "g"]%char ["d"; "o"; "g"; "e"]%char
         xducer.default_costs false).1
      (xducer.arguments ["d"; "a"; "g"]%char ["d"; "o"; "g"; "e"]%char
         xducer.default_costs false).2 None = Some (ps, memory) ∧
    memory !! (0%nat, 0%nat) = Some ps ∧
    (∀ i j ps', memory !! (i, j) = Some ps' →
                result_for xducer.default_costs
                  (drop i ["d"; "a"; "g"]%char)
                  (drop j ["d"; "o"; "g"; "e"]%char) ps') ∧
    xducer.relate 1
      (xducer.arguments ["d"; "a"; "g"]%char ["d"; "o"; "g"; "e"]%char
         xducer.default_costs false).1 memory None
      = Some (ps, memory).
Proof.
  apply (relate_fills_and_reuses_the_memo
           ["d"; "a"; "g"]%char ["d"; "o"; "g"; "e"]%char).
  simpl. lia.
Defined.

(** X12.  Called on a new memo with start coordinates inside the two
    sequences, [relate] returns the paths of least cost for what is left of
    the source and of the target from those coordinates: no path when
    nothing is left of either, and else paths that are not empty, spell
    the two remainders and cost the least an alignment of them can. *)
Theorem relate_from_a_later_start {E : Type} `{EqDecision E}
    (s t : list E) (costs : @xducer.CostFunctions E) (just_one : bool)
    (fuel i j : nat) :
  (i ≤ length s)%nat → (j ≤ length t)%nat →
  (length s - i + (length t - j) < fuel)%nat →
  ∃ ps memory,
    xducer.relate fuel (xducer.arguments s t costs just_one).1
      (xducer.arguments s t costs just_one).2 (Some (i, j))
      = Some (ps, memory) ∧
    (ps = [] ↔ i = length s ∧ j = length t) ∧
    ∀ p, p ∈ ps →
      p ≠ [] ∧
      path_of costs
        (opt_cost (xducer.insert costs) (xducer.delete costs)
           (xducer.substitute costs) (drop i s) (drop j t))
        (drop i s) (drop j t) p.
Proof.
  intros Hi Hj Hfuel.
  destruct (paths_result costs just_one (drop i s) (drop j t))
    as (ps & Hps & [Hempty Hne Hpaths]).
  destruct (relate_expected (xducer.mkArguments s t costs just_one) fuel
              ∅ i j ps) as (memory & Hrel & _);
    [apply memo_ok_empty|done..|].
  exists ps, memory. split; [done|]. split.
  - rewrite Hempty. split.
    + intros [Hs Ht]. apply (f_equal length) in Hs, Ht.
      rewrite length_drop in Hs, Ht. simpl in *. lia.
    + intros [-> ->]. by rewrite !drop_all.
  - intros p Hp. split; [by apply Hne|]. by apply Hpaths, elem_of_suffixes.
Qed.

Lemma relate_from_a_later_start_witness :
  ∃ ps memory,
    xducer.relate 6
      (xducer.arguments ["d"; "a"; "g"]%char ["d"; "o"; "g"; "e"]%char
         xducer.default_costs false).1
      (xducer.arguments ["d"; "a"; "g"]%char ["d"; "o"; "g"; "e"]%char
         xducer.default_costs false).2 (Some (1%nat, 1%nat))
      = Some (ps, memory) ∧
    (ps = [] ↔ 1%nat = length ["d"; "a"; "g"]%char ∧
               1%nat = length ["d"; "o"; "g"; "e"]%char) ∧
    ∀ p, p ∈ ps →
      p ≠ [] ∧
      path_of xducer.default_costs
        (opt_cost (xducer.insert xducer.default_costs)
           (xducer.delete xducer.default_costs)
           (xducer.substitute xducer.default_costs)
           (drop 1 ["d"; "a"; "g"]%char) (drop 1 ["d"; "o"; "g"; "e"]%char))
        (drop 1 ["d"; "a"; "g"]%char) (drop 1 ["d"; "o"; "g"; "e"]%char) p.
Proof.
  apply (relate_from_a_later_start
           ["d"; "a"; "g"]%char ["d"; "o"; "g"; "e"]%char);
    simpl; lia.
Defined.

Section relate_outcomes.
Context {E : Type} `{EqDecision E}.
Variable args : @xducer.Arguments E.

Lemma returned_of_option {A : Type} (o : option A) :
  xducer_calls.returned (xducer_calls.of_option o) = o.
Proof. by destruct o. Qed.

Abbreviation result :=
  (list (list (@xducer.Cell E))
   * gmap (nat * nat) (list (list (@xducer.Cell E))))%type.

Section callee.
Variable relate : gmap (nat * nat) (list (list (@xducer.Cell E))) →
  option (nat * nat) → option result.
Variable relate' : gmap (nat * nat) (list (list (@xducer.Cell E))) →
  option (nat * nat) → xducer_calls.outcome result.
Hypothesis callee_returned : ∀ memory start,
  xducer_calls.returned (relate' memory start) = relate memory start.

Lemma try_op_returned memory start opus :
  xducer_calls.returned (xducer_calls.try_op relate' args memory start opus)
  = xducer.try_op relate args memory start opus.
Proof.
  unfold xducer_calls.try_op, xducer.try_op. cbv zeta.
  rewrite <-callee_returned.
  destruct (relate' memory _) as [[tail memory']| |]; [|done..].
  cbn [xducer_calls.returned mbind xducer_calls.outcome_bind option_bind].
  apply returned_of_option.
Qed.

Lemma parse_returned memory start :
  xducer_calls.returned (xducer_calls.parse relate' args memory start)
  = xducer.parse relate args memory start.
Proof.
  unfold xducer_calls.parse, xducer.parse. cbv zeta.
  destruct (bool_decide _ && bool_decide _); [done|].
  assert (∀ (guard : bool) parses memory opus
            (rest' : result → xducer_calls.outcome result)
            (rest : result → option result),
            (∀ r, xducer_calls.returned (rest' r) = rest r) →
            xducer_calls.returned
              ((if guard
                then '(new, memory) ←
                       xducer_calls.try_op relate' args memory start opus;
                     xducer_calls.Returns
                       ((parses : list (list (@xducer.Cell E))) ++ new, memory)
                else xducer_calls.Returns (parses, memory)) ≫= rest')
            = (if guard
               then '(new, memory) ←
                      xducer.try_op relate args memory start opus;
                    Some (parses ++ new, memory)
               else Some (parses, memory)) ≫= rest) as Hbranch.
  { intros guard parses memory0 opus rest' rest Hrest.
    destruct guard; [|apply Hrest].
    rewrite <-try_op_returned.
    destruct (xducer_calls.try_op relate' args memory0 start opus)
      as [[new memory']| |]; [|done..].
    apply Hrest. }
  apply Hbranch. intros [parses1 memory1].
  apply Hbranch. intros [parses2 memory2].
  apply Hbranch. intros [parses3 memory3].
  by destruct parses3 as [|p parses3];
    [|destruct (xducer.remove_suboptimal_parses _ _)].
Qed.

End callee.

(** The two embeddings of [relate] return the same. *)
Lemma relate_returned fuel : ∀ memory start,
  xducer_calls.returned (xducer_calls.relate fuel args memory start)
  = xducer.relate fuel args memory start.
Proof.
  induction fuel as [|fuel IH]; intros memory start; [done|].
  cbn [xducer_calls.relate xducer.relate].
  destruct (memory !! default (0%nat, 0%nat) start); [done|].
  rewrite <-(parse_returned _ _ IH).
  by destruct (xducer_calls.parse _ args memory _) as [[parses memory']| |].
Qed.

Lemma try_op_recurses relate' memory start opus :
  relate' memory
    (Some ((xducer.coord_source start
            + match opus with
              | xducer.DEL | xducer.SUB => 1
              | xducer.INS => 0
              end)%nat,
           (xducer.coord_target start
            + match opus with
              | xducer.INS | xducer.SUB => 1
              | xducer.DEL => 0
              end)%nat)) = xducer_calls.Recurses →
  xducer_calls.try_op relate' args memory start opus = xducer_calls.Recurses.
Proof.
  intros Hrel. unfold xducer_calls.try_op. cbv zeta. by rewrite Hrel.
Qed.

(** From a start beyond the end of a sequence, what is left of that
    sequence is negative, which counts as true: [parse] tries an operation,
    and [try_op] calls [relate], on a start beyond the end as well, before
    it reads an element. *)
Lemma relate_recurses fuel : ∀ i j,
  (length (xducer.source args) < i)%nat ∨
  (length (xducer.target args) < j)%nat →
  xducer_calls.relate fuel args ∅ (Some (i, j)) = xducer_calls.Recurses.
Proof.
  induction fuel as [|fuel IH]; intros i j Hout; [done|].
  cbn [xducer_calls.relate default from_option id]. rewrite lookup_empty.
  assert (xducer_calls.parse (xducer_calls.relate fuel args) args ∅ (i, j)
          = xducer_calls.Recurses) as ->; [|done].
  unfold xducer_calls.parse.
  cbn [xducer.coord_source xducer.coord_target fst snd].
  destruct (decide (Z.of_nat (length (xducer.source args)) - Z.of_nat i = 0))
    as [Hrs|Hrs];
    destruct (decide (Z.of_nat (length (xducer.target args)) - Z.of_nat j = 0))
    as [Hrt|Hrt].
  - lia.
  - rewrite (bool_decide_eq_true_2 _ Hrs), (bool_decide_eq_false_2 _ Hrt),
      (bool_decide_eq_false_2 (_ - Z.of_nat i ≠ 0)) by lia.
    rewrite (bool_decide_eq_true_2 (_ - Z.of_nat j ≠ 0)) by done.
    cbn [andb mbind xducer_calls.outcome_bind].
    rewrite try_op_recurses; [done|]. simpl. apply IH. lia.
  - rewrite (bool_decide_eq_false_2 _ Hrs), (bool_decide_eq_true_2 _ Hrt),
      (bool_decide_eq_true_2 (_ - Z.of_nat i ≠ 0)) by done.
    rewrite (bool_decide_eq_false_2 (_ - Z.of_nat j ≠ 0)) by lia.
    cbn [andb mbind xducer_calls.outcome_bind].
    rewrite try_op_recurses; [done|]. simpl. apply IH. lia.
  - rewrite (bool_decide_eq_false_2 _ Hrs).
    rewrite (bool_decide_eq_true_2 (_ - Z.of_nat i ≠ 0)) by done.
    rewrite (bool_decide_eq_true_2 (_ - Z.of_nat j ≠ 0)) by done.
    cbn [andb mbind xducer_calls.outcome_bind].
    rewrite try_op_recurses; [done|]. simpl. apply IH. lia.
Qed.

End relate_outcomes.

(** X13.  Called on a new memo with a start coordinate beyond the end of
    its sequence, [relate] neither returns nor raises an exception of its
    own: what is left of that sequence counts as negative, never reaches
    nought, and every call makes a further call before it reads an
    element, however deep the calls are nested.  From a start within the
    two sequences the call returns, once the fuel covers what is left of
    them. *)
Theorem relate_beyond_the_end_never_returns {E : Type} `{EqDecision E}
    (s t : list E) (costs : @xducer.CostFunctions E) (just_one : bool)
    (fuel i j : nat) :
  (length s < i)%nat ∨ (length t < j)%nat →
  xducer_calls.relate fuel (xducer.arguments s t costs just_one).1
    (xducer.arguments s t costs just_one).2 (Some (i, j))
  = xducer_calls.Recurses ∧
  xducer.relate fuel (xducer.arguments s t costs just_one).1
    (xducer.arguments s t costs just_one).2 (Some (i, j)) = None ∧
  ∀ i' j', (i' ≤ length s)%nat → (j' ≤ length t)%nat →
    (length s - i' + (length t - j') < fuel)%nat →
    ∃ ps memory,
      xducer_calls.relate fuel (xducer.arguments s t costs just_one).1
        (xducer.arguments s t costs just_one).2 (Some (i', j'))
      = xducer_calls.Returns (ps, memory).
Proof.
  intros Hout. split; [|split].
  - by apply (relate_recurses (xducer.mkArguments s t costs just_one)).
  - by apply (relate_beyond (xducer.mkArguments s t costs just_one)).
  - intros i' j' Hi Hj Hfuel.
    destruct (paths_result costs just_one (drop i' s) (drop j' t))
      as (ps & Hps & _).
    destruct (relate_expected (xducer.mkArguments s t costs just_one) fuel
                ∅ i' j' ps) as (memory & Hrel & _);
      [apply memo_ok_empty|done..|].
    exists ps, memory.
    pose proof (relate_returned (xducer.mkArguments s t costs just_one) fuel
                  ∅ (Some (i', j'))) as Hret.
    cbn [xducer.arguments fst snd].
    rewrite Hrel in Hret.
    by destruct (xducer_calls.relate fuel _ ∅ (Some (i', j')))
      as [[ps' memory']| |]; [injection Hret as -> ->|..].
Qed.

Lemma relate_beyond_the_end_never_returns_witness :
  xducer_calls.relate 100
    (xducer.arguments ["d"; "a"; "g"]%char ["d"; "o"; "g"; "e"]%char
       xducer.default_costs false).1
    (xducer.arguments ["d"; "a"; "g"]%char ["d"; "o"; "g"; "e"]%char
       xducer.default_costs false).2 (Some (4%nat, 0%nat))
  = xducer_calls.Recurses ∧
  xducer.relate 100
    (xducer.arguments ["d"; "a"; "g"]%char ["d"; "o"; "g"; "e"]%char
       xducer.default_costs false).1
    (xducer.arguments ["d"; "a"; "g"]%char ["d"; "o"; "g"; "e"]%char
       xducer.default_costs false).2 (Some (4%nat, 0%nat)) = None ∧
  ∃ ps memory,
    xducer_calls.relate 100
      (xducer.arguments ["d"; "a"; "g"]%char ["d"; "o"; "g"; "e"]%char
         xducer.default_costs false).1
      (xducer.arguments ["d"; "a"; "g"]%char ["d"; "o"; "g"; "e"]%char
         xducer.default_costs false).2 (Some (3%nat, 0%nat))
    = xducer_calls.Returns (ps, memory).
Proof.
  destruct (relate_beyond_the_end_never_returns
              ["d"; "a"; "g"]%char ["d"; "o"; "g"; "e"]%char
              xducer.default_costs false 100 4 0)
    as (Hrecurses & Hnone & Hwithin); [left; simpl; lia|].
  split; [exact Hrecurses|]. split; [exact Hnone|].
  apply Hwithin; simpl; lia.
Defined.

(** ** The distance as a metric *)
Section swapped_costs.
Context {E : Type}.
Variable ins del : E → Z.
Variable sub : E → E → Z.

Lemma align_swap s t c :
  align ins del sub s t c → align del ins (λ a b, sub b a) t s c.
Proof.
  induction 1 as [|a b s t c _ IH|a s t c _ IH|b s t c _ IH].
  - constructor.
  - by apply (align_sub del ins (λ a b, sub b a) b a).
  - by apply (align_ins del ins (λ a b, sub b a) a).
  - by apply (align_del del ins (λ a b, sub b a) b).
Qed.

Lemma align_ext (ins' del' : E → Z) (sub' : E → E → Z) s t c :
  (∀ a, ins a = ins' a) → (∀ a, del a = del' a) →
  (∀ a b, sub a b = sub' a b) →
  align ins del sub s t c → align ins' del' sub' s t c.
Proof.
  intros Hi Hd Hs.
  induction 1 as [|a b s t c _ IH|a s t c _ IH|b s t c _ IH].
  - constructor.
  - rewrite Hs. by constructor.
  - rewrite Hd. by constructor.
  - rewrite Hi. by constructor.
Qed.

End swapped_costs.

Lemma opt_cost_symmetric {E : Type} (ins del : E → Z) (sub : E → E → Z) s t :
  (∀ a, ins a = del a) → (∀ a b, sub a b = sub b a) →
  opt_cost ins del sub s t = opt_cost ins del sub t s.
Proof.
  intros Hid Hsub.
  assert (∀ s t, opt_cost ins del sub t s ≤ opt_cost ins del sub s t) as Hle.
  { intros s' t'. apply opt_cost_least.
    apply (align_ext del ins (λ a b, sub b a)); [done..|].
    apply align_swap, opt_cost_attained. }
  apply Z.le_antisymm; apply Hle.
Qed.

Section composed_alignments.
Context {E : Type}.
Variable ins del : E → Z.
Variable sub : E → E → Z.
Hypothesis sub_triangle : ∀ a b c, sub a c ≤ sub a b + sub b c.
Hypothesis del_after_sub : ∀ a b, del a ≤ sub a b + del b.
Hypothesis ins_after_sub : ∀ b c, ins c ≤ ins b + sub b c.
Hypothesis ins_then_del : ∀ b, 0 ≤ ins b + del b.

(** An alignment of [s] with [t] and one of [t] with [u] give one of [s]
    with [u] that costs no more than the two together. *)
Lemma align_compose t u c2 :
  align ins del sub t u c2 →
  ∀ s c1, align ins del sub s t c1 →
          ∃ c, align ins del sub s u c ∧ c ≤ c1 + c2.
Proof.
  induction 1 as [|b c t u c2 _ IH|b t u c2 _ IH|c t u c2 _ IH];
    intros s c1 H1.
  - exists c1. split; [done|lia].
  - remember (b :: t) as bt eqn:Hbt.
    induction H1 as [|a b' s' t' c1' H1' IH1|a s' t0 c1' H1' IH1
                     |b' s' t' c1' H1' IH1].
    + done.
    + injection Hbt as -> ->. destruct (IH s' c1' H1') as (c' & Hal & Hle).
      exists (c' + sub a c). split; [by constructor|].
      pose proof (sub_triangle a b c). lia.
    + destruct (IH1 Hbt) as (c' & Hal & Hle).
      exists (c' + del a). split; [by constructor|lia].
    + injection Hbt as -> ->. destruct (IH s' c1' H1') as (c' & Hal & Hle).
      exists (c' + ins c). split; [by constructor|].
      pose proof (ins_after_sub b c). lia.
  - remember (b :: t) as bt eqn:Hbt.
    induction H1 as [|a b' s' t' c1' H1' IH1|a s' t0 c1' H1' IH1
                     |b' s' t' c1' H1' IH1].
    + done.
    + injection Hbt as -> ->. destruct (IH s' c1' H1') as (c' & Hal & Hle).
      exists (c' + del a). split; [by constructor|].
      pose proof (del_after_sub a b). lia.
    + destruct (IH1 Hbt) as (c' & Hal & Hle).
      exists (c' + del a). split; [by constructor|lia].
    + injection Hbt as -> ->. destruct (IH s' c1' H1') as (c' & Hal & Hle).
      exists c'. split; [done|].
      pose proof (ins_then_del b). lia.
  - destruct (IH s c1 H1) as (c' & Hal & Hle).
    exists (c' + ins c). split; [by constructor|lia].
Qed.

Lemma opt_cost_triangle s t u :
  opt_cost ins del sub s u ≤ opt_cost ins del sub s t + opt_cost ins del sub t u.
Proof.
  destruct (align_compose t u _ (opt_cost_attained ins del sub t u)
              s _ (opt_cost_attained ins del sub s t)) as (c & Hal & Hle).
  apply opt_cost_least in Hal. lia.
Qed.

End composed_alignments.

Section default_costs.
Context {E : Type} `{EqDecision E}.

Abbreviation dins := (@levenshtein.default_ins_cost E).
Abbreviation ddel := (@levenshtein.default_del_cost E).
Abbreviation dsub := (@levenshtein.default_sub_cost E _).

Lemma default_sub_cost_cases (a b : E) :
  (a = b ∧ dsub a b = 0) ∨ (a ≠ b ∧ dsub a b = 2).
Proof. unfold levenshtein.default_sub_cost. case_decide; auto. Qed.

Lemma default_align_bounds (s t : list E) c :
  align dins ddel dsub s t c →
  0 ≤ c ∧ Z.of_nat (length s) - Z.of_nat (length t) ≤ c ∧
  Z.of_nat (length t) - Z.of_nat (length s) ≤ c ∧ (c = 0 → s = t).
Proof.
  induction 1 as [|a b s t c _ (IH0 & IH1 & IH2 & IH3)
                  |a s t c _ (IH0 & IH1 & IH2 & IH3)
                  |b s t c _ (IH0 & IH1 & IH2 & IH3)]; simpl length.
  - done.
  - destruct (default_sub_cost_cases a b) as [[-> ->]|[_ ->]].
    + split_and!; [lia..|]. intros Hc. rewrite IH3 by lia. done.
    + split_and!; lia.
  - unfold levenshtein.default_del_cost. split_and!; lia.
  - unfold levenshtein.default_ins_cost. split_and!; lia.
Qed.

Lemma default_align_all (s t : list E) :
  align dins ddel dsub s t (Z.of_nat (length s) + Z.of_nat (length t)).
Proof.
  induction s as [|a s IH].
  - induction t as [|b t IH]; [constructor|].
    replace (Z.of_nat (length (@nil E)) + Z.of_nat (length (b :: t)))
      with (Z.of_nat (length (@nil E)) + Z.of_nat (length t) + dins b)
      by (unfold levenshtein.default_ins_cost; simpl length; lia).
    by constructor.
  - replace (Z.of_nat (length (a :: s)) + Z.of_nat (length t))
      with (Z.of_nat (length s) + Z.of_nat (length t) + ddel a)
      by (unfold levenshtein.default_del_cost; simpl length; lia).
    by constructor.
Qed.

Lemma default_opt_cost_bounds (s t : list E) :
  Z.abs (Z.of_nat (length s) - Z.of_nat (length t))
    ≤ opt_cost dins ddel dsub s t
    ≤ Z.of_nat (length s) + Z.of_nat (length t) ∧
  (opt_cost dins ddel dsub s t = 0 ↔ s = t).
Proof.
  destruct (default_align_bounds s t _ (opt_cost_attained dins ddel dsub s t))
    as (H0 & H1 & H2 & H3).
  pose proof (opt_cost_least dins ddel dsub s t _ (default_align_all s t)).
  split; [lia|]. split; [done|]. intros ->.
  apply opt_cost_self.
  - intros. unfold levenshtein.default_ins_cost. lia.
  - intros. unfold levenshtein.default_del_cost. lia.
  - intros a b. destruct (default_sub_cost_cases a b) as [[_ ->]|[_ ->]]; lia.
  - intros a. by destruct (default_sub_cost_cases a a) as [[_ ->]|[? _]].
Qed.

Lemma default_opt_cost_triangle (s t u : list E) :
  opt_cost dins ddel dsub s u
  ≤ opt_cost dins ddel dsub s t + opt_cost dins ddel dsub t u.
Proof.
  apply opt_cost_triangle.
  - intros a b c.
    destruct (default_sub_cost_cases a c) as [[? ->]|[? ->]],
      (default_sub_cost_cases a b) as [[? ->]|[? ->]],
      (default_sub_cost_cases b c) as [[? ->]|[? ->]]; try lia.
    congruence.
  - intros a b. unfold levenshtein.default_del_cost.
    destruct (default_sub_cost_cases a b) as [[? ->]|[? ->]]; lia.
  - intros b c. unfold levenshtein.default_ins_cost.
    destruct (default_sub_cost_cases b c) as [[? ->]|[? ->]]; lia.
  - intros b. unfold levenshtein.default_ins_cost,
      levenshtein.default_del_cost. lia.
Qed.

End default_costs.

(** X14.  When an insertion and a deletion of the same element cost the
    same and the cost of a substitution does not depend on its direction,
    as with the default costs, the distance from [s] to [t] is the
    distance from [t] to [s]: for two calls of [set_pair] on one engine,
    and, when neither sequence is empty, for two calls of
    [chart.levenshtein], the second on the matrix the first has left. *)
Theorem distance_is_symmetric {E Char : Type} `{EqDecision E}
    (str : E → list Char) (is_mark : Char → bool)
    (ins del : E → Z) (sub : E → E → Z)
    (self : @levenshtein.Levenshtein E)
    (matrix : gmap (nat * nat) chart.Cell) (s t : list E) :
  (∀ a, ins a = del a) → (∀ a b, sub a b = sub b a) →
  (∃ d self1 self2,
     levenshtein.set_pair str is_mark ins del sub self s t = Some (d, self1) ∧
     levenshtein.set_pair str is_mark ins del sub self1 t s
       = Some (d, self2)) ∧
  (s ≠ [] → t ≠ [] → origin_cell matrix →
   ∃ d analysis1 matrix1 analysis2 matrix2,
     chart.levenshtein str is_mark s t ins del sub matrix
       = Some (analysis1, matrix1) ∧
     chart.min_edit_distance analysis1 matrix1 = Some d ∧
     chart.levenshtein str is_mark t s ins del sub matrix1
       = Some (analysis2, matrix2) ∧
     chart.min_edit_distance analysis2 matrix2 = Some d).
Proof.
  intros Hid Hsub. split.
  - destruct (set_pair_simulation str is_mark ins del sub self s t)
      as (m1 & _ & _ & Hset1).
    destruct (set_pair_simulation str is_mark ins del sub
                (levenshtein.mkLevenshtein s t (Some (lev_cell <$> m1))
                   (Some (levenshtein.greatest_width str is_mark s))
                   (Some (levenshtein.greatest_width str is_mark t))) t s)
      as (m2 & _ & _ & Hset2).
    rewrite (opt_cost_symmetric ins del sub t s) in Hset2 by done.
    eexists _, _, _. split; [exact Hset1|exact Hset2].
  - intros Hs Ht Horigin.
    destruct (levenshtein_succeeds str is_mark s t ins del sub matrix)
      as (analysis1 & matrix1 & Hcall1); [done..|].
    destruct (levenshtein_returns _ _ _ _ _ _ _ _ _ _ Horigin Hcall1)
      as (? & ? & ? & ? & ? & _ & _ & Hknown1).
    pose proof (levenshtein_keeps_origin _ _ _ _ _ _ _ _ _ _ Horigin Hcall1)
      as Horigin1.
    destruct (levenshtein_succeeds str is_mark t s ins del sub matrix1)
      as (analysis2 & matrix2 & Hcall2); [done..|].
    destruct (levenshtein_returns _ _ _ _ _ _ _ _ _ _ Horigin1 Hcall2)
      as (? & ? & ? & ? & ? & _ & _ & Hknown2).
    exists (opt_cost ins del sub s t), analysis1, matrix1, analysis2, matrix2.
    split; [done|]. split; [by apply min_edit_distance_optimal|].
    split; [done|]. rewrite (opt_cost_symmetric ins del sub s t) by done.
    by apply min_edit_distance_optimal.
Qed.

Lemma distance_is_symmetric_witness :
  (∃ d self1 self2,
     levenshtein.set_pair char_str ascii_is_mark levenshtein.default_ins_cost
       levenshtein.default_del_cost levenshtein.default_sub_cost
       levenshtein.__init__ ["d"; "a"; "g"]%char ["d"; "o"; "g"; "e"]%char
       = Some (d, self1) ∧
     levenshtein.set_pair char_str ascii_is_mark levenshtein.default_ins_cost
       levenshtein.default_del_cost levenshtein.default_sub_cost
       self1 ["d"; "o"; "g"; "e"]%char ["d"; "a"; "g"]%char
       = Some (d, self2)) ∧
  (["d"; "a"; "g"]%char ≠ [] → ["d"; "o"; "g"; "e"]%char ≠ [] →
   origin_cell chart.default_matrix →
   ∃ d analysis1 matrix1 analysis2 matrix2,
     chart.levenshtein char_str ascii_is_mark
       ["d"; "a"; "g"]%char ["d"; "o"; "g"; "e"]%char
       levenshtein.default_ins_cost levenshtein.default_del_cost
       levenshtein.default_sub_cost chart.default_matrix
       = Some (analysis1, matrix1) ∧
     chart.min_edit_distance analysis1 matrix1 = Some d ∧
     chart.levenshtein char_str ascii_is_mark
       ["d"; "o"; "g"; "e"]%char ["d"; "a"; "g"]%char
       levenshtein.default_ins_cost levenshtein.default_del_cost
       levenshtein.default_sub_cost matrix1
       = Some (analysis2, matrix2) ∧
     chart.min_edit_distance analysis2 matrix2 = Some d).
Proof.
  apply (distance_is_symmetric char_str ascii_is_mark).
  - done.
  - intros a b. unfold levenshtein.default_sub_cost.
    repeat case_decide; congruence.
Defined.

(** X15.  Under the default costs the distance [set_pair] returns lies
    between the difference of the two lengths and their sum, and it is 0
    exactly when the two sequences are equal. *)
Theorem default_distance_bounds {E Char : Type} `{EqDecision E}
    (str : E → list Char) (is_mark : Char → bool)
    (self : @levenshtein.Levenshtein E) (s t : list E) :
  ∃ d self',
    levenshtein.set_pair str is_mark levenshtein.default_ins_cost
      levenshtein.default_del_cost levenshtein.default_sub_cost self s t
      = Some (d, self') ∧
    Z.abs (Z.of_nat (length s) - Z.of_nat (length t)) ≤ d
      ≤ Z.of_nat (length s) + Z.of_nat (length t) ∧
    (d = 0 ↔ s = t).
Proof.
  destruct (set_pair_simulation str is_mark levenshtein.default_ins_cost
              levenshtein.default_del_cost levenshtein.default_sub_cost
              self s t) as (m & _ & _ & Hset).
  eexists _, _. split; [exact Hset|]. apply default_opt_cost_bounds.
Qed.

(** X16.  Under the default costs the distances [set_pair] returns obey the
    triangle inequality: going from [s] to [u] costs no more than going
    from [s] to [t] and then from [t] to [u]. *)
Theorem default_distance_triangle {E Char : Type} `{EqDecision E}
    (str : E → list Char) (is_mark : Char → bool)
    (self : @levenshtein.Levenshtein E) (s t u : list E) :
  ∃ d_st d_tu d_su self1 self2 self3,
    levenshtein.set_pair str is_mark levenshtein.default_ins_cost
      levenshtein.default_del_cost levenshtein.default_sub_cost self s t
      = Some (d_st, self1) ∧
    levenshtein.set_pair str is_mark levenshtein.default_ins_cost
      levenshtein.default_del_cost levenshtein.default_sub_cost self1 t u
      = Some (d_tu, self2) ∧
    levenshtein.set_pair str is_mark levenshtein.default_ins_cost
      levenshtein.default_del_cost levenshtein.default_sub_cost self2 s u
      = Some (d_su, self3) ∧
    d_su ≤ d_st + d_tu.
Proof.
  destruct (set_pair_simulation str is_mark levenshtein.default_ins_cost
              levenshtein.default_del_cost levenshtein.default_sub_cost
              self s t) as (m1 & _ & _ & Hset1).
  destruct (set_pair_simulation str is_mark levenshtein.default_ins_cost
              levenshtein.default_del_cost levenshtein.default_sub_cost
              (levenshtein.mkLevenshtein s t (Some (lev_cell <$> m1))
                 (Some (levenshtein.greatest_width str is_mark s))
                 (Some (levenshtein.greatest_width str is_mark t))) t u)
    as (m2 & _ & _ & Hset2).
  destruct (set_pair_simulation str is_mark levenshtein.default_ins_cost
              levenshtein.default_del_cost levenshtein.default_sub_cost
              (levenshtein.mkLevenshtein t u (Some (lev_cell <$> m2))
                 (Some (levenshtein.greatest_width str is_mark t))
                 (Some (levenshtein.greatest_width str is_mark u))) s u)
    as (m3 & _ & _ & Hset3).
  eexists _, _, _, _, _, _. split; [exact Hset1|].
  split; [exact Hset2|]. split; [exact Hset3|].
  apply default_opt_cost_triangle.
Qed.

(** ** xducer.py: [remove_suboptimal_parses] on its own *)
Section cheapest_parses.
Context {E : Type}.

Lemma parse_cost_nonempty (p : list (@xducer.Cell E)) :
  p ≠ [] → ∃ c, xducer.parse_cost p = Some c.
Proof. destruct p as [|cell p]; [done|]. intros _. by eexists. Qed.

Lemma least_parse_cost (parses : list (list (@xducer.Cell E))) :
  parses ≠ [] → [] ∉ parses →
  ∃ m, (∀ p, p ∈ parses → ∃ c, xducer.parse_cost p = Some c ∧ m ≤ c) ∧
       (∃ p, p ∈ parses ∧ xducer.parse_cost p = Some m).
Proof.
  induction parses as [|p parses IH]; [done|]. intros _ Hne.
  destruct (parse_cost_nonempty p) as [c Hc].
  { intros ->. apply Hne. by left. }
  destruct parses as [|q parses].
  - exists c. split.
    + intros p' ->%list_elem_of_singleton. exists c. split; [done|lia].
    + exists p. split; [by left|done].
  - destruct IH as (m & Hall & (p0 & Hp0 & Hm)); [done|..].
    { intros Hin. apply Hne. by right. }
    exists (Z.min c m). split.
    + intros p' [->|Hp']%elem_of_cons.
      * exists c. split; [done|lia].
      * destruct (Hall p' Hp') as (c' & Hc' & Hle).
        exists c'. split; [done|lia].
    + destruct (Z.min_spec c m) as [[_ ->]|[_ ->]].
      * exists p. split; [by left|done].
      * exists p0. split; [by right|done].
Qed.

Lemma remove_suboptimal_raises (parses : list (list (@xducer.Cell E)))
    just_one :
  [] ∈ parses → xducer.remove_suboptimal_parses parses just_one = None.
Proof.
  intros [k Hk]%list_elem_of_lookup. unfold xducer.remove_suboptimal_parses.
  destruct (mapM xducer.parse_cost parses) as [cs|] eqn:Hcs; [|done].
  apply mapM_Some_1 in Hcs.
  by destruct (Forall2_lookup_l _ _ _ _ _ Hcs Hk) as (c & _ & ?).
Qed.

End cheapest_parses.

(** X17.  [remove_suboptimal_parses] raises on an empty list of parses and
    on a list that holds an empty parse.  On any other list it keeps
    parses of the least cost among those given, in the order given: all of
    them, or with [just_one] the first alone; and applied to its own
    result it changes nothing. *)
Theorem remove_suboptimal_parses_keeps_the_cheapest {E : Type}
    (parses : list (list (@xducer.Cell E))) (just_one : bool) :
  (parses = [] ∨ [] ∈ parses →
   xducer.remove_suboptimal_parses parses just_one = None) ∧
  (parses ≠ [] → [] ∉ parses →
   ∃ kept m,
     xducer.remove_suboptimal_parses parses just_one = Some kept ∧
     kept ≠ [] ∧ kept `sublist_of` parses ∧
     (∀ p, p ∈ kept → xducer.parse_cost p = Some m) ∧
     (∀ p, p ∈ parses → ∃ c, xducer.parse_cost p = Some c ∧ m ≤ c) ∧
     (if just_one then ∃ p, kept = [p] ∧
                            head (filter (λ p, xducer.parse_cost p = Some m)
                                    parses) = Some p
      else ∀ p, p ∈ parses → xducer.parse_cost p = Some m → p ∈ kept) ∧
     xducer.remove_suboptimal_parses kept just_one = Some kept).
Proof.
  split.
  - intros [->|Hin]; [done|by apply remove_suboptimal_raises].
  - intros Hne Hnil.
    destruct (least_parse_cost parses Hne Hnil) as (m & Hall & Hmin).
    rewrite (remove_suboptimal_minimum parses just_one m Hne Hall Hmin).
    cbv zeta.
    remember (filter (λ p, xducer.parse_cost p = Some m) parses)
      as minimal eqn:Hminimal_eq.
    assert (minimal ≠ []) as Hminimal.
    { destruct Hmin as (p0 & Hp0 & Hm0). intros Hempty.
      eapply (not_elem_of_nil p0). rewrite <-Hempty, Hminimal_eq.
      by apply list_elem_of_filter. }
    assert (∀ p, p ∈ minimal → xducer.parse_cost p = Some m) as Hcost
      by (intros p; rewrite Hminimal_eq; by intros [? _]%list_elem_of_filter).
    eexists _, m. split; [done|].
    assert ((if just_one then take 1 minimal else minimal) ≠ []) as Hkept
      by (destruct just_one, minimal; done).
    assert (∀ p, p ∈ (if just_one then take 1 minimal else minimal) →
                 xducer.parse_cost p = Some m) as Hkcost.
    { intros p Hp. apply Hcost. destruct just_one; [|done].
      by apply (subseteq_take 1) in Hp. }
    split_and!; [done| |done|done| |].
    + trans minimal; [|rewrite Hminimal_eq; apply sublist_filter].
      destruct just_one; [apply sublist_take|done].
    + destruct just_one.
      * destruct minimal as [|p l]; [done|]. exists p.
        by rewrite <-Hminimal_eq.
      * intros p Hp Hc. rewrite Hminimal_eq. by apply list_elem_of_filter.
    + rewrite (remove_suboptimal_minimum _ just_one m Hkept).
      * cbv zeta. rewrite filter_all by done.
        destruct just_one; [|done]. by rewrite take_take.
      * intros p Hp. exists m. split; [by apply Hkcost|lia].
      * destruct (if just_one then take 1 minimal else minimal) as [|p l];
          [done|].
        exists p. split; [by left|]. apply Hkcost. by left.
Qed.

(** ** The printed alignments *)

Lemma lev_greatest_width_bound {E Char : Type} (str : E → list Char)
    (is_mark : Char → bool) (l : list E) (e : E) :
  e ∈ l →
  (chart.print_len str is_mark e
   ≤ levenshtein.greatest_width str is_mark l)%nat.
Proof.
  intros He. unfold levenshtein.greatest_width.
  rewrite greatest_width_loop.
  destruct (foldl_max_spec (chart.print_len str is_mark <$> l) 0)
    as (_ & Hall & _).
  apply Hall, list_elem_of_fmap. by exists e.
Qed.

Lemma chart_greatest_width_bound {E Char : Type} (str : E → list Char)
    (is_mark : Char → bool) (l : list E) (w : nat) :
  chart.greatest_width str is_mark l = Some w →
  (∀ e, e ∈ l → (chart.print_len str is_mark e ≤ w)%nat) ∧
  levenshtein.greatest_width str is_mark l = w.
Proof.
  intros Hw. pose proof (greatest_width_agree str is_mark l w Hw) as <-.
  split; [|done]. intros e He. by apply lev_greatest_width_bound.
Qed.

Section padding.
Context {Char : Type}.
Variable space : Char.

Lemma length_ljust (width : nat) (text : list Char) :
  length (ljust space width text) = (width `max` length text)%nat.
Proof. unfold ljust. rewrite length_app, length_replicate. lia. Qed.

Lemma length_rjust (width : nat) (text : list Char) :
  length (rjust space width text) = (width `max` length text)%nat.
Proof. unfold rjust. rewrite length_app, length_replicate. lia. Qed.

End padding.

Section chart_lines.
Context {E Char : Type} `{EqDecision E}.
Variable str : E → list Char.
Variable is_mark : Char → bool.
Variable truthy : E → bool.
Variable lit : ascii → Char.
Variable str_cost : Z → list Char.

(** The text of a plain element, and of an absent one, in a column as
    wide as the widest element of a sequence that holds a plain one. *)
Lemma or_space_fits (l : list E) (w : nat) (o : option E) :
  l ≠ [] → (∀ e, e ∈ l → plain_element str is_mark e) →
  chart.greatest_width str is_mark l = Some w →
  (∀ e, o = Some e → e ∈ l) →
  (1 ≤ w)%nat ∧ (length (chart.or_space str truthy lit o) ≤ w)%nat.
Proof.
  intros Hne Hplain Hw Ho.
  destruct (chart_greatest_width_bound str is_mark l w Hw)
    as [Hbound _].
  assert (∀ e, e ∈ l → (1 ≤ length (str e) ≤ w)%nat) as Hlen.
  { intros e He. destruct (Hplain e He) as [Hstr Hmarks].
    pose proof (Hbound e He) as Hle.
    unfold chart.print_len in Hle.
    pose proof (marks_and_others is_mark (str e)) as Hsum.
    rewrite (no_marks_filter is_mark (str e) Hmarks) in Hsum.
    simpl in Hsum. destruct (str e); [done|]. simpl in *. lia. }
  assert (1 ≤ w)%nat as H1.
  { destruct l as [|e0 l]; [done|].
    destruct (Hlen e0) as [? ?]; [by left|lia]. }
  split; [done|]. unfold chart.or_space.
  destruct o as [e|]; [|simpl; lia].
  destruct (truthy e); [|simpl; lia]. by apply Hlen, Ho.
Qed.

Lemma vertical_alignment_lines_costed (analysis : @chart.PairAnalysis E)
    (ins del : E → Z) (sub : E → E → Z) (steps : list (@chart.EditStep E)) :
  Forall (costed_step ins del sub) steps →
  ∃ lines,
    chart.vertical_alignment_lines str truthy lit str_cost analysis steps
      = Some lines ∧
    length lines = length steps ∧
    ((∀ st, st ∈ steps →
        (length (chart.or_space str truthy lit (chart.step_source st))
         ≤ chart.source_widest analysis)%nat ∧
        (length (chart.or_space str truthy lit (chart.step_target st))
         ≤ chart.target_widest analysis)%nat) →
     Forall (line_layout lit (chart.source_widest analysis)
               (chart.target_widest analysis)) lines).
Proof.
  unfold chart.vertical_alignment_lines.
  induction 1 as [|st steps Hst _ (lines & Hlines & Hlen & Hlay)].
  - exists []. split; [done|]. split; [done|]. intros _. constructor.
  - assert (∃ op,
              match chart.operation (chart.cell st) with
              | chart.DEL => Some (lit ">"%char)
              | chart.INS => Some (lit "<"%char)
              | chart.SUB =>
                Some (if decide (chart.step_source st = chart.step_target st)
                      then lit "="%char else lit "~"%char)
              | chart.START => None
              end = Some op) as [op Hop].
    { unfold costed_step in Hst.
      destruct (chart.step_source st), (chart.step_target st);
        try done; destruct Hst as [-> _]; by eexists. }
    cbn [mapM]. rewrite Hop. cbn [mbind option_bind].
    rewrite Hlines. cbn [mbind option_bind mret option_ret].
    eexists. split; [done|]. split; [simpl; by rewrite Hlen|].
    intros Hfit. constructor.
    + destruct (Hfit st) as [Hs Ht]; [by left|].
      eexists _, op, _, _. split; [done|].
      rewrite !length_ljust. lia.
    + apply Hlay. intros st' Hst'. apply Hfit. by right.
Qed.

End chart_lines.

(** X18.  [chart.vertical_alignment] of the analysis of two non-empty
    sequences returns: no step of the backtrace carries the tag [START],
    for which the formatter has no operator.  The text has one line per
    step, and when the string of every element is not empty and holds no
    mark, the source column of every line is as wide as the widest source
    element and the target column as wide as the widest target element, so
    that operators and costs line up. *)
Theorem vertical_alignment_lines_up {E Char : Type} `{EqDecision E}
    (str : E → list Char) (is_mark : Char → bool) (truthy : E → bool)
    (lit : ascii → Char) (str_cost : Z → list Char) (s t : list E)
    (ins del : E → Z) (sub : E → E → Z)
    (matrix : gmap (nat * nat) chart.Cell) :
  s ≠ [] → t ≠ [] → origin_cell matrix →
  ∃ analysis matrix' steps lines,
    chart.levenshtein str is_mark s t ins del sub matrix
      = Some (analysis, matrix') ∧
    chart.get_one_backtrace analysis matrix' = Some steps ∧
    chart.vertical_alignment str truthy lit str_cost analysis matrix'
      = Some (join [lit "010"%char] lines) ∧
    length lines = length steps ∧
    ((∀ e, e ∈ s ++ t → plain_element str is_mark e) →
     Forall (line_layout lit (chart.source_widest analysis)
               (chart.target_widest analysis)) lines).
Proof.
  intros Hs Ht Horigin.
  destruct (levenshtein_succeeds str is_mark s t ins del sub matrix)
    as (analysis & matrix' & Hcall); [done..|].
  destruct (levenshtein_returns _ _ _ _ _ _ _ _ _ _ Horigin Hcall)
    as (Hsrc & Htgt & Hins & Hdel & Hsub & Hws & Hwt & Hknown).
  rewrite <-Hsrc, <-Htgt in Hknown.
  destruct (get_one_backtrace_traced analysis matrix' Hknown)
    as (steps & Hbt & [Hsources Htargets _ _ _]).
  pose proof (get_one_backtrace_costed analysis matrix' Hknown steps Hbt)
    as Hcosted.
  destruct (vertical_alignment_lines_costed str truthy lit str_cost analysis
              _ _ _ steps Hcosted) as (lines & Hlines & Hlen & Hlay).
  exists analysis, matrix', steps, lines. split; [done|]. split; [done|].
  split; [|split; [done|]].
  { unfold chart.vertical_alignment. rewrite Hbt. cbn [mbind option_bind].
    by rewrite Hlines. }
  intros Hplain. apply Hlay. intros st Hst.
  rewrite firstn_all, Hsrc in Hsources. rewrite firstn_all, Htgt in Htargets.
  split.
  - eapply (or_space_fits str is_mark truthy lit s); [done| |done|].
    + intros e He. apply Hplain, elem_of_app. by left.
    + intros e He. rewrite <-Hsources. apply list_elem_of_omap. by exists st.
  - eapply (or_space_fits str is_mark truthy lit t); [done| |done|].
    + intros e He. apply Hplain, elem_of_app. by right.
    + intros e He. rewrite <-Htargets. apply list_elem_of_omap. by exists st.
Qed.

Lemma vertical_alignment_lines_up_witness :
  ∃ analysis matrix' steps lines,
    chart.levenshtein char_str ascii_is_mark
      ["d"; "a"; "g"]%char ["d"; "o"; "g"; "e"]%char
      chart.lev_ins_function chart.lev_del_function chart.lev_sub_function
      chart.default_matrix = Some (analysis, matrix') ∧
    chart.get_one_backtrace analysis matrix' = Some steps ∧
    chart.vertical_alignment char_str (λ _, true) id int_str
      analysis matrix' = Some (join [id "010"%char] lines) ∧
    length lines = length steps ∧
    ((∀ e, e ∈ ["d"; "a"; "g"]%char ++ ["d"; "o"; "g"; "e"]%char →
           plain_element char_str ascii_is_mark e) →
     Forall (line_layout id (chart.source_widest analysis)
               (chart.target_widest analysis)) lines).
Proof.
  apply (vertical_alignment_lines_up char_str ascii_is_mark);
    [done|done|reflexivity].
Defined.

Section padded_columns.
Context {Char : Type}.
Variable space : Char.

(** A text of one character, or one no wider than the column. *)
Lemma length_ljust_fits (width : nat) (text : list Char) :
  length text = 1%nat ∨ (1 ≤ length text ≤ width)%nat →
  length (ljust space width text) = (width `max` 1)%nat.
Proof. intros Hfit. rewrite length_ljust. lia. Qed.

Lemma length_rjust_fits (width : nat) (text : list Char) :
  length text = 1%nat ∨ (1 ≤ length text ≤ width)%nat →
  length (rjust space width text) = (width `max` 1)%nat.
Proof. intros Hfit. rewrite length_rjust. lia. Qed.

End padded_columns.

Section xducer_lines.
Context {E Char : Type} `{EqDecision E}.
Variable str : E → list Char.
Variable truthy : E → bool.
Variable lit : ascii → Char.
Variable str_cost : Z → list Char.

Lemma biggest_length_bound (pars : list (@xducer.Cell E)) name :
  pars ≠ [] →
  ∃ w, xducer.biggest_length_in_parse str truthy pars name = Some w ∧
       ∀ cell, cell ∈ pars →
               (xducer.element_length str truthy cell name ≤ w)%nat.
Proof.
  destruct pars as [|c0 pars]; [done|]. intros _.
  unfold xducer.biggest_length_in_parse. rewrite fmap_cons. cbn [py_max].
  eexists. split; [done|].
  destruct (foldl_max_spec
              ((λ cell, xducer.element_length str truthy cell name) <$> pars)
              (xducer.element_length str truthy c0 name))
    as (Hle & Hall & _).
  intros cell [->|Hcell]%elem_of_cons; [done|].
  apply Hall, list_elem_of_fmap. by exists cell.
Qed.

Lemma or_space_element_length (cell : @xducer.Cell E) name (w : nat) :
  (∀ e, truthy e = true → str e ≠ []) →
  (xducer.element_length str truthy cell name ≤ w)%nat →
  length (xducer.or_space str truthy lit (xducer.getattr cell name)) = 1%nat ∨
  (1 ≤ length (xducer.or_space str truthy lit (xducer.getattr cell name))
   ≤ w)%nat.
Proof.
  intros Htruthy. unfold xducer.element_length, xducer.or_space.
  destruct (xducer.getattr cell name) as [e|]; [|by left].
  destruct (truthy e) eqn:He; [|by left].
  intros Hle. right. specialize (Htruthy e He).
  destruct (str e); [done|]. simpl in *. lia.
Qed.

Lemma format_cell_layout (cell : @xducer.Cell E) (sw tw : nat) :
  (∀ e, truthy e = true → str e ≠ []) →
  (xducer.element_length str truthy cell xducer.source_name ≤ sw)%nat →
  (xducer.element_length str truthy cell xducer.target_name ≤ tw)%nat →
  line_layout lit (sw `max` 1) (tw `max` 1)
    (xducer.format_cell str truthy lit str_cost cell sw tw).
Proof.
  intros Htruthy Hs Ht. unfold xducer.format_cell. cbv zeta.
  eexists _, _, _, _. split; [done|]. split.
  - apply length_ljust_fits.
    by apply (or_space_element_length cell xducer.source_name).
  - apply length_ljust_fits.
    by apply (or_space_element_length cell xducer.target_name).
Qed.

Lemma vertical_align_nonempty (pars : list (@xducer.Cell E)) :
  pars ≠ [] →
  ∃ sw tw lines,
    xducer.biggest_length_in_parse str truthy pars xducer.source_name
      = Some sw ∧
    xducer.biggest_length_in_parse str truthy pars xducer.target_name
      = Some tw ∧
    xducer.vertical_align str truthy lit str_cost pars
      = Some (join [lit "010"%char] lines) ∧
    length lines = length pars ∧
    ((∀ e, truthy e = true → str e ≠ []) →
     Forall (line_layout lit (sw `max` 1) (tw `max` 1)) lines).
Proof.
  intros Hne.
  destruct (biggest_length_bound pars xducer.source_name Hne)
    as (sw & Hsw & Hs).
  destruct (biggest_length_bound pars xducer.target_name Hne)
    as (tw & Htw & Ht).
  exists sw, tw. eexists. split; [done|]. split; [done|].
  unfold xducer.vertical_align. rewrite Hsw, Htw.
  cbn [mbind option_bind]. split; [done|]. split; [by rewrite length_fmap|].
  intros Htruthy. apply Forall_fmap, Forall_forall. intros cell Hcell.
  apply format_cell_layout; auto.
Qed.

End xducer_lines.

(** X19.  [xducer.vertical_align] raises on an empty parse, and returns for
    every path that [relate] returns.  The text has one line per step;
    when the string of every true element is not empty, the source column
    of every line is as wide as the longest source string of the path, or
    one character when no step has a true source element, and likewise
    the target column, so that operators and costs line up. *)
Theorem vertical_align_lines_up {E Char : Type} `{EqDecision E}
    (str : E → list Char) (truthy : E → bool) (lit : ascii → Char)
    (str_cost : Z → list Char) (s t : list E)
    (costs : @xducer.CostFunctions E) (just_one : bool) (fuel : nat) :
  (length s + length t < fuel)%nat →
  xducer.vertical_align str truthy lit str_cost [] = None ∧
  ∃ ps,
    relate_arguments fuel s t costs just_one = Some ps ∧
    ∀ p, p ∈ ps →
      ∃ sw tw lines,
        xducer.biggest_length_in_parse str truthy p xducer.source_name
          = Some sw ∧
        xducer.biggest_length_in_parse str truthy p xducer.target_name
          = Some tw ∧
        xducer.vertical_align str truthy lit str_cost p
          = Some (join [lit "010"%char] lines) ∧
        length lines = length p ∧
        ((∀ e, truthy e = true → str e ≠ []) →
         Forall (line_layout lit (sw `max` 1) (tw `max` 1)) lines).
Proof.
  intros Hfuel. split; [done|].
  destruct (relate_arguments_paths s t costs just_one fuel Hfuel)
    as (ps & Hrel & _ & [_ Hne _]).
  exists ps. split; [done|]. intros p Hp.
  by apply vertical_align_nonempty, Hne.
Qed.

Lemma vertical_align_lines_up_witness :
  xducer.vertical_align char_str (λ _, true) id int_str [] = None ∧
  ∃ ps,
    relate_arguments 8 ["d"; "a"; "g"]%char ["d"; "o"; "g"; "e"]%char
      xducer.default_costs false = Some ps ∧
    ∀ p, p ∈ ps →
      ∃ sw tw lines,
        xducer.biggest_length_in_parse char_str (λ _, true) p
          xducer.source_name = Some sw ∧
        xducer.biggest_length_in_parse char_str (λ _, true) p
          xducer.target_name = Some tw ∧
        xducer.vertical_align char_str (λ _, true) id int_str p
          = Some (join [id "010"%char] lines) ∧
        length lines = length p ∧
        ((∀ e, (λ _ : ascii, true) e = true → char_str e ≠ []) →
         Forall (line_layout id (sw `max` 1) (tw `max` 1)) lines).
Proof.
  apply (vertical_align_lines_up char_str (λ _, true) id int_str
           ["d"; "a"; "g"]%char ["d"; "o"; "g"; "e"]%char).
  simpl. lia.
Defined.

Section levenshtein_lines.
Context {E Char : Type} `{EqDecision E}.
Variable str : E → list Char.
Variable is_mark : Char → bool.
Variable truthy : E → bool.
Variable lit : ascii → Char.
Variable str_cost : Z → list Char.

Lemma length_alignment_lines (w1 w2 : nat)
    (units : list (@levenshtein.AlignmentUnit E)) : ∀ prev_cost,
  length (levenshtein.alignment_lines str truthy lit str_cost w1 w2
            prev_cost units) = length units.
Proof.
  induction units as [|u units IH]; intros prev; [done|].
  simpl. by rewrite IH.
Qed.

Lemma lev_or_space_fits (l : list E) (o : option E) :
  (∀ e, e ∈ l → plain_element str is_mark e) →
  (∀ e, o = Some e → e ∈ l) →
  length (levenshtein.or_space str truthy lit o) = 1%nat ∨
  (1 ≤ length (levenshtein.or_space str truthy lit o)
   ≤ levenshtein.greatest_width str is_mark l)%nat.
Proof.
  intros Hplain Ho. unfold levenshtein.or_space.
  destruct o as [e|]; [|by left]. destruct (truthy e); [|by left].
  right. specialize (Ho e eq_refl). destruct (Hplain e Ho) as [Hstr Hmarks].
  pose proof (lev_greatest_width_bound str is_mark l e Ho) as Hle.
  unfold chart.print_len in Hle.
  pose proof (marks_and_others is_mark (str e)) as Hsum.
  rewrite (no_marks_filter is_mark (str e) Hmarks) in Hsum.
  simpl in Hsum. destruct (str e); [done|]. simpl in *. lia.
Qed.

Lemma alignment_lines_layout (s t : list E)
    (units : list (@levenshtein.AlignmentUnit E)) :
  (∀ e, e ∈ s ++ t → plain_element str is_mark e) →
  (∀ u e, u ∈ units → levenshtein.unit1 u = Some e → e ∈ s) →
  (∀ u e, u ∈ units → levenshtein.unit2 u = Some e → e ∈ t) →
  ∀ prev_cost,
    Forall (line_layout lit
              (levenshtein.greatest_width str is_mark s `max` 1)
              (levenshtein.greatest_width str is_mark t `max` 1))
      (levenshtein.alignment_lines str truthy lit str_cost
         (levenshtein.greatest_width str is_mark s)
         (levenshtein.greatest_width str is_mark t) prev_cost units).
Proof.
  intros Hplain. induction units as [|u units IH]; intros H1 H2 prev;
    [constructor|].
  cbn [levenshtein.alignment_lines]. constructor.
  - eexists _, _, _, _. split; [done|]. split.
    + apply length_rjust_fits, (lev_or_space_fits s).
      * intros e He. apply Hplain, elem_of_app. by left.
      * intros e He. apply (H1 u); [by left|done].
    + apply length_rjust_fits, (lev_or_space_fits t).
      * intros e He. apply Hplain, elem_of_app. by right.
      * intros e He. apply (H2 u); [by left|done].
  - apply IH.
    + intros u' e Hu'. apply H1. by right.
    + intros u' e Hu'. apply H2. by right.
Qed.

End levenshtein_lines.

(** X20.  [Levenshtein.alignment] raises on an engine that was given no
    pair, and returns after [set_pair] on any pair.  The text has one line
    per alignment unit; when the string of every element is not empty and
    holds no mark, the first column of every line is as wide as the widest
    element of the first sequence, or one character when that sequence is
    empty, and likewise the second column, so that operators and costs
    line up. *)
Theorem levenshtein_alignment_lines_up {E Char : Type} `{EqDecision E}
    (str : E → list Char) (is_mark : Char → bool) (truthy : E → bool)
    (lit : ascii → Char) (str_cost : Z → list Char)
    (ins del : E → Z) (sub : E → E → Z)
    (self : @levenshtein.Levenshtein E) (s t : list E) :
  levenshtein.alignment str truthy lit str_cost levenshtein.__init__ = None ∧
  ∃ d self' units lines,
    levenshtein.set_pair str is_mark ins del sub self s t = Some (d, self') ∧
    levenshtein.alignment_facts self' = Some units ∧
    levenshtein.alignment str truthy lit str_cost self'
      = Some (join [lit "010"%char] lines) ∧
    length lines = length units ∧
    ((∀ e, e ∈ s ++ t → plain_element str is_mark e) →
     Forall (line_layout lit
               (levenshtein.greatest_width str is_mark s `max` 1)
               (levenshtein.greatest_width str is_mark t `max` 1)) lines).
Proof.
  split; [done|].
  destruct (alignment_facts_simulation str is_mark ins del sub self s t)
    as (d & self' & m & steps & Hset & _ & _ & _ & _ & _ & _ & Htraced
        & Hfacts).
  destruct (set_pair_simulation str is_mark ins del sub self s t)
    as (m0 & _ & _ & Hset0).
  rewrite Hset in Hset0. injection Hset0 as -> ->.
  eexists _, _, (unit_of <$> steps), _. split; [exact Hset|].
  split; [exact Hfacts|].
  unfold levenshtein.alignment. rewrite Hfacts.
  cbn [mbind option_bind levenshtein.widest_sequence1_char
       levenshtein.widest_sequence2_char].
  split; [done|]. split; [apply length_alignment_lines|].
  intros Hplain. destruct Htraced as [Hsources Htargets _ _ _].
  cbn [chart.source chart.target] in Hsources, Htargets.
  rewrite firstn_all in Hsources, Htargets.
  destruct (omap_unit_of steps) as [Hu1 Hu2].
  apply (alignment_lines_layout str is_mark truthy lit str_cost s t);
    [done|..].
  - intros u e Hu He. rewrite <-Hsources, <-Hu1.
    apply list_elem_of_omap. by exists u.
  - intros u e Hu He. rewrite <-Htargets, <-Hu2.
    apply list_elem_of_omap. by exists u.
Qed.

(** X21.  On a matrix that holds the origin cell, [chart.levenshtein]
    raises exactly when the source or the target is empty, by the
    [ValueError] of [greatest_width]; filling the matrix never fails on a
    missing cell. *)
Theorem levenshtein_raises_on_an_empty_sequence_only {E Char : Type}
    `{EqDecision E} (str : E → list Char) (is_mark : Char → bool)
    (s t : list E) (ins del : E → Z) (sub : E → E → Z)
    (matrix : gmap (nat * nat) chart.Cell) :
  origin_cell matrix →
  (chart.levenshtein str is_mark s t ins del sub matrix = None ↔
   s = [] ∨ t = []) ∧
  (chart.greatest_width str is_mark s = None ↔ s = []) ∧
  (chart.greatest_width str is_mark t = None ↔ t = []).
Proof.
  intros Horigin. split_and!.
  - split.
    + intros Hnone. destruct s as [|a s']; [by left|].
      destruct t as [|b t']; [by right|].
      destruct (levenshtein_succeeds str is_mark (a :: s') (b :: t')
                  ins del sub matrix) as (? & ? & Hcall); [done..|].
      by rewrite Hcall in Hnone.
    + intros [->| ->];
        [apply levenshtein_empty_source|apply levenshtein_empty_target].
  - split; [|by intros ->]. destruct s as [|a s']; [done|].
    by destruct (greatest_width_cons str is_mark a s') as [w ->].
  - split; [|by intros ->]. destruct t as [|b t']; [done|].
    by destruct (greatest_width_cons str is_mark b t') as [w ->].
Qed.

Lemma levenshtein_raises_on_an_empty_sequence_only_witness :
  (chart.levenshtein char_str ascii_is_mark ["d"; "a"; "g"]%char []
     chart.lev_ins_function chart.lev_del_function chart.lev_sub_function
     chart.default_matrix = None ↔
   ["d"; "a"; "g"]%char = [] ∨ @nil ascii = []) ∧
  (chart.greatest_width char_str ascii_is_mark ["d"; "a"; "g"]%char = None ↔
   ["d"; "a"; "g"]%char = []) ∧
  (chart.greatest_width char_str ascii_is_mark [] = None ↔ @nil ascii = []).
Proof.
  apply (levenshtein_raises_on_an_empty_sequence_only char_str ascii_is_mark).
  reflexivity.
Defined.

(** ** The examples of the documentation

    The docstrings of the three modules print alignments of "dag" with
    "doge" and of "intention" with "execution"; the embedding computes the
    same texts, distances and number of paths. *)

Example chart_dag_doge :
  ('(analysis, matrix) ←
      chart.levenshtein char_str ascii_is_mark
        ["d"; "a"; "g"]%char ["d"; "o"; "g"; "e"]%char
        chart.lev_ins_function chart.lev_del_function chart.lev_sub_function
        chart.default_matrix;
    text ← chart.vertical_alignment char_str (λ _, true) id int_str
              analysis matrix;
    Some (chart.min_edit_distance analysis matrix, text))
  = Some (Some 3,
          join ["010"%char]
            [["d"; " "; "="; " "; "d"; " "; " "; "0"]%char;
             ["a"; " "; "~"; " "; "o"; " "; " "; "2"]%char;
             ["g"; " "; "="; " "; "g"; " "; " "; "0"]%char;
             [" "; " "; "<"; " "; "e"; " "; " "; "1"]%char]).
Proof. vm_compute. reflexivity. Qed.

Example levenshtein_intention_execution :
  ('(d, self) ←
      levenshtein.set_pair char_str ascii_is_mark
        levenshtein.default_ins_cost levenshtein.default_del_cost
        levenshtein.default_sub_cost levenshtein.__init__
        ["i"; "n"; "t"; "e"; "n"; "t"; "i"; "o"; "n"]%char
        ["e"; "x"; "e"; "c"; "u"; "t"; "i"; "o"; "n"]%char;
    text ← levenshtein.alignment char_str (λ _, true) id int_str self;
    Some (d, levenshtein.min_edit_distance self, text))
  = Some (8, Some 8,
          join ["010"%char]
            [["i"; " "; ">"; " "; " "; " "; " "; "1"]%char;
             ["n"; " "; "~"; " "; "e"; " "; " "; "2"]%char;
             ["t"; " "; "~"; " "; "x"; " "; " "; "2"]%char;
             ["e"; " "; "="; " "; "e"; " "; " "; "0"]%char;
             [" "; " "; "<"; " "; "c"; " "; " "; "1"]%char;
             ["n"; " "; "~"; " "; "u"; " "; " "; "2"]%char;
             ["t"; " "; "="; " "; "t"; " "; " "; "0"]%char;
             ["i"; " "; "="; " "; "i"; " "; " "; "0"]%char;
             ["o"; " "; "="; " "; "o"; " "; " "; "0"]%char;
             ["n"; " "; "="; " "; "n"; " "; " "; "0"]%char]).
Proof. vm_compute. reflexivity. Qed.

Example xducer_intention_execution :
  (result ←
     relate_arguments 19
       ["i"; "n"; "t"; "e"; "n"; "t"; "i"; "o"; "n"]%char
       ["e"; "x"; "e"; "c"; "u"; "t"; "i"; "o"; "n"]%char
       xducer.default_costs false;
   first_parse ← head result;
   text ← xducer.vertical_align char_str (λ _, true) id int_str first_parse;
   Some (length result, xducer.parse_cost first_parse, text))
  = Some (134%nat, Some 8,
          join ["010"%char]
            [["i"; " "; "~"; " "; "e"; " "; " "; "2"]%char;
             ["n"; " "; "~"; " "; "x"; " "; " "; "2"]%char;
             ["t"; " "; ">"; " "; " "; " "; " "; "1"]%char;
             ["e"; " "; "="; " "; "e"; " "; " "; "0"]%char;
             ["n"; " "; "~"; " "; "c"; " "; " "; "2"]%char;
             [" "; " "; "<"; " "; "u"; " "; " "; "1"]%char;
             ["t"; " "; "="; " "; "t"; " "; " "; "0"]%char;
             ["i"; " "; "="; " "; "i"; " "; " "; "0"]%char;
             ["o"; " "; "="; " "; "o"; " "; " "; "0"]%char;
             ["n"; " "; "="; " "; "n"; " "; " "; "0"]%char]).
Proof. vm_compute. reflexivity. Qed.
